(** * The crawl frontier of the NGO scraper: URL manager, checkpoints, crawl loop

    A shallow embedding of [src/url_manager.py] (class [URLManager]) and of the
    parts of [src/scraper.py] that drive it ([scrape_ngo], [_save_checkpoint],
    [_load_checkpoint]), with the properties of the frontier proved over it.

    Conventions.
    - A Python [str] is a [string] holding its UTF-8 bytes.  The URL syntax
      the code looks at is ASCII, and so is the authority of a URL in this
      model: there [str.lower] is [lower], on the ASCII letters.  Where the
      code lower-cases free text (a whole URL, a configured pattern),
      [str.lower] is the parameter [str_lower]; where it counts or cuts
      characters (file names), code points are counted.
    - Python [int] is [Z]; [Optional[T]] is [option T]; a [set] of strings is a
      [gset string]; the [failed_urls] dict is a [gmap string string]; the
      queue (a [deque] of tuples, appended on the right and popped on the left)
      is a [list] of records.
    - A method that mutates [self] is a function that returns the new manager,
      paired with the method's result when it has one.
    - The functions of [urllib.parse] that [normalize_url] calls are modelled
      after the CPython 3.11 sources, see [Module Urllib]. *)

From stdpp Require Import base gmap strings list sorting.
From Stdlib Require Import ZArith Ascii String Lia.

Local Open Scope Z_scope.

(** ** Python string operations *)

Module PyStr.

Definition ch_eqb (a b : ascii) : bool := Ascii.eqb a b.

Definition code (c : ascii) : N := N_of_ascii c.

Definition in_range (lo hi : N) (c : ascii) : bool :=
  ((lo <=? code c) && (code c <=? hi))%N.

Definition is_upper (c : ascii) : bool := in_range 65 90 c.
Definition is_lower (c : ascii) : bool := in_range 97 122 c.
Definition is_alpha (c : ascii) : bool := is_upper c || is_lower c.
Definition is_digit (c : ascii) : bool := in_range 48 57 c.

(** [c.lower()] on one character. *)
Definition lower_char (c : ascii) : ascii :=
  if is_upper c then ascii_of_N (code c + 32) else c.

(** [s.lower()] *)
Fixpoint lower (s : string) : string :=
  match s with
  | EmptyString => EmptyString
  | String c s' => String (lower_char c) (lower s')
  end.

(** [s.lower()] on text of any script.  Python maps the letters of every
    script, by the case tables of Unicode, which are not among the sources:
    where the code lower-cases text that need not be ASCII (a whole URL, a
    pattern of the configuration), the mapping is a parameter.  On ASCII text
    it is [lower]; the authority of a URL is ASCII text in this model (see
    [Module Urllib]). *)
Class CaseMapping := { str_lower : string -> string }.

(** Truth value of a string: [bool(s)], false for the empty string only. *)
Definition truthy (s : string) : bool :=
  match s with EmptyString => false | String _ _ => true end.

(** [all(p(c) for c in s)] *)
Fixpoint all_chars (p : ascii -> bool) (s : string) : bool :=
  match s with
  | EmptyString => true
  | String c s' => p c && all_chars p s'
  end.

(** [any(p(c) for c in s)]; [c in s] is [has_char (ch_eqb c) s]. *)
Fixpoint has_char (p : ascii -> bool) (s : string) : bool :=
  match s with
  | EmptyString => false
  | String c s' => p c || has_char p s'
  end.

Definition contains (c : ascii) (s : string) : bool := has_char (ch_eqb c) s.

(** Removes every character satisfying [p]: a chain of [s.replace(b, "")]. *)
Fixpoint remove_chars (p : ascii -> bool) (s : string) : string :=
  match s with
  | EmptyString => EmptyString
  | String c s' => if p c then remove_chars p s' else String c (remove_chars p s')
  end.

(** [s.replace(a, b)] for single characters. *)
Fixpoint replace_char (a b : ascii) (s : string) : string :=
  match s with
  | EmptyString => EmptyString
  | String c s' => String (if ch_eqb c a then b else c) (replace_char a b s')
  end.

(** [s.lstrip(chars)], the characters to strip given as a predicate. *)
Fixpoint lstrip (p : ascii -> bool) (s : string) : string :=
  match s with
  | EmptyString => EmptyString
  | String c s' => if p c then lstrip p s' else s
  end.

(** [s.rstrip(chars)] *)
Fixpoint rstrip (p : ascii -> bool) (s : string) : string :=
  match s with
  | EmptyString => EmptyString
  | String c s' =>
      match rstrip p s' with
      | EmptyString => if p c then EmptyString else String c EmptyString
      | r => String c r
      end
  end.

(** Cuts [s] at the first character satisfying [p]: the longest prefix free
    of such characters, and the rest, which starts at that character or is
    empty.  With [i] the least index of such a character (or [len(s)]), this
    is [(s[:i], s[i:])]. *)
Fixpoint break (p : ascii -> bool) (s : string) : string * string :=
  match s with
  | EmptyString => (EmptyString, EmptyString)
  | String c s' =>
      if p c then (EmptyString, s)
      else let '(a, b) := break p s' in (String c a, b)
  end.

(** [s[1:]] *)
Definition tail (s : string) : string :=
  match s with EmptyString => EmptyString | String _ s' => s' end.

(** [s[n:]] *)
Fixpoint drop (n : nat) (s : string) : string :=
  match n, s with
  | O, _ => s
  | S n', String _ s' => drop n' s'
  | S _, EmptyString => EmptyString
  end.

(** [s.startswith(p)] *)
Fixpoint startswith (p s : string) : bool :=
  match p, s with
  | EmptyString, _ => true
  | String a p', String b s' => ch_eqb a b && startswith p' s'
  | String _ _, EmptyString => false
  end.

(** [s.endswith(suf)], with the rest: [Some (s[:-len(suf)])] when [s] ends in
    [suf], [None] otherwise. *)
Fixpoint strip_suffix (suf s : string) : option string :=
  if String.eqb s suf then Some EmptyString
  else match s with
       | EmptyString => None
       | String c s' =>
           match strip_suffix suf s' with
           | Some r => Some (String c r)
           | None => None
           end
       end.

Definition endswith (suf s : string) : bool :=
  match strip_suffix suf s with Some _ => true | None => false end.

(** [sub in s] *)
Fixpoint has_substring (sub s : string) : bool :=
  startswith sub s ||
  match s with
  | EmptyString => false
  | String _ s' => has_substring sub s'
  end.

(** [s.split(c, 1)]: the part before the first [c] and, when there is a [c],
    the part after it. *)
Definition split_once (c : ascii) (s : string) : string * option string :=
  match break (ch_eqb c) s with
  | (a, EmptyString) => (a, None)
  | (a, String _ b) => (a, Some b)
  end.

(** [s.split(c)]: always at least one piece. *)
Fixpoint split (c : ascii) (s : string) : list string :=
  match s with
  | EmptyString => [EmptyString]
  | String x s' =>
      if ch_eqb x c then EmptyString :: split c s'
      else match split c s' with
           | p :: ps => String x p :: ps
           | [] => [String x EmptyString]
           end
  end.

(** [sep.join(pieces)] *)
Fixpoint join (sep : string) (pieces : list string) : string :=
  match pieces with
  | [] => EmptyString
  | [p] => p
  | p :: ps => p +:+ sep +:+ join sep ps
  end.

(** [s.rpartition(c)] when [c] occurs in [s]: the part up to and including
    the last [c], and the part after it. *)
Fixpoint rcut (c : ascii) (s : string) : option (string * string) :=
  match s with
  | EmptyString => None
  | String x s' =>
      match rcut c s' with
      | Some (a, b) => Some (String x a, b)
      | None => if ch_eqb x c then Some (String x EmptyString, s') else None
      end
  end.

(** [s[:-1]] *)
Fixpoint drop_last (s : string) : string :=
  match s with
  | EmptyString => EmptyString
  | String c EmptyString => EmptyString
  | String c s' => String c (drop_last s')
  end.

End PyStr.

(** ** [urllib.parse]

    The standard-library functions [normalize_url] calls, after the CPython
    3.11 sources.  A [ValueError] is [None].  Two parts of the library are not
    modelled: the address syntax of a bracketed host ([ipaddress] and a regular
    expression, behind [_check_bracketed_host]) is a parameter, and the NFKC
    check of [_checknetloc], which only concerns a non-ASCII authority, is
    left out.  A string stands for its UTF-8 bytes, and a percent-escape
    decodes to the byte it denotes: this is what [unquote] followed by
    [quote_plus] computes when the escaped bytes are valid UTF-8; an invalid
    sequence, which Python replaces by U+FFFD, is kept as it is here. *)

Module Urllib.
Import PyStr.

(** [_check_bracketed_host(hostname)]: [true] when it returns, [false] when it
    raises. *)
Class HostSyntax := { bracketed_host_ok : string -> bool }.

Record SplitResult := mkSplit {
  s_scheme : string; s_netloc : string; s_path : string;
  s_query : string; s_fragment : string }.

Record ParseResult := mkParse {
  scheme : string; netloc : string; path : string;
  params : string; query : string; fragment : string }.

Definition mem (s : string) (l : list string) : bool :=
  existsb (String.eqb s) l.

Definition uses_relative : list string :=
  [""; "ftp"; "http"; "gopher"; "nntp"; "imap"; "wais"; "file"; "https";
   "shttp"; "mms"; "prospero"; "rtsp"; "rtspu"; "sftp"; "svn"; "svn+ssh";
   "ws"; "wss"]%string.

Definition uses_netloc : list string :=
  [""; "ftp"; "http"; "gopher"; "nntp"; "telnet"; "imap"; "wais"; "file";
   "mms"; "https"; "shttp"; "snews"; "prospero"; "rtsp"; "rtspu"; "rsync";
   "svn"; "svn+ssh"; "sftp"; "nfs"; "git"; "git+ssh"; "ws"; "wss"]%string.

Definition uses_params : list string :=
  [""; "ftp"; "hdl"; "prospero"; "http"; "imap"; "https"; "shttp"; "rtsp";
   "rtspu"; "sip"; "sips"; "mms"; "sftp"; "tel"]%string.

(** [c in scheme_chars]: letters, digits, [+], [-], [.] *)
Definition scheme_char (c : ascii) : bool :=
  is_alpha c || is_digit c || ch_eqb c "+" || ch_eqb c "-" || ch_eqb c ".".

(** [c in _WHATWG_C0_CONTROL_OR_SPACE] *)
Definition c0_or_space (c : ascii) : bool := (code c <=? 32)%N.

(** [c in _UNSAFE_URL_BYTES_TO_REMOVE]: tab, carriage return, newline *)
Definition unsafe_byte (c : ascii) : bool :=
  (code c =? 9)%N || (code c =? 13)%N || (code c =? 10)%N.

(** [c in '/?#'] *)
Definition netloc_delim (c : ascii) : bool :=
  ch_eqb c "/" || ch_eqb c "?" || ch_eqb c "#".

(** [_splitnetloc(url, 2)] *)
Definition _splitnetloc2 (url : string) : string * string :=
  break netloc_delim (drop 2 url).

Section WithHostSyntax.
Context `{HostSyntax}.

(** [_check_bracketed_netloc(netloc)] *)
Definition _check_bracketed_netloc (netloc : string) : bool :=
  let hostname_and_port :=
    match rcut "@" netloc with Some (_, r) => r | None => netloc end in
  match split_once "[" hostname_and_port with
  | (before_bracket, Some bracketed) =>
      if truthy before_bracket then false
      else
        let '(hostname, port) :=
          match split_once "]" bracketed with
          | (h, Some p) => (h, p)
          | (h, None) => (h, EmptyString)
          end in
        if truthy port && negb (startswith ":" port) then false
        else bracketed_host_ok hostname
  | (_, None) =>
      bracketed_host_ok (fst (split_once ":" hostname_and_port))
  end.

(** The part of [urlsplit] that finds the scheme: with [i = url.find(':')],
    when [i > 0], [url[0]] is an ASCII letter and every character of
    [url[:i]] is a scheme character, the scheme is [url[:i].lower()] and the
    URL goes on at [url[i+1:]]; otherwise the default scheme stays. *)
Definition split_scheme (url scheme0 : string) : string * string :=
  match break (ch_eqb ":") url with
  | (String c0 pre', String _ rest) =>
      if is_alpha c0 && all_chars scheme_char (String c0 pre')
      then (lower (String c0 pre'), rest)
      else (scheme0, url)
  | _ => (scheme0, url)
  end.

(** The part of [urlsplit] that cuts off the fragment, then the query:
    [if '#' in url: url, fragment = url.split('#', 1)] and
    [if '?' in url: url, query = url.split('?', 1)]. *)
Definition split_fragment_query (sch nl url : string) : SplitResult :=
  let '(url, frag) :=
    match split_once "#" url with
    | (a, Some b) => (a, b)
    | (_, None) => (url, EmptyString)
    end in
  let '(url, qry) :=
    match split_once "?" url with
    | (a, Some b) => (a, b)
    | (_, None) => (url, EmptyString)
    end in
  mkSplit sch nl url qry frag.

(** The checks of [urlsplit] on the brackets of the authority: [false] when
    it raises [ValueError]. *)
Definition brackets_ok (nl : string) : bool :=
  if (contains "[" nl && negb (contains "]" nl))
     || (contains "]" nl && negb (contains "[" nl))
  then false
  else if contains "[" nl && contains "]" nl then _check_bracketed_netloc nl
  else true.

(** [urlsplit(url, scheme)], fragments allowed *)
Definition urlsplit (url scheme0 : string) : option SplitResult :=
  let url := lstrip c0_or_space url in
  let scheme0 := rstrip c0_or_space (lstrip c0_or_space scheme0) in
  let url := remove_chars unsafe_byte url in
  let scheme0 := remove_chars unsafe_byte scheme0 in
  let '(sch, url) := split_scheme url scheme0 in
  if startswith "//" url then
    let '(nl, rest) := _splitnetloc2 url in
    if brackets_ok nl then Some (split_fragment_query sch nl rest) else None
  else Some (split_fragment_query sch EmptyString url).

(** [_splitparams(url)] *)
Definition _splitparams (url : string) : string * string :=
  match rcut "/" url with
  | Some (dir, last) =>
      match break (ch_eqb ";") last with
      | (_, EmptyString) => (url, EmptyString)
      | (a, String _ b) => (dir +:+ a, b)
      end
  | None =>
      match break (ch_eqb ";") url with
      | (_, EmptyString) => (drop_last url, url)
      | (a, String _ b) => (a, b)
      end
  end.

(** [urlparse(url, scheme)] *)
Definition urlparse_with (url scheme0 : string) : option ParseResult :=
  match urlsplit url scheme0 with
  | None => None
  | Some (mkSplit sch nl url qry frag) =>
      let '(url, prm) :=
        if mem sch uses_params && contains ";" url then _splitparams url
        else (url, EmptyString) in
      Some (mkParse sch nl url prm qry frag)
  end.

(** [urlparse(url)] *)
Definition urlparse (url : string) : option ParseResult :=
  urlparse_with url EmptyString.

End WithHostSyntax.

(** [urlunsplit((scheme, netloc, url, query, fragment))] *)
Definition urlunsplit (c : SplitResult) : string :=
  let url := s_path c in
  let url :=
    if truthy (s_netloc c)
       || (truthy (s_scheme c) && mem (s_scheme c) uses_netloc
           && negb (startswith "//" url))
    then
      let url :=
        if truthy url && negb (startswith "/" url) then "/" +:+ url else url in
      "//" +:+ s_netloc c +:+ url
    else url in
  let url := if truthy (s_scheme c) then s_scheme c +:+ ":" +:+ url else url in
  let url := if truthy (s_query c) then url +:+ "?" +:+ s_query c else url in
  let url :=
    if truthy (s_fragment c) then url +:+ "#" +:+ s_fragment c else url in
  url.

(** [urlunparse((scheme, netloc, url, params, query, fragment))] *)
Definition urlunparse (c : ParseResult) : string :=
  let url := if truthy (params c) then path c +:+ ";" +:+ params c else path c in
  urlunsplit (mkSplit (scheme c) (netloc c) url (query c) (fragment c)).


(** *** Percent-encoding *)

(** [c in _hexdig] *)
Definition is_hexdig (c : ascii) : bool :=
  is_digit c || in_range 65 70 c || in_range 97 102 c.

Definition hex_value (c : ascii) : N :=
  if is_digit c then code c - 48
  else if in_range 65 70 c then code c - 55
  else code c - 87.

(** [_hextobyte[a + b]] *)
Definition hextobyte (a b : ascii) : ascii :=
  ascii_of_N (16 * hex_value a + hex_value b).

(** [unquote_to_bytes]: every [%XY] with two hexadecimal digits becomes the
    byte it denotes, any other [%] stays. *)
Fixpoint unquote (s : string) : string :=
  match s with
  | EmptyString => EmptyString
  | String c s' =>
      if ch_eqb c "%" then
        match s' with
        | String a (String b rest) =>
            if is_hexdig a && is_hexdig b
            then String (hextobyte a b) (unquote rest)
            else String c (unquote s')
        | _ => String c (unquote s')
        end
      else String c (unquote s')
  end.

(** [unquote_plus(s)] *)
Definition unquote_plus (s : string) : string :=
  unquote (replace_char "+" " " s).

(** [c in _ALWAYS_SAFE] *)
Definition always_safe (c : ascii) : bool :=
  is_alpha c || is_digit c
  || ch_eqb c "_" || ch_eqb c "." || ch_eqb c "-" || ch_eqb c "~".

Definition hex_digit (n : N) : ascii :=
  if (n <? 10)%N then ascii_of_N (48 + n) else ascii_of_N (55 + n).

(** ['%{:02X}'.format(c)] *)
Definition percent (c : ascii) : string :=
  String "%" (String (hex_digit (code c / 16))
             (String (hex_digit (code c mod 16)) EmptyString)).

(** [quote_plus(s)] with no extra safe characters *)
Fixpoint quote_plus (s : string) : string :=
  match s with
  | EmptyString => EmptyString
  | String c s' =>
      if ch_eqb c " " then String "+" (quote_plus s')
      else if always_safe c then String c (quote_plus s')
      else percent c +:+ quote_plus s'
  end.

(** *** Query strings *)

(** [parse_qsl(qs, keep_blank_values=True)] *)
Definition parse_qsl (qs : string) : list (string * string) :=
  let query_args := if truthy qs then split "&" qs else [] in
  flat_map
    (fun name_value =>
       if negb (truthy name_value) then []
       else
         let '(n, v) :=
           match split_once "=" name_value with
           | (n, Some v) => (n, v)
           | (n, None) => (n, EmptyString)
           end in
         [(unquote_plus n, unquote_plus v)])
    query_args.

(** A [dict] from names to lists of values, in insertion order. *)
Definition qdict := list (string * list string).

(** [if name in d: d[name].append(value) else: d[name] = [value]] *)
Fixpoint dict_add (name value : string) (d : qdict) : qdict :=
  match d with
  | [] => [(name, [value])]
  | (k, vs) :: d' =>
      if String.eqb k name then (k, vs ++ [value]) :: d'
      else (k, vs) :: dict_add name value d'
  end.

(** [parse_qs(qs, keep_blank_values=True)] *)
Definition parse_qs (qs : string) : qdict :=
  fold_left (fun d nv => dict_add (fst nv) (snd nv) d) (parse_qsl qs) [].

(** [sorted(d.items())]: the keys of a dict are distinct, so the comparison
    of two items is decided by their keys. *)
Fixpoint insert_item (x : string * list string) (l : qdict) : qdict :=
  match l with
  | [] => [x]
  | y :: l' =>
      if String.leb (fst x) (fst y) then x :: l else y :: insert_item x l'
  end.

Definition sorted_items (d : qdict) : qdict := foldr insert_item [] d.

(** [urlencode(items, doseq=True)] *)
Definition urlencode (items : qdict) : string :=
  join "&"
    (flat_map
       (fun kv =>
          map (fun elt => quote_plus (fst kv) +:+ "=" +:+ quote_plus elt)
              (snd kv))
       items).

(** *** [urljoin] *)

Section Join.
Context `{HostSyntax}.

(** The loop of [urljoin] over the path segments: [..] pops, [.] is skipped. *)
Definition resolve_segments (segments : list string) : list string :=
  fold_left
    (fun resolved seg =>
       if String.eqb seg ".." then removelast resolved
       else if String.eqb seg "." then resolved
       else resolved ++ [seg])
    segments [].

(** [segments[1:-1] = filter(None, segments[1:-1])] *)
Definition filter_middle (segments : list string) : list string :=
  match segments with
  | [] => []
  | [a] => [a]
  | a :: rest =>
      a :: List.filter truthy (removelast rest) ++ [List.last rest EmptyString]
  end.

(** [urljoin(base, url)] *)
Definition urljoin (base url : string) : option string :=
  if negb (truthy base) then Some url
  else if negb (truthy url) then Some base
  else
    match urlparse_with base EmptyString with
    | None => None
    | Some b =>
        match urlparse_with url (scheme b) with
        | None => None
        | Some u =>
            if negb (String.eqb (scheme u) (scheme b))
               || negb (mem (scheme u) uses_relative)
            then Some url
            else if mem (scheme u) uses_netloc && truthy (netloc u)
            then Some (urlunparse u)
            else
              let nl := if mem (scheme u) uses_netloc then netloc b
                        else netloc u in
              if negb (truthy (path u)) && negb (truthy (params u)) then
                Some (urlunparse
                        (mkParse (scheme u) nl (path b) (params b)
                           (if truthy (query u) then query u else query b)
                           (fragment u)))
              else
                let base_parts := split "/" (path b) in
                let base_parts :=
                  if String.eqb (List.last base_parts EmptyString) EmptyString
                  then base_parts else removelast base_parts in
                let segments :=
                  if startswith "/" (path u) then split "/" (path u)
                  else filter_middle (base_parts ++ split "/" (path u)) in
                let resolved_path := resolve_segments segments in
                let resolved_path :=
                  if mem (List.last segments EmptyString) ["."; ".."]%string
                  then resolved_path ++ [EmptyString] else resolved_path in
                let joined := join "/" resolved_path in
                Some (urlunparse
                        (mkParse (scheme u) nl
                           (if truthy joined then joined else "/")
                           (params u) (query u) (fragment u)))
        end
    end.

End Join.

End Urllib.

(** ** [hashlib.md5]

    The digest of RFC 1321 on a byte string, as 32 lowercase hexadecimal
    digits: [hashlib.md5(data).hexdigest()].  Words are 32-bit, kept in [N]
    with the wrap-around written out. *)

Module Md5.

Local Open Scope N_scope.

Definition mask32 : N := 4294967295.

Definition add32 (a b : N) : N := (a + b) mod 4294967296.

Definition not32 (a : N) : N := N.lxor a mask32.

Definition rotl32 (x n : N) : N :=
  N.lor (N.land (N.shiftl x n) mask32) (N.shiftr x (32 - n)).

(** Per-round shift amounts. *)
Definition shifts : list N :=
  [7; 12; 17; 22; 7; 12; 17; 22; 7; 12; 17; 22; 7; 12; 17; 22;
   5; 9; 14; 20; 5; 9; 14; 20; 5; 9; 14; 20; 5; 9; 14; 20;
   4; 11; 16; 23; 4; 11; 16; 23; 4; 11; 16; 23; 4; 11; 16; 23;
   6; 10; 15; 21; 6; 10; 15; 21; 6; 10; 15; 21; 6; 10; 15; 21].

(** [floor(2^32 * abs(sin(i + 1)))] for [i] from 0 to 63. *)
Definition sines : list N :=
  [3614090360; 3905402710; 606105819; 3250441966; 4118548399; 1200080426;
   2821735955; 4249261313; 1770035416; 2336552879; 4294925233; 2304563134;
   1804603682; 4254626195; 2792965006; 1236535329; 4129170786; 3225465664;
   643717713; 3921069994; 3593408605; 38016083; 3634488961; 3889429448;
   568446438; 3275163606; 4107603335; 1163531501; 2850285829; 4243563512;
   1735328473; 2368359562; 4294588738; 2272392833; 1839030562; 4259657740;
   2763975236; 1272893353; 4139469664; 3200236656; 681279174; 3936430074;
   3572445317; 76029189; 3654602809; 3873151461; 530742520; 3299628645;
   4096336452; 1126891415; 2878612391; 4237533241; 1700485571; 2399980690;
   4293915773; 2240044497; 1873313359; 4264355552; 2734768916; 1309151649;
   4149444226; 3174756917; 718787259; 3951481745].

Definition nth_word (l : list N) (i : N) : N := nth (N.to_nat i) l 0.

(** Little-endian value of up to [n] bytes at the head of [bs]. *)
Fixpoint le_word (n : nat) (bs : list N) : N :=
  match n, bs with
  | S n', b :: bs' => b + 256 * le_word n' bs'
  | _, _ => 0
  end.

(** The sixteen 32-bit words of a 64-byte block. *)
Fixpoint block_words (n : nat) (bs : list N) : list N :=
  match n with
  | O => []
  | S n' => le_word 4 bs :: block_words n' (skipn 4 bs)
  end.

Record regs := mkRegs { ra : N; rb : N; rc : N; rd : N }.

Definition round (m : list N) (r : regs) (i : N) : regs :=
  let '(mkRegs a b c d) := r in
  let '(f, g) :=
    if i <? 16 then (N.lor (N.land b c) (N.land (not32 b) d), i)
    else if i <? 32 then
      (N.lor (N.land d b) (N.land (not32 d) c), (5 * i + 1) mod 16)
    else if i <? 48 then (N.lxor (N.lxor b c) d, (3 * i + 5) mod 16)
    else (N.lxor c (N.lor b (not32 d)), (7 * i) mod 16) in
  let f := add32 (add32 (add32 f a) (nth_word sines i)) (nth_word m g) in
  mkRegs d (add32 b (rotl32 f (nth_word shifts i))) b c.

Definition process_block (r : regs) (block : list N) : regs :=
  let m := block_words 16 block in
  let r' := fold_left (round m) (map N.of_nat (seq 0 64)) r in
  mkRegs (add32 (ra r) (ra r')) (add32 (rb r) (rb r'))
         (add32 (rc r) (rc r')) (add32 (rd r) (rd r')).

Fixpoint process (blocks : nat) (r : regs) (bs : list N) : regs :=
  match blocks with
  | O => r
  | S n => process n (process_block r (firstn 64 bs)) (skipn 64 bs)
  end.

(** [n] bytes of [x], least significant first. *)
Fixpoint le_bytes (n : nat) (x : N) : list N :=
  match n with
  | O => []
  | S n' => x mod 256 :: le_bytes n' (x / 256)
  end.

(** The message followed by [0x80], zeros up to 56 modulo 64, and the bit
    length on eight bytes. *)
Definition pad (bs : list N) : list N :=
  let len := N.of_nat (List.length bs) in
  bs ++ [128] ++ repeat 0 (N.to_nat ((119 - len mod 64) mod 64))
     ++ le_bytes 8 (8 * len).

Definition hexdig (n : N) : ascii :=
  if n <? 10 then ascii_of_N (48 + n) else ascii_of_N (87 + n).

Definition hex_byte (b : N) : string :=
  String (hexdig (b / 16)) (String (hexdig (b mod 16)) EmptyString).

Definition md5_hexdigest (data : string) : string :=
  let bs := pad (map N_of_ascii (list_ascii_of_string data)) in
  let r := process (List.length bs / 64)
             (mkRegs 1732584193 4023233417 2562383102 271733878) bs in
  String.concat EmptyString
    (map hex_byte
       (le_bytes 4 (ra r) ++ le_bytes 4 (rb r)
        ++ le_bytes 4 (rc r) ++ le_bytes 4 (rd r))).

End Md5.

(** ** [class URLManager] *)

Module Frontier.
Import PyStr Urllib.

(** A queue item, the tuple [(priority, depth, url, parent_url)]. *)
Record entry := mkEntry {
  e_priority : Z; e_depth : Z; e_url : string; e_parent : option string }.

(** The [stats] dict. *)
Record Stats := mkStats {
  total_queued : Z; total_visited : Z; total_failed : Z;
  total_skipped : Z; duplicate_count : Z }.

Record URLManager := mkManager {
  base_domain : string;
  max_depth : Z;
  max_pages : Z;
  visited_urls : gset string;
  url_hashes : gset string;
  failed_urls : gmap string string;
  url_queue : list entry;
  stats : Stats }.

#[export] Instance entry_eq_dec : EqDecision entry.
Proof. solve_decision. Defined.

(** Assignments to one attribute of [self]. *)
Definition set_stats (st : Stats) (m : URLManager) : URLManager :=
  mkManager (base_domain m) (max_depth m) (max_pages m) (visited_urls m)
    (url_hashes m) (failed_urls m) (url_queue m) st.

Definition set_url_queue (q : list entry) (m : URLManager) : URLManager :=
  mkManager (base_domain m) (max_depth m) (max_pages m) (visited_urls m)
    (url_hashes m) (failed_urls m) q (stats m).

Definition set_url_hashes (h : gset string) (m : URLManager) : URLManager :=
  mkManager (base_domain m) (max_depth m) (max_pages m) (visited_urls m)
    h (failed_urls m) (url_queue m) (stats m).

Definition set_visited_urls (v : gset string) (m : URLManager) : URLManager :=
  mkManager (base_domain m) (max_depth m) (max_pages m) v
    (url_hashes m) (failed_urls m) (url_queue m) (stats m).

Definition set_failed_urls (f : gmap string string) (m : URLManager)
  : URLManager :=
  mkManager (base_domain m) (max_depth m) (max_pages m) (visited_urls m)
    (url_hashes m) f (url_queue m) (stats m).

(** [self.stats[key] += 1], one function per key. *)
Definition incr_queued (s : Stats) : Stats :=
  mkStats (total_queued s + 1) (total_visited s) (total_failed s)
    (total_skipped s) (duplicate_count s).
Definition incr_visited (s : Stats) : Stats :=
  mkStats (total_queued s) (total_visited s + 1) (total_failed s)
    (total_skipped s) (duplicate_count s).
Definition incr_failed (s : Stats) : Stats :=
  mkStats (total_queued s) (total_visited s) (total_failed s + 1)
    (total_skipped s) (duplicate_count s).
Definition incr_skipped (s : Stats) : Stats :=
  mkStats (total_queued s) (total_visited s) (total_failed s)
    (total_skipped s + 1) (duplicate_count s).
Definition incr_duplicate (s : Stats) : Stats :=
  mkStats (total_queued s) (total_visited s) (total_failed s)
    (total_skipped s) (duplicate_count s + 1).

Definition zero_stats : Stats := mkStats 0 0 0 0 0.

(** [_url_hash]: [hashlib.md5(url.encode('utf-8')).hexdigest()] *)
Definition _url_hash (url : string) : string := Md5.md5_hexdigest url.

(** The part of [normalize_url] that removes a default port; when [netloc]
    ends in [":80"], [strip_suffix ":80" netloc] is [Some (netloc[:-3])]. *)
Definition strip_default_port (scheme netloc : string) : string :=
  match (if String.eqb scheme "http" then strip_suffix ":80" netloc
         else None) with
  | Some r => r
  | None =>
      match (if String.eqb scheme "https" then strip_suffix ":443" netloc
             else None) with
      | Some r => r
      | None => netloc
      end
  end.

(** The part of [normalize_url] that sorts the query parameters. *)
Definition sort_query (query : string) : string :=
  if truthy query then urlencode (sorted_items (parse_qs query))
  else EmptyString.

(** The part of [normalize_url] that cleans the path:
    [if path != '/' and path.endswith('/'): path = path.rstrip('/')] *)
Definition clean_path (path : string) : string :=
  if negb (String.eqb path "/") && endswith "/" path
  then rstrip (ch_eqb "/") path else path.

Section Enqueue.
Context `{HostSyntax} {case_mapping : CaseMapping}.

(** [_normalize_domain]; an exception of [urlparse] is [None]. *)
Definition _normalize_domain (domain : string) : option string :=
  parsed ← urlparse (if has_substring "://" domain then domain
                      else "http://" +:+ domain);
  Some (lower (netloc parsed)).

(** [__init__] *)
Definition init (base : string) (max_depth max_pages : Z)
  : option URLManager :=
  d ← _normalize_domain base;
  Some (mkManager d max_depth max_pages ∅ ∅ ∅ [] zero_stats).

(** The part of [normalize_url] that handles relative URLs:
    [if parent_url and not url.startswith(('http://', 'https://', '//')):
    url = urljoin(parent_url, url)]; [None] when [urljoin] raises. *)
Definition resolve_relative (url : string) (parent_url : option string)
  : option string :=
  match parent_url with
  | Some p =>
      if truthy p
         && negb (startswith "http://" url || startswith "https://" url
                  || startswith "//" url)
      then urljoin p url else Some url
  | None => Some url
  end.

(** [normalize_url]: [None] is the Python [None], returned for a scheme other
    than http and https and from the [except] clause. *)
Definition normalize_url (url : string) (parent_url : option string)
  : option string :=
  url ← resolve_relative url parent_url;
  parsed ← urlparse url;
  if negb (mem (scheme parsed) ["http"; "https"]%string) then None
  else
    let scheme := lower (scheme parsed) in
    let netloc := strip_default_port scheme (lower (netloc parsed)) in
    let sorted_query := sort_query (query parsed) in
    let fragment := EmptyString in
    let path := clean_path (path parsed) in
    Some (urlunparse
            (mkParse scheme netloc path (params parsed) sorted_query fragment)).

(** [is_internal_url].  The text put in lower case is the authority of the
    URL, which is ASCII text in this model, as in [normalize_url] and
    [_normalize_domain]. *)
Definition is_internal_url (m : URLManager) (url : string) : bool :=
  match urlparse url with
  | Some parsed =>
      let url_domain := lower (netloc parsed) in
      String.eqb url_domain (base_domain m)
      || endswith ("." +:+ base_domain m) url_domain
  | None => false
  end.

(** [should_exclude_url], on a list of string patterns *)
Definition should_exclude_url (url : string) (exclusion_patterns : list string)
  : bool :=
  let url_lower := str_lower url in
  existsb (fun pattern => has_substring (str_lower pattern) url_lower)
    exclusion_patterns.

(** The [priority_patterns] dict: the lists under ['high'], ['medium'] and
    ['low'], empty when the key is missing. *)
Record PriorityPatterns := mkPatterns {
  high : list string; medium : list string; low : list string }.

(** [get_url_priority] *)
Definition get_url_priority (url : string) (pp : PriorityPatterns) : Z :=
  let url_lower := str_lower url in
  let hit :=
    existsb (fun pattern => has_substring (str_lower pattern) url_lower) in
  if hit (high pp) then 0
  else if hit (medium pp) then 1
  else if hit (low pp) then 2
  else 3.

(** [add_url]: the new manager and the returned flag. *)
Definition add_url (m : URLManager) (url : string) (depth : Z)
    (parent_url : option string) (priority : option Z) : URLManager * bool :=
  match normalize_url url parent_url with
  | Some normalized_url =>
      if negb (truthy normalized_url)
      then (set_stats (incr_skipped (stats m)) m, false)
      else
        let url_hash := _url_hash normalized_url in
        if decide (url_hash ∈ url_hashes m)
        then (set_stats (incr_duplicate (stats m)) m, false)
        else if depth >? max_depth m
        then (set_stats (incr_skipped (stats m)) m, false)
        else if Z.of_nat (size (visited_urls m)) >=? max_pages m
        then (set_stats (incr_skipped (stats m)) m, false)
        else
          let priority := match priority with Some p => p | None => 3 end in
          let m := set_url_queue
                     (url_queue m
                      ++ [mkEntry priority depth normalized_url parent_url]) m in
          let m := set_url_hashes ({[url_hash]} ∪ url_hashes m) m in
          let m := set_stats (incr_queued (stats m)) m in
          (m, true)
  | None => (set_stats (incr_skipped (stats m)) m, false)
  end.

(** Which branch of [add_url] a call takes, in the words of the frontier
    contract: the conditions are those of [add_url], in its order. *)
Inductive outcome :=
  | Accepted | Invalid | Duplicate | DepthExceeded | BudgetExceeded.

#[export] Instance outcome_eq_dec : EqDecision outcome.
Proof. solve_decision. Defined.

Definition classify (m : URLManager) (url : string) (depth : Z)
    (parent_url : option string) : outcome :=
  match normalize_url url parent_url with
  | Some normalized_url =>
      if negb (truthy normalized_url) then Invalid
      else if decide (_url_hash normalized_url ∈ url_hashes m) then Duplicate
      else if depth >? max_depth m then DepthExceeded
      else if Z.of_nat (size (visited_urls m)) >=? max_pages m
      then BudgetExceeded
      else Accepted
  | None => Invalid
  end.

End Enqueue.

(** The number of pending entries for a canonical URL. *)
Definition pending_count (url : string) (m : URLManager) : nat :=
  List.length (List.filter (fun e => String.eqb (e_url e) url) (url_queue m)).

(** Every pending URL has its hash in the dedup index. *)
Definition queue_indexed (m : URLManager) : Prop :=
  Forall (fun e => _url_hash (e_url e) ∈ url_hashes m) (url_queue m).

(** The sort key [lambda x: (x[0], x[1])] and the order of two keys. *)
Definition key (e : entry) : Z * Z := (e_priority e, e_depth e).

Definition key_leb (a b : Z * Z) : bool :=
  (fst a <? fst b) || ((fst a =? fst b) && (snd a <=? snd b)).

(** [sorted(queue, key=...)]: the sort of Python is stable, and a stable sort
    has one result, the one insertion from the right computes. *)
Fixpoint insert_entry (x : entry) (l : list entry) : list entry :=
  match l with
  | [] => [x]
  | y :: l' =>
      if key_leb (key x) (key y) then x :: l else y :: insert_entry x l'
  end.

Definition sorted (q : list entry) : list entry := foldr insert_entry [] q.

(** [get_next_url]: the new manager and the returned
    [(depth, url, parent_url)], or [None]. *)
Definition get_next_url (m : URLManager)
  : URLManager * option (Z * string * option string) :=
  match url_queue m with
  | [] => (m, None)
  | _ =>
      match sorted (url_queue m) with
      | e :: rest =>
          (set_url_queue rest m, Some (e_depth e, e_url e, e_parent e))
      | [] => (set_url_queue [] m, None)
      end
  end.

(** The pending entries with sort key [k], in queue order. *)
Definition tier (k : Z * Z) (q : list entry) : list entry :=
  List.filter (fun e => bool_decide (key e = k)) q.

(** The results of [n] calls of [get_next_url] in a row. *)
Fixpoint dequeue_n (n : nat) (m : URLManager)
  : list (option (Z * string * option string)) :=
  match n with
  | O => []
  | S n' => let '(m', r) := get_next_url m in r :: dequeue_n n' m'
  end.

Section Marking.
Context `{HostSyntax}.

(** [mark_visited] *)
Definition mark_visited (m : URLManager) (url : string) : URLManager :=
  match normalize_url url None with
  | Some normalized_url =>
      if truthy normalized_url then
        set_stats (incr_visited (stats m))
          (set_visited_urls ({[normalized_url]} ∪ visited_urls m) m)
      else m
  | None => m
  end.

(** [mark_failed] *)
Definition mark_failed (m : URLManager) (url error : string) : URLManager :=
  match normalize_url url None with
  | Some normalized_url =>
      if truthy normalized_url then
        set_stats (incr_failed (stats m))
          (set_failed_urls (<[normalized_url := error]> (failed_urls m)) m)
      else m
  | None => m
  end.

(** [is_visited] *)
Definition is_visited (m : URLManager) (url : string) : bool :=
  match normalize_url url None with
  | Some normalized_url =>
      if truthy normalized_url
      then bool_decide (normalized_url ∈ visited_urls m) else false
  | None => false
  end.

End Marking.

(** [queue_size] *)
Definition queue_size (m : URLManager) : Z := Z.of_nat (List.length (url_queue m)).

(** The dict [get_stats] returns. *)
Record FullStats := mkFullStats {
  counters : Stats; fs_queue_size : Z; visited_count : Z; failed_count : Z }.

Definition get_stats (m : URLManager) : FullStats :=
  mkFullStats (stats m) (queue_size m)
    (Z.of_nat (size (visited_urls m))) (Z.of_nat (size (failed_urls m))).

(** The dict [save_state] returns and [load_state] reads with [state.get]:
    each key the code knows is present with a value or absent, and any other
    key is kept, with its text, in [other_keys]. *)
Record Snapshot := mkSnapshot {
  snap_base_domain : option string;
  snap_max_depth : option Z;
  snap_max_pages : option Z;
  snap_visited_urls : option (list string);
  snap_url_hashes : option (list string);
  snap_failed_urls : option (gmap string string);
  snap_url_queue : option (list entry);
  snap_stats : option Stats;
  other_keys : gmap string string }.

(** [save_state] *)
Definition save_state (m : URLManager) : Snapshot :=
  mkSnapshot (Some (base_domain m)) (Some (max_depth m)) (Some (max_pages m))
    (Some (elements (visited_urls m))) (Some (elements (url_hashes m)))
    (Some (failed_urls m)) (Some (url_queue m)) (Some (stats m)) ∅.

(** [load_state] *)
Definition load_state (m : URLManager) (state : Snapshot) : URLManager :=
  mkManager
    (default (base_domain m) (snap_base_domain state))
    (default (max_depth m) (snap_max_depth state))
    (default (max_pages m) (snap_max_pages state))
    (list_to_set (default [] (snap_visited_urls state)))
    (list_to_set (default [] (snap_url_hashes state)))
    (default ∅ (snap_failed_urls state))
    (default [] (snap_url_queue state))
    (default (stats m) (snap_stats state)).

End Frontier.

(** ** The crawl loop of [class NGOScraper]

    The collaborators that are not part of the frontier (HTTP session, robots
    handler, content extractor, storage) appear through what they return. *)

Module Scraper.
Import PyStr Urllib Frontier.

(** The configuration keys the loop reads. *)
Record Config := mkConfig {
  crawl_max_depth : Z;             (* crawl.max_depth *)
  max_pages_per_site : Z;          (* crawl.max_pages_per_site *)
  extract_links : bool;            (* extraction.extract_links *)
  follow_external_links : bool;    (* crawl.follow_external_links *)
  url_exclusions : list string;
  priority_patterns : PriorityPatterns;
  min_content_length : Z;          (* quality.min_content_length *)
  save_progress : bool;            (* session.save_progress *)
  checkpoint_interval : Z }.       (* session.checkpoint_interval *)

(** A link as [extract_links] returns it: [link['url']] and whether
    [link['type'] == 'internal']. *)
Record Link := mkLink { link_url : string; link_internal : bool }.

(** What a fetched page leads to: an HTML page with the length of its decoded
    text, the links and the document URLs the extractor finds in it; a
    document; or another content type. *)
Inductive content :=
  | Html (html_len : Z) (links : list Link) (documents : list string)
  | Document
  | Unsupported.

(** The outcome of [_fetch_url(url)]: [None] after a robots.txt denial
    ([Blocked]), [None] after [mark_failed(url, error)] ([Failed]), or the
    fetched content. *)
Inductive fetched :=
  | Blocked
  | Failed (error : string)
  | Fetched (c : content).

(** The attributes of the scraper the loop changes; [progress_file] is the
    [url_manager_state] of the checkpoint on disk, if there is one. *)
Record Scraper := mkScraper {
  url_manager : URLManager;
  requests_since_checkpoint : Z;
  progress_file : option Snapshot }.

Section Crawl.
Context `{HostSyntax} {case_mapping : CaseMapping}.
Variable cfg : Config.

(** The loop of [_process_html_page] over the links. *)
Definition enqueue_links (m : URLManager) (url : string) (depth : Z)
    (links : list Link) : URLManager :=
  let internal_links :=
    if negb (follow_external_links cfg) then List.filter link_internal links
    else links in
  fold_left
    (fun m link =>
       if should_exclude_url (link_url link) (url_exclusions cfg) then m
       else
         let priority :=
           get_url_priority (link_url link) (priority_patterns cfg) in
         fst (add_url m (link_url link) (depth + 1) (Some url) (Some priority)))
    internal_links m.

(** The loop of [_process_html_page] over the document links. *)
Definition enqueue_documents (m : URLManager) (url : string) (depth : Z)
    (documents : list string) : URLManager :=
  fold_left (fun m doc => fst (add_url m doc depth (Some url) (Some 0)))
    documents m.

(** [_process_html_page], as far as the URL manager is concerned.  An
    exception of a collaborator ends the function early, which leaves the
    manager as a page with fewer links or documents does. *)
Definition _process_html_page (m : URLManager) (url : string) (depth : Z)
    (html_len : Z) (links : list Link) (documents : list string)
  : URLManager :=
  if html_len <? min_content_length cfg then m
  else
    let m := if extract_links cfg then enqueue_links m url depth links else m in
    enqueue_documents m url depth documents.

(** [_save_checkpoint], as the data it stores; the writing of the file is
    [Checkpoint.save_ops] below. *)
Definition _save_checkpoint (s : Scraper) : Scraper :=
  mkScraper (url_manager s) (requests_since_checkpoint s)
    (Some (save_state (url_manager s))).

(** [_load_checkpoint], for a checkpoint that can be read. *)
Definition _load_checkpoint (s : Scraper) : Scraper :=
  match progress_file s with
  | Some state =>
      mkScraper (load_state (url_manager s) state)
        (requests_since_checkpoint s) (progress_file s)
  | None => s
  end.

(** The start of [scrape_ngo], up to the loop; [None] when
    [_initialize_for_ngo] raises. *)
Definition start (s : Scraper) (seed_urls : list string)
    (max_depth max_pages : Z) (resume : bool) : option Scraper :=
  base_url ← head seed_urls;
  parsed ← urlparse base_url;
  m ← init (netloc parsed) max_depth max_pages;
  let s := mkScraper m (requests_since_checkpoint s) (progress_file s) in
  let s := if resume && save_progress cfg then _load_checkpoint s else s in
  let m := url_manager s in
  let m :=
    if queue_size m =? 0 then
      fold_left (fun m seed => fst (add_url m seed 0 None (Some 0))) seed_urls m
    else m in
  Some (mkScraper m (requests_since_checkpoint s) (progress_file s)).

(** One turn of the [while True] loop: [inl] when the loop goes on, [inr]
    after a [break]; with the tuple [get_next_url] returned, if any. *)
Definition loop_body (max_pages : Z) (answer : fetched) (s : Scraper)
  : (Scraper + Scraper) * option (Z * string * option string) :=
  let '(m, next_url_data) := get_next_url (url_manager s) in
  let s := mkScraper m (requests_since_checkpoint s) (progress_file s) in
  match next_url_data with
  | None => (inr s, None)
  | Some (depth, url, parent_url) =>
      if Z.of_nat (size (visited_urls m)) >=? max_pages
      then (inr s, next_url_data)
      else if is_visited m url then (inl s, next_url_data)
      else
        match answer with
        | Fetched c =>
            let m := mark_visited m url in
            let m :=
              match c with
              | Html html_len links documents =>
                  _process_html_page m url depth html_len links documents
              | Document | Unsupported => m
              end in
            let s := mkScraper m (requests_since_checkpoint s + 1)
                       (progress_file s) in
            let s :=
              if save_progress cfg
                 && (requests_since_checkpoint s >=? checkpoint_interval cfg)
              then mkScraper m 0 (Some (save_state m))
              else s in
            (inl s, next_url_data)
        | Failed error =>
            let m := mark_visited (mark_failed m url error) url in
            (inl (mkScraper m (requests_since_checkpoint s) (progress_file s)),
             next_url_data)
        | Blocked =>
            let m := mark_visited m url in
            (inl (mkScraper m (requests_since_checkpoint s) (progress_file s)),
             next_url_data)
        end
  end.

(** The loop against the answers of the collaborators, one per turn: the
    state reached when the answers run out or the loop breaks, and the tuples
    [get_next_url] returned on the way, in order. *)
Fixpoint loop (max_pages : Z) (answers : list fetched) (s : Scraper)
  : Scraper * list (Z * string * option string) :=
  match answers with
  | [] => (s, [])
  | answer :: answers' =>
      match loop_body max_pages answer s with
      | (inl s', d) =>
          let '(s'', ds) := loop max_pages answers' s' in
          (s'', from_option (fun x => [x]) [] d ++ ds)
      | (inr s', d) => (s', from_option (fun x => [x]) [] d)
      end
  end.

(** [x or default] for an optional integer: [None] and [0] are falsy. *)
Definition int_or (x : option Z) (default : Z) : Z :=
  match x with
  | Some v => if v =? 0 then default else v
  | None => default
  end.

(** [scrape_ngo]: the limits ([max_depth or config], [max_pages or config]),
    the start, then the loop. *)
Definition scrape_ngo (s : Scraper) (seed_urls : list string)
    (max_depth max_pages : option Z) (resume : bool) (answers : list fetched)
  : option (Scraper * list (Z * string * option string)) :=
  let max_depth := int_or max_depth (crawl_max_depth cfg) in
  let max_pages := int_or max_pages (max_pages_per_site cfg) in
  s0 ← start s seed_urls max_depth max_pages resume;
  Some (loop max_pages answers s0).

End Crawl.

End Scraper.

(** ** Writing the checkpoint file

    [_save_checkpoint] opens the progress file with mode ['w'] and lets
    [json.dump] write the encoded data into it, chunk by chunk; the end of
    the [with] block closes the file.  The file object buffers what is
    written to it. *)

Module Checkpoint.
Import PyStr.

(** The files: the text of every file on disk, and the file that is open
    for writing, if any, with the text still in its buffer. *)
Record fsys := mkFsys {
  disk : gmap string string;
  open_file : option (string * string) }.

(** What a program, and the buffer of the file it writes, do to the files. *)
Inductive file_op :=
  | OpenW (path : string)        (* open(path, 'w'): created or emptied at once *)
  | WriteText (chunk : string)   (* f.write(chunk): the chunk joins the buffer *)
  | Flush (n : nat)              (* the first n characters of the buffer reach the disk *)
  | Close                        (* f.close(): the rest of the buffer reaches the disk *)
  | Replace (src dst : string).  (* os.replace(src, dst) *)

(** [s[:n]] *)
Fixpoint front (n : nat) (s : string) : string :=
  match n, s with
  | S n', String c s' => String c (front n' s')
  | _, _ => EmptyString
  end.

Definition on_disk (fs : fsys) (path : string) : string :=
  default EmptyString (disk fs !! path).

Definition apply_op (fs : fsys) (op : file_op) : fsys :=
  match op with
  | OpenW path =>
      mkFsys (<[path := EmptyString]> (disk fs)) (Some (path, EmptyString))
  | WriteText chunk =>
      match open_file fs with
      | Some (path, buffer) => mkFsys (disk fs) (Some (path, buffer +:+ chunk))
      | None => fs
      end
  | Flush n =>
      match open_file fs with
      | Some (path, buffer) =>
          mkFsys (<[path := on_disk fs path +:+ front n buffer]> (disk fs))
            (Some (path, drop n buffer))
      | None => fs
      end
  | Close =>
      match open_file fs with
      | Some (path, buffer) =>
          mkFsys (<[path := on_disk fs path +:+ buffer]> (disk fs)) None
      | None => fs
      end
  | Replace src dst =>
      match disk fs !! src with
      | Some t => mkFsys (<[dst := t]> (delete src (disk fs))) (open_file fs)
      | None => fs
      end
  end.

(** The file operations of [_save_checkpoint], for the chunks [json.dump]
    produces from the checkpoint data:
    [with open(self.progress_file, 'w') as f: json.dump(checkpoint_data, f)].
    The [mkdir] before it makes directories, which are not files here. *)
Definition save_ops (progress_file : string) (chunks : list string)
  : list file_op :=
  OpenW progress_file :: map WriteText chunks ++ [Close].

(** The save the specification asks for, in its words: write to a temporary
    path, then rename it over the checkpoint.  The code has no such save; this
    one is here to be compared with [save_ops]. *)
Definition save_ops_by_rename (progress_file temporary : string)
    (chunks : list string) : list file_op :=
  save_ops temporary chunks ++ [Replace temporary progress_file].

Definition is_flush (op : file_op) : bool :=
  match op with Flush _ => true | _ => false end.

(** The operations of the program in a trace: all but the flushes, which
    the buffer makes when it sees fit. *)
Definition program_of (trace : list file_op) : list file_op :=
  List.filter (fun op => negb (is_flush op)) trace.

(** A trace of a program that ran to some point and stopped there: its
    operations are the first ones of the program, with flushes anywhere.  (A
    save stopped by an exception closes the file, which leaves on disk what a
    flush of the whole buffer leaves; a process that is killed leaves what
    was flushed.) *)
Definition stopped_run (ops trace : list file_op) : Prop :=
  ∃ later, ops = program_of trace ++ later.

Definition run (trace : list file_op) (fs : fsys) : fsys :=
  fold_left apply_op trace fs.

(** The text [json.dump] writes in all. *)
Definition text (chunks : list string) : string :=
  foldr String.append EmptyString chunks.

End Checkpoint.

(** * Properties *)

(** ** Strings *)

Module StrFacts.
Import PyStr.

Lemma ch_eqb_eq (a b : ascii) : ch_eqb a b = true ↔ a = b.
Proof. apply Ascii.eqb_eq. Qed.

Lemma ch_eqb_refl (a : ascii) : ch_eqb a a = true.
Proof. apply Ascii.eqb_refl. Qed.

Lemma ch_eqb_sym (a b : ascii) : ch_eqb a b = ch_eqb b a.
Proof. apply Ascii.eqb_sym. Qed.

Lemma str_app_cons (c : ascii) (s t : string) :
  String c s +:+ t = String c (s +:+ t).
Proof. reflexivity. Qed.

Lemma str_app_nil_l (s : string) : "" +:+ s = s.
Proof. reflexivity. Qed.

Lemma str_app_nil_r (s : string) : s +:+ "" = s.
Proof.
  induction s as [|c s IH]; [done|]. by rewrite str_app_cons, IH.
Qed.

Lemma str_app_assoc (a b c : string) : (a +:+ b) +:+ c = a +:+ (b +:+ c).
Proof.
  induction a as [|x a IH]; [done|]. by rewrite !str_app_cons, IH.
Qed.

Section Characters.
Variable p : ascii → bool.

Lemma has_char_app (a b : string) :
  has_char p (a +:+ b) = has_char p a || has_char p b.
Proof.
  induction a as [|x a IH]; [done|].
  rewrite str_app_cons. simpl. by rewrite IH, orb_assoc.
Qed.

Lemma all_chars_app (a b : string) :
  all_chars p (a +:+ b) = all_chars p a && all_chars p b.
Proof.
  induction a as [|x a IH]; [done|].
  rewrite str_app_cons. simpl. by rewrite IH, andb_assoc.
Qed.

(** A string made of characters of one class has none of a disjoint class. *)
Lemma all_chars_has_char (q : ascii → bool) (s : string) :
  (∀ c, q c = true → p c = false) →
  all_chars q s = true → has_char p s = false.
Proof.
  intros Hd. induction s as [|c s IH]; [done|]. simpl.
  intros [Hc Hs]%andb_true_iff. by rewrite (Hd c Hc), IH.
Qed.

Lemma break_app (s : string) :
  fst (break p s) +:+ snd (break p s) = s.
Proof.
  induction s as [|c s IH]; [done|]. simpl.
  destruct (p c); [done|].
  destruct (break p s) as [a b]. simpl in *. by rewrite str_app_cons, IH.
Qed.

Lemma break_fst (s : string) : has_char p (fst (break p s)) = false.
Proof.
  induction s as [|c s IH]; [done|]. simpl.
  destruct (p c) eqn:Hc; [done|].
  destruct (break p s) as [a b]. simpl in *. by rewrite Hc.
Qed.

(** The rest of a cut is empty or starts with a character of the class. *)
Definition starts_with_class (s : string) : bool :=
  match s with EmptyString => true | String c _ => p c end.

Lemma break_snd (s : string) : starts_with_class (snd (break p s)) = true.
Proof.
  induction s as [|c s IH]; [done|]. simpl.
  destruct (p c) eqn:Hc; [done|]. by destruct (break p s).
Qed.

(** Cutting a string that is a class-free part followed by a rest that is
    empty or starts with a character of the class gives the two back. *)
Lemma break_unique (a b : string) :
  has_char p a = false → starts_with_class b = true →
  break p (a +:+ b) = (a, b).
Proof.
  intros Ha Hb. induction a as [|x a IH].
  - rewrite str_app_nil_l. destruct b as [|c b]; [done|]. simpl in *.
    by rewrite Hb.
  - rewrite str_app_cons. simpl in *. apply orb_false_iff in Ha as [Hx Ha].
    by rewrite Hx, (IH Ha).
Qed.

Lemma remove_chars_free (s : string) : has_char p (remove_chars p s) = false.
Proof.
  induction s as [|c s IH]; [done|]. simpl.
  destruct (p c) eqn:Hc; [done|]. simpl. by rewrite Hc.
Qed.

Lemma remove_chars_id (s : string) :
  has_char p s = false → remove_chars p s = s.
Proof.
  induction s as [|c s IH]; [done|]. simpl.
  intros [Hc Hs]%orb_false_iff. by rewrite Hc, (IH Hs).
Qed.

Lemma has_char_drop (n : nat) (s : string) :
  has_char p s = false → has_char p (drop n s) = false.
Proof.
  revert s. induction n as [|n IH]; intros [|c s]; simpl; try done.
  intros [_ Hs]%orb_false_iff. by apply IH.
Qed.

Lemma has_char_lower (s : string) :
  (∀ c, p (lower_char c) = p c) → has_char p (lower s) = has_char p s.
Proof.
  intros Hl. induction s as [|c s IH]; [done|]. simpl. by rewrite Hl, IH.
Qed.

End Characters.

Lemma strip_suffix_unfold (suf s : string) :
  strip_suffix suf s
  = if String.eqb s suf then Some EmptyString
    else match s with
         | EmptyString => None
         | String c s' => String c <$> strip_suffix suf s'
         end.
Proof. destruct s as [|c s]; [done|]. simpl. by destruct (strip_suffix suf s). Qed.

Lemma strip_suffix_app (suf s r : string) :
  strip_suffix suf s = Some r → s = r +:+ suf.
Proof.
  revert r. induction s as [|c s IH]; intros r; rewrite strip_suffix_unfold.
  - destruct (String.eqb_spec "" suf) as [<-|]; [|done]. by intros [= <-].
  - destruct (String.eqb_spec (String c s) suf) as [<-|].
    + by intros [= <-].
    + destruct (strip_suffix suf s) as [r'|]; [|done].
      intros [= <-]. by rewrite str_app_cons, <- (IH r').
Qed.

End StrFacts.

(** ** [class StorageManager] of [src/storage.py]

    The functions that name the files and detect duplicate content.  A
    string stands for the UTF-8 bytes of the text, so a character of Python is
    a byte that is not a continuation byte, together with the continuation
    bytes that follow it: [len] and the slices count those. *)

Module Storage.
Import PyStr Urllib.

(** The class of the regular expression in [_sanitize_filename]: the
    characters [<], [>], [:], the double quote, [/], the backslash, [|], [?]
    and [*]. *)
Definition invalid_char (c : ascii) : bool :=
  ch_eqb c "<" || ch_eqb c ">" || ch_eqb c ":" || (code c =? 34)%N
  || ch_eqb c "/" || (code c =? 92)%N || ch_eqb c "|" || ch_eqb c "?"
  || ch_eqb c "*".

(** [re.sub('[...]', b, s)] for a class of characters *)
Fixpoint replace_class (p : ascii → bool) (b : ascii) (s : string) : string :=
  match s with
  | EmptyString => EmptyString
  | String c s' => String (if p c then b else c) (replace_class p b s')
  end.

(** [s.strip(chars)] *)
Definition strip (p : ascii → bool) (s : string) : string :=
  rstrip p (lstrip p s).

(** A continuation byte of UTF-8: [10xxxxxx] *)
Definition continuation (c : ascii) : bool := in_range 128 191 c.

(** [len(s)]: the number of characters *)
Fixpoint char_length (s : string) : nat :=
  match s with
  | EmptyString => O
  | String c s' =>
      if continuation c then char_length s' else S (char_length s')
  end.

(** [s[:n]]: the first [n] characters *)
Fixpoint take_chars (n : nat) (s : string) : string :=
  match s with
  | EmptyString => EmptyString
  | String c s' =>
      if continuation c then String c (take_chars n s')
      else
        match n with
        | O => EmptyString
        | S n' => String c (take_chars n' s')
        end
  end.

(** [s[:-n]] for [n >= 0]: the empty string when [n] is 0 *)
Definition drop_end (n : nat) (s : string) : string :=
  match n with
  | O => EmptyString
  | _ => take_chars (char_length s - n) s
  end.

(** [c in '. '] *)
Definition dot_or_space (c : ascii) : bool := ch_eqb c "." || ch_eqb c " ".

(** [_sanitize_filename] *)
Definition _sanitize_filename (filename : string) : string :=
  let filename := replace_class invalid_char "_" filename in
  let filename := strip dot_or_space filename in
  let filename :=
    if (200 <? char_length filename)%nat then take_chars 200 filename
    else filename in
  if truthy filename then filename else "unnamed"%string.

Section WithHostSyntax.
Context `{HostSyntax}.

(** [_url_to_filename]; [None] when [urlparse] raises. *)
Definition _url_to_filename (url extension : string) : option string :=
  parsed ← urlparse url;
  let path := if truthy (path parsed) then path parsed else "index"%string in
  let path := strip (ch_eqb "/") path in
  let path := replace_char "/" "_" path in
  let path := _sanitize_filename path in
  let url_hash := take_chars 8 (Md5.md5_hexdigest url) in
  Some (if negb (endswith extension path)
        then path +:+ "_" +:+ url_hash +:+ extension
        else drop_end (char_length extension) path
             +:+ "_" +:+ url_hash +:+ extension).

End WithHostSyntax.

(** [hashlib.sha256(content).hexdigest()]: the digest is a parameter of the
    model, which uses it to compare contents only. *)
Class ContentDigest := { sha256_hexdigest : string → string }.

(** The [stats] dict of the storage. *)
Record StorageStats := mkStorageStats {
  pages_saved : Z; documents_saved : Z; links_extracted : Z;
  duplicate_content : Z; errors : Z }.

(** The attributes of the storage that duplicate detection reads and
    writes. *)
Record StorageManager := mkStorage {
  content_hashes : gset string;
  storage_stats : StorageStats }.

Section WithDigest.
Context `{ContentDigest}.

(** [_content_hash] *)
Definition _content_hash (content : string) : string :=
  sha256_hexdigest content.

(** [is_duplicate_content]: the new storage and the returned flag. *)
Definition is_duplicate_content (sm : StorageManager) (content : string)
  : StorageManager * bool :=
  let content_hash := _content_hash content in
  if decide (content_hash ∈ content_hashes sm) then
    let st := storage_stats sm in
    (mkStorage (content_hashes sm)
       (mkStorageStats (pages_saved st) (documents_saved st)
          (links_extracted st) (duplicate_content st + 1) (errors st)),
     true)
  else
    (mkStorage ({[content_hash]} ∪ content_hashes sm) (storage_stats sm),
     false).

End WithDigest.

End Storage.

(** An instance for closed examples on ASCII text: [str.lower] is [lower]
    there. *)
Definition ascii_case : PyStr.CaseMapping :=
  {| PyStr.str_lower := PyStr.lower |}.

(** An instance for closed examples: no bracketed host literal is accepted.
    The URLs of the examples have no bracket, so it is never consulted. *)
Definition no_bracketed_host : Urllib.HostSyntax :=
  {| Urllib.bracketed_host_ok := fun _ => false |}.

(** ** Enqueueing *)

Module EnqueueProps.
Import PyStr Urllib Frontier.

Section Generic.
Context `{HostSyntax} {case_mapping : CaseMapping}.

(** [add_url] returns [True] exactly on the accepting branch. *)
Lemma add_url_flag m url depth parent priority :
  snd (add_url m url depth parent priority)
  = bool_decide (classify m url depth parent = Accepted).
Proof.
  unfold add_url, classify.
  destruct (normalize_url url parent) as [n|]; [|done].
  destruct (truthy n); simpl; [|done].
  destruct (decide (_url_hash n ∈ url_hashes m)); [done|].
  destruct (depth >? max_depth m); [done|].
  destruct (Z.of_nat (size (visited_urls m)) >=? max_pages m); done.
Qed.

(** What a skipped call does: one counter moves. *)
Lemma add_url_skipped m url depth parent priority :
  classify m url depth parent ≠ Accepted →
  add_url m url depth parent priority
  = (set_stats
       ((if decide (classify m url depth parent = Duplicate)
         then incr_duplicate else incr_skipped) (stats m)) m,
     false).
Proof.
  unfold add_url, classify.
  destruct (normalize_url url parent) as [n|]; [|done].
  destruct (truthy n); simpl; [|done].
  destruct (decide (_url_hash n ∈ url_hashes m)); [done|].
  destruct (depth >? max_depth m); [done|].
  destruct (Z.of_nat (size (visited_urls m)) >=? max_pages m); done.
Qed.

(** What an accepted call does. *)
Lemma add_url_accepted m url depth parent priority :
  classify m url depth parent = Accepted →
  ∃ c, (normalize_url url parent = Some c)
       ∧ (_url_hash c ∉ url_hashes m)
       ∧ (add_url m url depth parent priority
          = (set_stats (incr_queued (stats m))
               (set_url_hashes ({[_url_hash c]} ∪ url_hashes m)
                  (set_url_queue
                     (url_queue m
                      ++ [mkEntry (default 3 priority) depth c parent]) m)),
             true)).
Proof.
  unfold add_url, classify.
  destruct (normalize_url url parent) as [n|]; [|done].
  destruct (truthy n); simpl; [|done].
  destruct (decide (_url_hash n ∈ url_hashes m)); [done|].
  destruct (depth >? max_depth m); [done|].
  destruct (Z.of_nat (size (visited_urls m)) >=? max_pages m); [done|].
  intros _. exists n. by destruct priority.
Qed.

Lemma pending_count_app url m e :
  pending_count url (set_url_queue (url_queue m ++ [e]) m)
  = (pending_count url m + (if String.eqb (e_url e) url then 1 else 0))%nat.
Proof.
  unfold pending_count. simpl. rewrite List.filter_app, List.length_app. simpl.
  by destruct (String.eqb (e_url e) url).
Qed.

Lemma queue_indexed_not_pending m c :
  queue_indexed m → _url_hash c ∉ url_hashes m → pending_count c m = 0%nat.
Proof.
  unfold queue_indexed, pending_count. intros Hq Hc.
  induction Hq as [|e q He _ IH]; [done|]. simpl.
  destruct (String.eqb_spec (e_url e) c) as [Heq|]; [|apply IH].
  by rewrite Heq in He.
Qed.

(** The dedup property for two calls in a row: the second call is the
    duplicate branch, returns [False], moves the duplicate counter and nothing
    else, and the canonical URL is pending once. *)
Definition second_is_duplicate (m : URLManager)
    (url1 : string) (depth1 : Z) (parent1 : option string) (prio1 : option Z)
    (url2 : string) (depth2 : Z) (parent2 : option string) (prio2 : option Z)
    (c : string) : Prop :=
  let m1 := fst (add_url m url1 depth1 parent1 prio1) in
  let m2 := fst (add_url m1 url2 depth2 parent2 prio2) in
  classify m1 url2 depth2 parent2 = Duplicate
  ∧ snd (add_url m1 url2 depth2 parent2 prio2) = false
  ∧ m2 = set_stats (incr_duplicate (stats m1)) m1
  ∧ pending_count c m2 = 1%nat.

(** The frame of a skipped call: it returns [False], and the manager differs
    from the one before in one counter, the duplicate counter for a duplicate
    and [total_skipped] otherwise. *)
Definition skip_frame (m : URLManager) (url : string) (depth : Z)
    (parent : option string) (prio : option Z) : Prop :=
  let m' := fst (add_url m url depth parent prio) in
  snd (add_url m url depth parent prio) = false
  ∧ url_queue m' = url_queue m
  ∧ url_hashes m' = url_hashes m
  ∧ visited_urls m' = visited_urls m
  ∧ failed_urls m' = failed_urls m
  ∧ (stats m' = incr_duplicate (stats m) ∨ stats m' = incr_skipped (stats m))
  ∧ m' = set_stats (stats m') m.

(** Enqueueing again, at [depth'], the URL of a call that was just made. *)
Definition retry_accepted (m : URLManager) (url : string) (depth : Z)
    (parent : option string) (prio : option Z) (depth' : Z) (prio' : option Z)
  : Prop :=
  snd (add_url (fst (add_url m url depth parent prio)) url depth' parent prio')
  = true.

(** C1, as amended: when the first of two calls whose URLs have the same
    canonical form is accepted, the second is skipped as a duplicate: it
    returns [False], increments the duplicate counter and changes nothing
    else; in a frontier whose pending URLs are all in the dedup index (as
    they are in every frontier the methods of the class reach, see
    [Invariants.reachable_queue_indexed]), the canonical URL is then pending
    exactly once. *)
Theorem add_url_twice m url1 depth1 parent1 prio1 url2 depth2 parent2 prio2 c :
  normalize_url url1 parent1 = Some c →
  normalize_url url2 parent2 = Some c →
  queue_indexed m →
  classify m url1 depth1 parent1 = Accepted →
  second_is_duplicate m url1 depth1 parent1 prio1 url2 depth2 parent2 prio2 c.
Proof.
  intros Hn1 Hn2 Hq Hacc. unfold second_is_duplicate.
  destruct (add_url_accepted m url1 depth1 parent1 prio1 Hacc)
    as (c' & Hc' & Hfresh & ->).
  assert (c' = c) as -> by congruence. cbn [fst snd].
  set (m1 := set_stats _ _).
  assert (Hdup : classify m1 url2 depth2 parent2 = Duplicate).
  { unfold classify. rewrite Hn2.
    assert (truthy c = true) as ->.
    { revert Hacc. unfold classify. rewrite Hn1. by destruct (truthy c). }
    simpl. destruct (decide _) as [|Hn]; [done|].
    exfalso. apply Hn. subst m1. simpl. set_solver. }
  assert (Hne : classify m1 url2 depth2 parent2 ≠ Accepted) by by rewrite Hdup.
  rewrite (add_url_skipped m1 url2 depth2 parent2 prio2 Hne).
  rewrite Hdup. simpl. repeat split.
  subst m1. unfold pending_count. simpl.
  rewrite List.filter_app, List.length_app. simpl.
  rewrite String.eqb_refl. simpl.
  pose proof (queue_indexed_not_pending m c Hq Hfresh) as H0.
  unfold pending_count in H0. by rewrite H0.
Qed.

(** C10, as amended: a skipped call returns [False] and changes one
    statistics counter and nothing else; after a call skipped for its depth
    the URL is not in the dedup index, and enqueueing it again at a depth
    within the limit is accepted as long as the visited set is below the page
    budget. *)
Theorem add_url_skip_frame m url depth parent prio :
  classify m url depth parent ≠ Accepted →
  skip_frame m url depth parent prio
  ∧ (classify m url depth parent = DepthExceeded →
     (∀ c, normalize_url url parent = Some c →
           _url_hash c ∉ url_hashes (fst (add_url m url depth parent prio)))
     ∧ ∀ depth' prio',
         depth' <= max_depth m →
         Z.of_nat (size (visited_urls m)) < max_pages m →
         retry_accepted m url depth parent prio depth' prio').
Proof.
  intros Hne. unfold skip_frame, retry_accepted.
  rewrite (add_url_skipped m url depth parent prio Hne). cbn [fst snd].
  split.
  { repeat split; try done. simpl. destruct (decide _); auto. }
  intros Hd. rewrite Hd. simpl. revert Hd. unfold classify.
  destruct (normalize_url url parent) as [n|] eqn:Hn; [|done].
  destruct (truthy n) eqn:Ht; simpl; [|done].
  destruct (decide (_url_hash n ∈ url_hashes m)) as [|Hfresh]; [done|].
  destruct (depth >? max_depth m) eqn:Hgt; [|by repeat case_match].
  intros _. split.
  { intros c [= <-]. done. }
  intros depth' prio' Hle Hlt.
  rewrite add_url_flag. apply bool_decide_eq_true.
  unfold classify. rewrite Hn, Ht. simpl.
  destruct (decide _); [done|].
  destruct (depth' >? max_depth m) eqn:Hgt'; [lia|].
  destruct (Z.of_nat (size (visited_urls m)) >=? max_pages m) eqn:Hge; [lia|done].
Qed.

End Generic.

(** The frontier of the examples: [URLManager("example.com", max_depth,
    max_pages)]. *)
Definition example_manager (max_depth max_pages : Z) : URLManager :=
  mkManager "example.com" max_depth max_pages ∅ ∅ ∅ [] zero_stats.


(** The two forms of the canonicalization-equivalence example. *)
Example equivalent_forms :
  @normalize_url no_bracketed_host "http://Example.com:80/a?b=1&a=2" None
  = Some "http://example.com/a?a=2&b=1"%string
  ∧ @normalize_url no_bracketed_host "http://example.com/a?a=2&b=1" None
    = Some "http://example.com/a?a=2&b=1"%string.
Proof. split; vm_compute; reflexivity. Qed.

(** C1, counterexample: in a fresh frontier with [max_depth = 0], the two
    equivalent forms enqueued at depth 1 are both skipped for their depth: the
    second call is not the duplicate branch, and nothing is pending. *)
Lemma add_url_twice_beyond_max_depth :
  let m := example_manager 0 500 in
  let url1 := "http://Example.com:80/a?b=1&a=2"%string in
  let url2 := "http://example.com/a?a=2&b=1"%string in
  let m1 := fst (@add_url no_bracketed_host m url1 1 None None) in
  let m2 := fst (@add_url no_bracketed_host m1 url2 1 None None) in
  @classify no_bracketed_host m url1 1 None = DepthExceeded
  ∧ @classify no_bracketed_host m1 url2 1 None = DepthExceeded
  ∧ pending_count url2 m2 = 0%nat
  ∧ duplicate_count (stats m2) = 0
  ∧ total_skipped (stats m2) = 2
  ∧ ¬ @second_is_duplicate no_bracketed_host m url1 1 None None
        url2 1 None None url2.
Proof.
  intros m url1 url2 m1 m2.
  assert (Hc : @classify no_bracketed_host m1 url2 1 None = DepthExceeded)
    by (vm_compute; reflexivity).
  repeat (split; [vm_compute; reflexivity|]).
  intros (Hd & _). fold m1 in Hd. rewrite Hc in Hd. discriminate Hd.
Qed.

Lemma add_url_twice_witness :
  @second_is_duplicate no_bracketed_host (example_manager 3 500)
      "http://Example.com:80/a?b=1&a=2" 0 None (Some 0)
      "http://example.com/a?a=2&b=1" 1 None None
      "http://example.com/a?a=2&b=1".
Proof.
  apply (@add_url_twice no_bracketed_host).
  - vm_compute; reflexivity.
  - vm_compute; reflexivity.
  - apply Forall_nil_2.
  - vm_compute; reflexivity.
Defined.

(** A frontier with [max_depth = 1] and [max_pages = 1] after its one page has
    been visited. *)
Definition exhausted_manager : URLManager :=
  @mark_visited no_bracketed_host (example_manager 1 1) "http://example.com/".

(** C10, counterexample: with the page budget used up, a URL skipped at depth
    2 for its depth is skipped again, for the budget, at depth 1. *)
Lemma retry_after_depth_skip_over_budget :
  @classify no_bracketed_host exhausted_manager "http://example.com/a/b" 2 None
  = DepthExceeded
  ∧ 1 <= max_depth exhausted_manager
  ∧ ¬ @retry_accepted no_bracketed_host exhausted_manager
        "http://example.com/a/b" 2 None None 1 None.
Proof.
  split; [vm_compute; reflexivity|]. split; [vm_compute; discriminate|].
  intros Hr. vm_compute in Hr. discriminate Hr.
Qed.

Lemma add_url_skip_frame_witness :
  @skip_frame no_bracketed_host (example_manager 1 10)
    "http://example.com/a/b" 2 None None
  ∧ @retry_accepted no_bracketed_host (example_manager 1 10)
      "http://example.com/a/b" 2 None None 1 None.
Proof.
  assert (Hne : @classify no_bracketed_host (example_manager 1 10)
                  "http://example.com/a/b" 2 None ≠ Accepted)
    by (vm_compute; discriminate).
  destruct (@add_url_skip_frame no_bracketed_host (example_manager 1 10)
              "http://example.com/a/b" 2 None None Hne) as [Hf Hr].
  split; [exact Hf|].
  apply Hr; [vm_compute; reflexivity | vm_compute; discriminate
            | vm_compute; reflexivity].
Defined.

End EnqueueProps.

(** ** Marking *)

Module MarkProps.
Import PyStr Urllib Frontier.

Section Generic.
Context `{HostSyntax} {case_mapping : CaseMapping}.

(** Whether [mark_visited(url)] records anything: [normalize_url(url)] is a
    non-empty string. *)
Definition recordable (url : string) : bool :=
  match normalize_url url None with
  | Some normalized_url => truthy normalized_url
  | None => false
  end.

(** C8, as amended: a second [mark_visited(url)] leaves the visited set and
    every other component of the frontier as the first call left them, except
    the counter [total_visited], which counts the calls and is incremented
    again (when the URL cannot be normalized, neither call changes
    anything). *)
Theorem mark_visited_twice (m : URLManager) (url : string) :
  let m1 := mark_visited m url in
  let m2 := mark_visited m1 url in
  visited_urls m2 = visited_urls m1
  ∧ m2 = set_stats (stats m2) m1
  ∧ stats m2 = (if recordable url then incr_visited (stats m1) else stats m1)
  ∧ (recordable url = false → m1 = m).
Proof.
  unfold mark_visited, recordable.
  assert (Hid : set_stats (stats m) m = m) by (destruct m; reflexivity).
  destruct (normalize_url url None) as [n|]; [|by rewrite Hid].
  destruct (truthy n); [|by rewrite Hid]. simpl.
  assert (Hu : {[n]} ∪ ({[n]} ∪ visited_urls m) = {[n]} ∪ visited_urls m).
  { apply leibniz_equiv. by rewrite (assoc_L (∪)), (idemp_L (∪)). }
  repeat split; try done.
  unfold set_stats, set_visited_urls. simpl. by rewrite Hu.
Qed.

End Generic.

(** C8, counterexample: on a fresh frontier, marking the canonical URL
    [http://example.com/] visited a second time changes the state: the
    counter [total_visited] goes from 1 to 2. *)
Lemma mark_visited_not_idempotent :
  let m := EnqueueProps.example_manager 3 500 in
  let url := "http://example.com/"%string in
  @normalize_url no_bracketed_host url None = Some url
  ∧ @mark_visited no_bracketed_host (@mark_visited no_bracketed_host m url) url
    ≠ @mark_visited no_bracketed_host m url
  ∧ total_visited
      (stats (@mark_visited no_bracketed_host
                (@mark_visited no_bracketed_host m url) url)) = 2.
Proof.
  split; [vm_compute; reflexivity|]. split; [|vm_compute; reflexivity].
  intros Heq. apply (f_equal (fun m => total_visited (stats m))) in Heq.
  vm_compute in Heq. discriminate Heq.
Qed.

Lemma mark_visited_twice_witness :
  let m := EnqueueProps.example_manager 3 500 in
  let m1 := @mark_visited no_bracketed_host m "http://example.com/" in
  visited_urls (@mark_visited no_bracketed_host m1 "http://example.com/")
  = visited_urls m1
  ∧ @mark_visited no_bracketed_host m "mailto:info@example.com" = m.
Proof.
  split.
  - exact (proj1 (@mark_visited_twice no_bracketed_host
                    (EnqueueProps.example_manager 3 500)
                    "http://example.com/")).
  - apply (@mark_visited_twice no_bracketed_host
             (EnqueueProps.example_manager 3 500) "mailto:info@example.com").
    vm_compute. reflexivity.
Defined.

End MarkProps.

(** ** Checkpoints *)

Module CheckpointProps.
Import PyStr Urllib Frontier Scraper Checkpoint.

Lemma load_state_save_state (m m0 : URLManager) :
  load_state m0 (save_state m) = m.
Proof.
  destruct m. unfold load_state, save_state. simpl.
  by rewrite !list_to_set_elements_L.
Qed.

(** C5: loading the snapshot [save_state] makes of a frontier gives that
    frontier back, whatever the manager it is loaded into: visited set, dedup
    index, failed map, pending queue, scope limits and statistics.  The
    checkpoint of the scraper stores this snapshot, so resuming from the
    checkpoint just saved restores the manager.  (The snapshot holds the sets
    as lists and the file holds the tuples of the queue as JSON lists; the
    code reads both back the same way.) *)
Theorem load_save_state (m m0 : URLManager) :
  load_state m0 (save_state m) = m
  ∧ ∀ s n,
      url_manager
        (_load_checkpoint
           (mkScraper m0 n (progress_file (_save_checkpoint s))))
      = url_manager s.
Proof.
  split; [apply load_state_save_state|].
  intros s n. simpl. apply load_state_save_state.
Qed.

(** The three states the round-trip property names. *)
Example round_trip_states :
  let empty := EnqueueProps.example_manager 3 500 in
  let single :=
    fst (@add_url no_bracketed_host empty "http://example.com/" 0 None (Some 0)) in
  let failed :=
    @mark_failed no_bracketed_host single "http://example.com/x" "Timeout" in
  load_state single (save_state empty) = empty
  ∧ load_state empty (save_state single) = single
  ∧ load_state empty (save_state failed) = failed
  ∧ url_queue single
    = [mkEntry 0 0 "http://example.com/" None]
  ∧ failed_urls failed !! "http://example.com/x"%string = Some "Timeout"%string.
Proof.
  intros empty single failed.
  split; [apply load_state_save_state|].
  split; [apply load_state_save_state|].
  split; [apply load_state_save_state|].
  split; vm_compute; reflexivity.
Qed.





(** The atomicity a caller would rely on: wherever the save stops, the
    progress file holds the text it held before or the whole new text. *)
Definition atomic_save (ops : list file_op) (fs : fsys)
    (progress_file : string) (chunks : list string) : Prop :=
  ∀ trace,
    stopped_run ops trace →
    disk (run trace fs) !! progress_file = disk fs !! progress_file
    ∨ disk (run trace fs) !! progress_file = Some (text chunks).

Lemma front_drop (n : nat) (s : string) : front n s +:+ drop n s = s.
Proof.
  revert s. induction n as [|n IH]; intros [|c s]; simpl; try done.
  by rewrite StrFacts.str_app_cons, IH.
Qed.

Lemma text_snoc (chunks : list string) (c : string) :
  text (chunks ++ [c]) = text chunks +:+ c.
Proof.
  induction chunks as [|x chunks IH]; simpl.
  - by rewrite StrFacts.str_app_nil_r.
  - by rewrite IH, StrFacts.str_app_assoc.
Qed.

Lemma run_snoc (trace : list file_op) (op : file_op) (fs : fsys) :
  run (trace ++ [op]) fs = apply_op (run trace fs) op.
Proof. unfold run. by rewrite fold_left_app. Qed.

Lemma program_of_snoc (trace : list file_op) (op : file_op) :
  program_of (trace ++ [op])
  = program_of trace ++ (if is_flush op then [] else [op]).
Proof.
  unfold program_of. rewrite List.filter_app. simpl.
  by destruct (is_flush op).
Qed.

(** The operation of [save_ops], followed by any others, at each place. *)
Lemma save_ops_lookup (path : string) (chunks : list string)
    (extra : list file_op) (k : nat) (op : file_op) :
  (save_ops path chunks ++ extra) !! k = Some op →
  (k ≤ List.length chunks + 1)%nat →
  (k = 0%nat ∧ op = OpenW path)
  ∨ (∃ j c, k = S j ∧ chunks !! j = Some c ∧ op = WriteText c)
  ∨ (k = S (List.length chunks) ∧ op = Close).
Proof.
  intros Hk Hle. destruct k as [|j]; [left; simpl in Hk; by injection Hk|].
  right. unfold save_ops in Hk. simpl in Hk.
  rewrite <- app_assoc in Hk.
  destruct (decide (j < List.length chunks)%nat) as [Hj|Hj].
  - left. rewrite lookup_app_l in Hk by by rewrite length_map.
    change (@map) with (@fmap list _) in Hk.
    rewrite list_lookup_fmap in Hk.
    destruct (chunks !! j) as [c|] eqn:Hc; [|done].
    exists j, c. simpl in Hk. by injection Hk as <-.
  - right. assert (j = List.length chunks) as -> by lia.
    rewrite lookup_app_r in Hk by by rewrite length_map.
    rewrite length_map, Nat.sub_diag in Hk. simpl in Hk. by injection Hk.
Qed.

Lemma save_ops_length (path : string) (chunks : list string) :
  List.length (save_ops path chunks) = (List.length chunks + 2)%nat.
Proof. unfold save_ops. simpl. rewrite length_app, length_map. simpl. lia. Qed.

(** Where the files stand after the first [k] operations of a save into
    [path]: nothing done; or the file open, the text on disk followed by the
    text in the buffer being the chunks written so far; or the file closed
    with the whole text. *)
Definition saving (fs : fsys) (path : string) (chunks : list string)
    (k : nat) (fs' : fsys) : Prop :=
  match k with
  | O => fs' = fs
  | S j =>
      if decide (j ≤ List.length chunks)%nat then
        ∃ t buffer,
          fs' = mkFsys (<[path := t]> (disk fs)) (Some (path, buffer))
          ∧ t +:+ buffer = text (take j chunks)
      else fs' = mkFsys (<[path := text chunks]> (disk fs)) None
  end.

Lemma run_saving (fs : fsys) (path : string) (chunks : list string)
    (extra : list file_op) (trace : list file_op) (k : nat) :
  open_file fs = None →
  program_of trace = take k (save_ops path chunks ++ extra) →
  (k ≤ List.length chunks + 2)%nat →
  saving fs path chunks k (run trace fs).
Proof.
  intros Hclosed. revert k.
  induction trace as [|op trace IH] using rev_ind; intros k Hprog Hk.
  { destruct k; [done|]. simpl in Hprog. discriminate Hprog. }
  rewrite run_snoc. rewrite program_of_snoc in Hprog.
  destruct (is_flush op) eqn:Hflush.
  - rewrite app_nil_r in Hprog. specialize (IH k Hprog Hk).
    destruct op; try done. clear Hflush Hprog.
    unfold saving in *. destruct k as [|j].
    + rewrite IH. simpl. by rewrite Hclosed.
    + destruct (decide (j ≤ List.length chunks)%nat).
      * destruct IH as (t & buffer & -> & Ht). simpl.
        unfold on_disk. simpl. rewrite lookup_insert_eq. simpl.
        exists (t +:+ front n buffer), (drop n buffer).
        split; [by rewrite insert_insert_eq|].
        by rewrite StrFacts.str_app_assoc, front_drop.
      * rewrite IH. done.
  - assert (Hlen : List.length (program_of trace ++ [op])
                   = List.length (take k (save_ops path chunks ++ extra)))
      by by rewrite Hprog.
    assert (HL : List.length (save_ops path chunks ++ extra)
                 = (List.length chunks + 2 + List.length extra)%nat)
      by (rewrite length_app, save_ops_length; lia).
    rewrite length_app, length_take, HL in Hlen.
    change (List.length [op]) with 1%nat in Hlen.
    destruct k as [|k]; [lia|].
    assert (Hlt : (k < List.length (save_ops path chunks ++ extra))%nat) by lia.
    destruct (lookup_lt_is_Some_2 _ _ Hlt) as [op' Hop'].
    rewrite (take_S_r _ _ _ Hop') in Hprog.
    apply app_inj_tail in Hprog as [Hprog ->].
    specialize (IH k Hprog ltac:(lia)).
    apply save_ops_lookup in Hop' as [[-> ->]|[(j & c & -> & Hc & ->)|[-> ->]]];
      [| | |lia].
    + simpl in IH. rewrite IH. unfold saving.
      rewrite decide_True by lia. by exists EmptyString, EmptyString.
    + pose proof (lookup_lt_Some _ _ _ Hc) as Hj.
      unfold saving in *. rewrite decide_True in IH by lia.
      rewrite decide_True by lia.
      destruct IH as (t & buffer & -> & Ht). simpl.
      exists t, (buffer +:+ c). split; [done|].
      rewrite (take_S_r _ _ _ Hc), text_snoc, <- Ht.
      by rewrite StrFacts.str_app_assoc.
    + unfold saving in *. rewrite decide_True in IH by lia.
      rewrite decide_False by lia.
      destruct IH as (t & buffer & -> & Ht). simpl.
      unfold on_disk. simpl. rewrite lookup_insert_eq. simpl.
      rewrite insert_insert_eq, Ht. by rewrite take_ge by lia.
Qed.

Lemma stopped_run_take (ops trace : list file_op) :
  stopped_run ops trace →
  program_of trace = take (List.length (program_of trace)) ops
  ∧ (List.length (program_of trace) ≤ List.length ops)%nat.
Proof.
  intros [later ->]. split.
  - by rewrite take_app_length.
  - rewrite length_app. lia.
Qed.

(** C7, as amended: [_save_checkpoint] overwrites the progress file in place.
    Wherever the save stops, and whatever the buffer has flushed by then:
    before the open nothing has changed; from the open on, the progress file
    holds a prefix of the new text, the empty text right after the open, and
    the whole text once the save has run to its end; no other file changes,
    and no operation of the save is a rename. *)
Theorem save_in_place (fs : fsys) (progress_file : string)
    (chunks : list string) (trace : list file_op) :
  open_file fs = None →
  stopped_run (save_ops progress_file chunks) trace →
  let fs' := run trace fs in
  (program_of trace = [] → fs' = fs)
  ∧ (program_of trace ≠ [] →
     ∃ t rest, disk fs' !! progress_file = Some t ∧ text chunks = t +:+ rest)
  ∧ (program_of trace = [OpenW progress_file] →
     disk fs' !! progress_file = Some EmptyString)
  ∧ (program_of trace = save_ops progress_file chunks →
     disk fs' !! progress_file = Some (text chunks))
  ∧ (∀ p, p ≠ progress_file → disk fs' !! p = disk fs !! p)
  ∧ Forall (fun op => ∀ src dst, op ≠ Replace src dst)
      (save_ops progress_file chunks).
Proof.
  intros Hclosed Hstop. simpl.
  destruct (stopped_run_take _ _ Hstop) as [Htake Hlen].
  rewrite save_ops_length in Hlen.
  rewrite <- (app_nil_r (save_ops progress_file chunks)) in Htake.
  pose proof (run_saving fs progress_file chunks [] trace _ Hclosed Htake Hlen)
    as Hs.
  set (k := List.length (program_of trace)) in *.
  split; [|split; [|split; [|split; [|split]]]].
  - intros Hnil. subst k. rewrite Hnil in Hs. exact Hs.
  - intros Hne. destruct k as [|j] eqn:Hk.
    { subst k. by apply length_zero_iff_nil in Hk. }
    simpl in Hs. destruct (decide (j ≤ List.length chunks)%nat).
    + destruct Hs as (t & buffer & -> & Ht). simpl.
      exists t, (buffer +:+ text (skipn j chunks)).
      split; [apply lookup_insert_eq|].
      rewrite <- StrFacts.str_app_assoc, Ht.
      rewrite <- (take_drop j chunks) at 1. clear.
      induction (take j chunks) as [|x l IH]; simpl; [done|].
      by rewrite IH, StrFacts.str_app_assoc.
    + rewrite Hs. simpl. exists (text chunks), EmptyString.
      split; [apply lookup_insert_eq|by rewrite StrFacts.str_app_nil_r].
  - intros Hopen. subst k. rewrite Hopen in Hs.
    change (List.length [OpenW progress_file]) with 1%nat in Hs.
    unfold saving in Hs. rewrite decide_True in Hs by lia.
    destruct Hs as (t & buffer & -> & Ht). simpl. rewrite lookup_insert_eq.
    simpl in Ht. by destruct t.
  - intros Hall. subst k. rewrite Hall, save_ops_length in Hs.
    replace (List.length chunks + 2)%nat with (S (S (List.length chunks)))
      in Hs by lia.
    simpl in Hs. rewrite decide_False in Hs by lia.
    rewrite Hs. simpl. apply lookup_insert_eq.
  - intros p Hp. destruct k as [|j]; [by rewrite Hs|]. simpl in Hs.
    destruct (decide (j ≤ List.length chunks)%nat).
    + destruct Hs as (t & buffer & -> & _). simpl. by apply lookup_insert_ne.
    + rewrite Hs. simpl. by apply lookup_insert_ne.
  - unfold save_ops. constructor; [done|].
    apply Forall_app. split; [|by constructor].
    apply Forall_forall. intros op Hin. apply list_elem_of_In in Hin.
    apply in_map_iff in Hin as (c & <- & _). done.
Qed.

(** A trace whose program ends with [op] is a trace of the operations before
    it, then [op], then flushes only. *)
Lemma program_of_snoc_inv (trace prog : list file_op) (op : file_op) :
  program_of trace = prog ++ [op] →
  ∃ before flushes,
    trace = before ++ op :: flushes
    ∧ program_of before = prog
    ∧ program_of flushes = [].
Proof.
  induction trace as [|x trace IH] using rev_ind.
  { by destruct prog. }
  rewrite program_of_snoc. destruct (is_flush x) eqn:Hx.
  - rewrite app_nil_r. intros Hp.
    destruct (IH Hp) as (before & flushes & -> & Hb & Hf).
    exists before, (flushes ++ [x]). split; [by rewrite <- app_assoc|].
    split; [done|]. rewrite program_of_snoc, Hf, Hx. done.
  - intros Hp. apply app_inj_tail in Hp as [Hp ->].
    by exists trace, [].
Qed.

Lemma run_flushes_closed (flushes : list file_op) (fs : fsys) :
  program_of flushes = [] → open_file fs = None → run flushes fs = fs.
Proof.
  intros Hf Hclosed. induction flushes as [|x flushes IH] using rev_ind.
  { done. }
  rewrite program_of_snoc in Hf. destruct (is_flush x) eqn:Hx.
  - rewrite app_nil_r in Hf. rewrite run_snoc, (IH Hf).
    destruct x; try done. simpl. by rewrite Hclosed.
  - by destruct (program_of flushes).
Qed.

Lemma run_app (before later : list file_op) (fs : fsys) :
  run (before ++ later) fs = run later (run before fs).
Proof. unfold run. by rewrite fold_left_app. Qed.

(** The save of the specification is atomic in this model of the files:
    until the rename the checkpoint is untouched, and the rename puts the
    whole new text in its place. *)
Lemma save_by_rename_atomic (fs : fsys) (progress_file temporary : string)
    (chunks : list string) :
  open_file fs = None →
  temporary ≠ progress_file →
  atomic_save (save_ops_by_rename progress_file temporary chunks) fs
    progress_file chunks.
Proof.
  intros Hclosed Hne trace Hstop.
  destruct (stopped_run_take _ _ Hstop) as [Htake Hlen].
  unfold save_ops_by_rename in *.
  rewrite length_app, save_ops_length in Hlen.
  change (List.length [Replace temporary progress_file]) with 1%nat in Hlen.
  destruct (decide (List.length (program_of trace) ≤ List.length chunks + 2)%nat)
    as [Hk|Hk].
  - left.
    pose proof (run_saving fs temporary chunks _ trace _ Hclosed Htake Hk)
      as Hs.
    destruct (List.length (program_of trace)) as [|j]; [by rewrite Hs|].
    unfold saving in Hs. destruct (decide (j ≤ List.length chunks)%nat).
    + destruct Hs as (t & buffer & -> & _). simpl. by apply lookup_insert_ne.
    + rewrite Hs. simpl. by apply lookup_insert_ne.
  - right.
    assert (Hall : program_of trace
                   = save_ops temporary chunks ++ [Replace temporary progress_file]).
    { rewrite Htake. apply take_ge. rewrite length_app, save_ops_length.
      change (List.length [Replace temporary progress_file]) with 1%nat. lia. }
    apply program_of_snoc_inv in Hall as (before & flushes & -> & Hb & Hf).
    rewrite <- (app_nil_r (save_ops temporary chunks)) in Hb.
    rewrite <- (take_ge (save_ops temporary chunks ++ [])
                  (List.length chunks + 2)) in Hb
      by (rewrite app_nil_r, save_ops_length; lia).
    pose proof (run_saving fs temporary chunks [] before _ Hclosed Hb
                  ltac:(lia)) as Hs.
    replace (List.length chunks + 2)%nat
      with (S (S (List.length chunks))) in Hs by lia.
    unfold saving in Hs. rewrite decide_False in Hs by lia.
    rewrite run_app.
    change (run (Replace temporary progress_file :: flushes) (run before fs))
      with (run flushes
              (apply_op (run before fs) (Replace temporary progress_file))).
    rewrite Hs. simpl. rewrite lookup_insert_eq.
    rewrite run_flushes_closed by done. simpl. apply lookup_insert_eq.
Qed.

(** C7, counterexample: a save that stops right after the file is opened
    leaves it empty, and one that stops after the first chunk was flushed
    leaves that chunk: neither the old checkpoint nor the new. *)
Lemma save_not_atomic :
  let fs := mkFsys {[ "progress.json" := "{old}" ]}%string None in
  let chunks := ["{"; "new"; "}"]%string in
  disk (run [OpenW "progress.json"] fs) !! "progress.json"%string
  = Some EmptyString
  ∧ disk (run [OpenW "progress.json"; WriteText "{"; Flush 1] fs)
      !! "progress.json"%string
    = Some "{"%string
  ∧ ¬ atomic_save (save_ops "progress.json" chunks) fs "progress.json" chunks.
Proof.
  split; [vm_compute; reflexivity|]. split; [vm_compute; reflexivity|].
  intros Ha. destruct (Ha [OpenW "progress.json"%string]) as [Hc|Hc].
  - by exists (map WriteText ["{"; "new"; "}"]%string ++ [Close]).
  - vm_compute in Hc. discriminate Hc.
  - vm_compute in Hc. discriminate Hc.
Qed.

Lemma save_in_place_witness :
  let fs := mkFsys {[ "progress.json" := "{old}" ]}%string None in
  let chunks := ["{"; "new"; "}"]%string in
  disk (run [OpenW "progress.json"; Flush 3] fs) !! "progress.json"%string
  = Some EmptyString
  ∧ disk (run (save_ops "progress.json" chunks) fs) !! "progress.json"%string
    = Some "{new}"%string.
Proof.
  split.
  - apply (save_in_place
             (mkFsys {[ "progress.json" := "{old}" ]}%string None)
             "progress.json" ["{"; "new"; "}"]%string
             [OpenW "progress.json"%string; Flush 3]).
    + reflexivity.
    + by exists (map WriteText ["{"; "new"; "}"]%string ++ [Close]).
    + reflexivity.
  - apply (save_in_place
             (mkFsys {[ "progress.json" := "{old}" ]}%string None)
             "progress.json" ["{"; "new"; "}"]%string
             (save_ops "progress.json" ["{"; "new"; "}"]%string)).
    + reflexivity.
    + by exists [].
    + reflexivity.
Defined.

End CheckpointProps.

(** ** Dequeueing *)

Module DequeueProps.
Import PyStr Urllib Frontier.

Lemma key_leb_refl (k : Z * Z) : key_leb k k = true.
Proof. unfold key_leb. rewrite Z.eqb_refl, Z.leb_refl. apply orb_true_r. Qed.

Lemma key_leb_total (a b : Z * Z) : key_leb a b = false → key_leb b a = true.
Proof.
  unfold key_leb. destruct a as [a1 a2], b as [b1 b2]. simpl.
  destruct (Z.ltb_spec a1 b1), (Z.ltb_spec b1 a1), (Z.eqb_spec a1 b1),
    (Z.eqb_spec b1 a1), (Z.leb_spec a2 b2), (Z.leb_spec b2 a2);
    simpl; try done; lia.
Qed.

Lemma key_leb_trans (a b c : Z * Z) :
  key_leb a b = true → key_leb b c = true → key_leb a c = true.
Proof.
  unfold key_leb. destruct a as [a1 a2], b as [b1 b2], c as [c1 c2]. simpl.
  destruct (Z.ltb_spec a1 b1), (Z.ltb_spec b1 c1), (Z.ltb_spec a1 c1),
    (Z.eqb_spec a1 b1), (Z.eqb_spec b1 c1), (Z.eqb_spec a1 c1),
    (Z.leb_spec a2 b2), (Z.leb_spec b2 c2), (Z.leb_spec a2 c2);
    simpl; try done; lia.
Qed.

(** [a] sorts no later than every entry of [l]. *)
Definition lower_bound (a : entry) (l : list entry) : Prop :=
  Forall (fun x => key_leb (key a) (key x) = true) l.

(** Sorted by the key: every entry is a lower bound of those after it. *)
Inductive key_sorted : list entry → Prop :=
  | key_sorted_nil : key_sorted []
  | key_sorted_cons a l : lower_bound a l → key_sorted l → key_sorted (a :: l).

Lemma insert_entry_perm (x : entry) (l : list entry) :
  insert_entry x l ≡ₚ x :: l.
Proof.
  induction l as [|y l IH]; simpl; [done|].
  destruct (key_leb (key x) (key y)); [done|].
  rewrite IH. apply Permutation_swap.
Qed.

Lemma sorted_perm (q : list entry) : sorted q ≡ₚ q.
Proof.
  induction q as [|x q IH]; simpl; [done|].
  by rewrite insert_entry_perm, IH.
Qed.

Lemma insert_entry_sorted (x : entry) (l : list entry) :
  key_sorted l → key_sorted (insert_entry x l).
Proof.
  induction 1 as [|a l Hlb Hs IH]; simpl.
  - constructor; [apply Forall_nil_2|constructor].
  - destruct (key_leb (key x) (key a)) eqn:Hxa.
    + constructor; [|by constructor].
      constructor; [done|].
      eapply Forall_impl; [exact Hlb|]. simpl. intros y Hy.
      by eapply key_leb_trans.
    + constructor; [|done].
      unfold lower_bound. rewrite insert_entry_perm.
      constructor; [by apply key_leb_total|done].
Qed.

Lemma sorted_sorted (q : list entry) : key_sorted (sorted q).
Proof.
  induction q as [|x q IH]; simpl; [constructor|by apply insert_entry_sorted].
Qed.

(** Stability: sorting leaves the entries of each key in their order. *)
Lemma insert_entry_tier (k : Z * Z) (x : entry) (l : list entry) :
  tier k (insert_entry x l) = tier k (x :: l).
Proof.
  induction l as [|y l IH]; simpl; [done|].
  destruct (key_leb (key x) (key y)) eqn:Hxy; [done|].
  simpl. rewrite IH. simpl.
  destruct (bool_decide_reflect (key x = k)) as [Hx|Hx];
    destruct (bool_decide_reflect (key y = k)) as [Hy|Hy]; try done.
  rewrite Hx, <- Hy, key_leb_refl in Hxy. done.
Qed.

Lemma sorted_tier (k : Z * Z) (q : list entry) : tier k (sorted q) = tier k q.
Proof.
  induction q as [|x q IH]; simpl; [done|].
  rewrite insert_entry_tier. simpl. by rewrite IH.
Qed.

Lemma sorted_not_nil (q : list entry) : q ≠ [] → sorted q ≠ [].
Proof.
  intros Hq Hs. pose proof (sorted_perm q) as Hp. rewrite Hs in Hp.
  by apply Permutation_nil_l in Hp.
Qed.

Lemma dequeue_n_take (n : nat) (m : URLManager) :
  take n (dequeue_n (S n) m) = dequeue_n n m.
Proof.
  revert m. induction n as [|n IH]; intros m.
  - simpl. by destruct (get_next_url m).
  - change (dequeue_n (S (S n)) m)
      with (let '(m', r) := get_next_url m in r :: dequeue_n (S n) m').
    change (dequeue_n (S n) m)
      with (let '(m', r) := get_next_url m in r :: dequeue_n n m').
    destruct (get_next_url m) as [m' r].
    change (take (S n) (r :: dequeue_n (S n) m'))
      with (r :: take n (dequeue_n (S n) m')).
    by rewrite IH.
Qed.

Lemma get_next_url_order_general (m : URLManager) :
  url_queue m ≠ [] →
  ∃ e rest,
    get_next_url m
    = (set_url_queue rest m, Some (e_depth e, e_url e, e_parent e))
    ∧ e :: rest ≡ₚ url_queue m
    ∧ (∀ x, x ∈ url_queue m → key_leb (key e) (key x) = true)
    ∧ (∀ k, tier k (url_queue m)
            = (if decide (key e = k) then [e] else []) ++ tier k rest).
Proof.
  intros Hne. unfold get_next_url.
  destruct (url_queue m) as [|x q] eqn:Hq; [done|].
  pose proof (sorted_not_nil (x :: q) Hne) as Hs.
  pose proof (sorted_perm (x :: q)) as Hp.
  pose proof (sorted_sorted (x :: q)) as Hk.
  pose proof (fun k => sorted_tier k (x :: q)) as Ht.
  destruct (sorted (x :: q)) as [|e rest]; [done|].
  exists e, rest. repeat split; try done.
  - intros y Hy. rewrite <- Hp in Hy. inversion Hk as [|? ? Hlb _]; subst.
    apply list_elem_of_In in Hy. destruct Hy as [<-|Hy].
    + apply key_leb_refl.
    + unfold lower_bound in Hlb. rewrite Forall_forall in Hlb.
      apply Hlb. by apply list_elem_of_In.
  - intros k. rewrite <- Ht. simpl.
    destruct (bool_decide_reflect (key e = k)); by destruct (decide _).
Qed.

(** [add_url] puts an accepted entry at the end of the entries of its key. *)
Lemma append_tier (k : Z * Z) (q : list entry) (e : entry) :
  tier k (q ++ [e]) = tier k q ++ (if decide (key e = k) then [e] else []).
Proof.
  unfold tier. rewrite List.filter_app. simpl.
  destruct (bool_decide_reflect (key e = k)); by destruct (decide _).
Qed.

(** The order the dequeueing rule names, on the fields of the entries: [a]
    comes no later than [b] when its priority is lower, or the priorities are
    equal and its depth is not higher; strictly before, when the depth is
    lower. *)
Definition no_later (a b : entry) : Prop :=
  e_priority a < e_priority b
  ∨ (e_priority a = e_priority b ∧ e_depth a <= e_depth b).

Definition strictly_before (a b : entry) : Prop :=
  e_priority a < e_priority b
  ∨ (e_priority a = e_priority b ∧ e_depth a < e_depth b).

(** The entries of priority [p] and depth [d], in the order of the list. *)
Definition ranked (p d : Z) (l : list entry) : list entry :=
  List.filter (fun x => bool_decide (e_priority x = p ∧ e_depth x = d)) l.

Lemma key_leb_no_later (a b : entry) :
  key_leb (key a) (key b) = true ↔ no_later a b.
Proof.
  unfold key_leb, key, no_later. simpl.
  destruct (Z.ltb_spec (e_priority a) (e_priority b)),
    (Z.eqb_spec (e_priority a) (e_priority b)),
    (Z.leb_spec (e_depth a) (e_depth b)); simpl; split; try done;
    intros; try lia; try (by left); right; lia.
Qed.

Lemma tier_ranked (p d : Z) (l : list entry) : tier (p, d) l = ranked p d l.
Proof.
  unfold tier, ranked, key. induction l as [|x l IH]; [done|]. simpl.
  rewrite IH.
  destruct (bool_decide_reflect ((e_priority x, e_depth x) = (p, d))) as [Hk|Hk];
    destruct (bool_decide_reflect (e_priority x = p ∧ e_depth x = d))
      as [Hf|Hf]; try done.
  - destruct Hf. by injection Hk.
  - destruct Hk. destruct Hf as [-> ->]. done.
Qed.

Lemma key_sorted_strongly (l : list entry) :
  key_sorted l → StronglySorted no_later l.
Proof.
  induction 1 as [|a l Hlb _ IH]; constructor; [done|].
  eapply Forall_impl; [exact Hlb|]. intros x Hx. by apply key_leb_no_later.
Qed.

(** Stability, on the fields: sorting keeps the entries of each priority and
    depth in their order. *)
Lemma sorted_ranked (p d : Z) (q : list entry) :
  ranked p d (sorted q) = ranked p d q.
Proof. rewrite <- !tier_ranked. apply sorted_tier. Qed.

(** The first entry a filter keeps splits the list. *)
Lemma filter_head_split {A : Type} (P : A → bool) (l : list A) (x : A)
    (t : list A) :
  List.filter P l = x :: t →
  ∃ before after,
    l = before ++ x :: after
    ∧ Forall (fun y => P y = false) before
    ∧ List.filter P after = t.
Proof.
  induction l as [|y l IH]; simpl; [done|].
  destruct (P y) eqn:Hy.
  - intros [= -> <-]. by exists [], l.
  - intros Hf. destruct (IH Hf) as (before & after & -> & Hb & Ha).
    exists (y :: before), after. repeat split; [|done]. by constructor.
Qed.

(** The four entries of the ordering scenario, whatever their depths: the
    two entries of priority 0 come out first, the one of lower depth before
    the other and the first inserted when the depths are equal, then the
    entry of priority 1, then the entry of priority 2. *)
Lemma dequeue_2010 (m : URLManager) (d1 d2 d3 d4 : Z) (c1 c2 c3 c4 : string)
    (p1 p2 p3 p4 : option string) :
  url_queue m
  = [mkEntry 2 d1 c1 p1; mkEntry 0 d2 c2 p2; mkEntry 1 d3 c3 p3;
     mkEntry 0 d4 c4 p4] →
  dequeue_n 5 m
  = (if d2 <=? d4
     then [Some (d2, c2, p2); Some (d4, c4, p4)]
     else [Some (d4, c4, p4); Some (d2, c2, p2)])
    ++ [Some (d3, c3, p3); Some (d1, c1, p1); None].
Proof.
  intros Hq. unfold dequeue_n. unfold get_next_url at 1. rewrite Hq.
  destruct (d2 <=? d4) eqn:Hd; repeat (cbn; rewrite ?Hd, ?Z.leb_refl);
    reflexivity.
Qed.

(** C4: on a non-empty queue [get_next_url] removes and returns an entry [e]
    of the queue with the lowest priority and, among the entries of that
    priority, the lowest depth; of the entries with that priority and depth it
    is the earliest: every entry before it in the queue has a higher priority,
    or the same priority and a higher depth.  The other entries stay, each
    priority and depth in its order.  ([add_url] appends at the end of the
    queue, so the order in the queue is the order of insertion.)  For
    priorities 2, 0, 1, 0, successive calls return the two entries of priority
    0, then the entry of priority 1, then the entry of priority 2; of the two
    entries of priority 0 the one of lower depth comes first, and at equal
    depths the one inserted first. *)
Theorem get_next_url_order (m : URLManager) :
  url_queue m ≠ [] →
  (∃ e before after rest,
     url_queue m = before ++ e :: after
     ∧ get_next_url m
       = (set_url_queue rest m, Some (e_depth e, e_url e, e_parent e))
     ∧ (∀ x, x ∈ url_queue m → no_later e x)
     ∧ (∀ x, x ∈ before → strictly_before e x)
     ∧ rest ≡ₚ before ++ after
     ∧ (∀ p d, ranked p d rest = ranked p d (before ++ after)))
  ∧ (∀ d1 d2 d3 d4 c1 c2 c3 c4 p1 p2 p3 p4,
       url_queue m
       = [mkEntry 2 d1 c1 p1; mkEntry 0 d2 c2 p2; mkEntry 1 d3 c3 p3;
          mkEntry 0 d4 c4 p4] →
       dequeue_n 4 m
       = (if d2 <=? d4
          then [Some (d2, c2, p2); Some (d4, c4, p4)]
          else [Some (d4, c4, p4); Some (d2, c2, p2)])
         ++ [Some (d3, c3, p3); Some (d1, c1, p1)]).
Proof.
  intros Hne. split.
  - destruct (get_next_url_order_general m Hne)
      as (e & rest & Hget & Hp & Hmin & Ht).
    pose proof (Ht (key e)) as Hk. rewrite decide_True in Hk by done.
    apply filter_head_split in Hk as (before & after & Hq & Hb & Ha).
    exists e, before, after, rest. split; [done|]. split; [done|].
    split; [intros x Hx; by apply key_leb_no_later, Hmin|].
    split; [|split].
    + intros x Hx.
      assert (Hle : no_later e x).
      { apply key_leb_no_later, Hmin. rewrite Hq.
        apply elem_of_app. by left. }
      rewrite Forall_forall in Hb. specialize (Hb x Hx).
      apply bool_decide_eq_false in Hb. unfold key in Hb.
      destruct Hle as [Hlt|[Hpe Hde]]; [by left|]. right. split; [done|].
      destruct (decide (e_depth e = e_depth x)) as [Heq|Hneq]; [|lia].
      destruct Hb. by rewrite Hpe, Heq.
    + rewrite Hq in Hp. rewrite <- Permutation_middle in Hp.
      by apply Permutation_cons_inv in Hp.
    + intros p d. rewrite <- !tier_ranked.
      pose proof (Ht (p, d)) as Hpd. rewrite Hq in Hpd.
      unfold tier in *. rewrite List.filter_app in *. simpl in Hpd.
      destruct (decide (key e = (p, d))) as [Hkey|Hkey].
      * rewrite bool_decide_eq_true_2 in Hpd by done.
        assert (Hnil : List.filter (λ e0, bool_decide (key e0 = (p, d))) before
                       = []).
        { clear -Hb Hkey. rewrite <- Hkey.
          induction Hb as [|y l Hy _ IH]; [done|]. simpl. by rewrite Hy. }
        rewrite Hnil in *. simpl in Hpd. by injection Hpd.
      * rewrite bool_decide_eq_false_2 in Hpd by done. by simpl in Hpd.
  - intros d1 d2 d3 d4 c1 c2 c3 c4 p1 p2 p3 p4 Hq.
    pose proof (dequeue_2010 m d1 d2 d3 d4 c1 c2 c3 c4 p1 p2 p3 p4 Hq) as H5.
    rewrite <- dequeue_n_take, H5. by destruct (d2 <=? d4).
Qed.

(** Four URLs enqueued in a fresh frontier with priorities 2, 0, 1, 0, the
    second entry of priority 0 at a lower depth than the first. *)
Definition queued_2010 : URLManager :=
  let add m url depth prio :=
    fst (@add_url no_bracketed_host m url depth None (Some prio)) in
  add (add (add (add (EnqueueProps.example_manager 3 500)
                   "http://example.com/low" 0 2)
              "http://example.com/first" 2 0)
         "http://example.com/mid" 1 1)
    "http://example.com/second" 1 0.

Lemma get_next_url_order_witness :
  dequeue_n 4 queued_2010
  = [Some (1, "http://example.com/second", None);
     Some (2, "http://example.com/first", None);
     Some (1, "http://example.com/mid", None);
     Some (0, "http://example.com/low", None)]%string.
Proof.
  assert (Hne : url_queue queued_2010 ≠ [])
    by (intros Hq; vm_compute in Hq; discriminate Hq).
  apply (proj2 (get_next_url_order queued_2010 Hne) 0 2 1 1).
  vm_compute. reflexivity.
Defined.

End DequeueProps.

(** ** Invariants of the frontier *)

Module Invariants.
Import PyStr Urllib Frontier Scraper.

(** The frontier is within the limits of a crawl: the visited set is within
    the page budget, the pending entries are within the depth limit, and the
    depth limit the manager enforces is the one of the crawl or a lower
    one. *)
Definition within_scope (depth_limit page_budget : Z) (m : URLManager) : Prop :=
  Z.of_nat (size (visited_urls m)) <= page_budget
  ∧ Forall (fun e => e_depth e <= depth_limit) (url_queue m)
  ∧ max_depth m <= depth_limit.

(** The same for a snapshot, with the defaults of [load_state]. *)
Definition snapshot_within_scope (depth_limit page_budget : Z)
    (state : Snapshot) : Prop :=
  Z.of_nat (size (list_to_set (default [] (snap_visited_urls state))
                  : gset string)) <= page_budget
  ∧ Forall (fun e => e_depth e <= depth_limit)
      (default [] (snap_url_queue state))
  ∧ default depth_limit (snap_max_depth state) <= depth_limit.

(** The depth of a tuple [get_next_url] returned. *)
Definition depth_of (d : Z * string * option string) : Z := fst (fst d).

(** The dict [save_state] returned for the frontier [m], as it reads at a
    later time: the lists and the limits are the copies made by the call; the
    values under [failed_urls] and [stats] are the dicts of the manager, with
    the contents they have by then. *)
Definition aged_snapshot (m later_failed later_stats : URLManager) : Snapshot :=
  mkSnapshot (Some (base_domain m)) (Some (max_depth m)) (Some (max_pages m))
    (Some (elements (visited_urls m))) (Some (elements (url_hashes m)))
    (Some (failed_urls later_failed)) (Some (url_queue m))
    (Some (stats later_stats)) ∅.

Section Generic.
Context `{HostSyntax} {case_mapping : CaseMapping}.

Lemma add_url_cases m url depth parent prio :
  (∃ st, add_url m url depth parent prio = (set_stats st m, false))
  ∨ (∃ c,
       (depth <= max_depth m)
       ∧ (_url_hash c ∉ url_hashes m)
       ∧ (add_url m url depth parent prio
          = (set_stats (incr_queued (stats m))
               (set_url_hashes ({[_url_hash c]} ∪ url_hashes m)
                  (set_url_queue
                     (url_queue m ++ [mkEntry (default 3 prio) depth c parent])
                     m)),
             true))).
Proof.
  destruct (decide (classify m url depth parent = Accepted)) as [Ha|Hn].
  - right.
    destruct (EnqueueProps.add_url_accepted m url depth parent prio Ha)
      as (c & Hc & Hf & Heq).
    exists c. repeat split; try done.
    revert Ha. unfold classify. rewrite Hc.
    destruct (truthy c); simpl; [|done].
    destruct (decide _); [done|].
    destruct (depth >? max_depth m) eqn:Hgt; [done|]. lia.
  - left. eexists. by apply EnqueueProps.add_url_skipped.
Qed.

Lemma add_url_within_scope dl pb m url depth parent prio :
  within_scope dl pb m →
  within_scope dl pb (fst (add_url m url depth parent prio)).
Proof.
  intros (Hv & Hq & Hd).
  destruct (add_url_cases m url depth parent prio)
    as [[st ->]|(c & Hle & _ & ->)]; simpl.
  - done.
  - repeat split; try done. simpl.
    apply Forall_app. split; [done|]. repeat constructor. simpl. lia.
Qed.

Lemma add_url_queue_indexed m url depth parent prio :
  queue_indexed m → queue_indexed (fst (add_url m url depth parent prio)).
Proof.
  intros Hq.
  destruct (add_url_cases m url depth parent prio)
    as [[st ->]|(c & _ & _ & ->)]; simpl; [done|].
  unfold queue_indexed. simpl. apply Forall_app. split.
  - eapply Forall_impl; [exact Hq|]. simpl. intros e He. set_solver.
  - repeat constructor. simpl. set_solver.
Qed.

Lemma get_next_url_cases m :
  (url_queue m = [] ∧ get_next_url m = (m, None))
  ∨ (∃ e rest,
       e :: rest ≡ₚ url_queue m
       ∧ get_next_url m
         = (set_url_queue rest m, Some (e_depth e, e_url e, e_parent e))).
Proof.
  destruct (url_queue m) as [|x q] eqn:Hq.
  - left. unfold get_next_url. by rewrite Hq.
  - right.
    assert (Hne : url_queue m ≠ []) by by rewrite Hq.
    destruct (DequeueProps.get_next_url_order_general m Hne)
      as (e & rest & Hg & Hp & _).
    exists e, rest. by rewrite <- Hq.
Qed.

Lemma get_next_url_within_scope dl pb m :
  within_scope dl pb m →
  within_scope dl pb (fst (get_next_url m))
  ∧ ∀ d, snd (get_next_url m) = Some d → depth_of d <= dl.
Proof.
  intros (Hv & Hq & Hd).
  destruct (get_next_url_cases m) as [[_ ->]|(e & rest & Hp & ->)]; simpl.
  - done.
  - rewrite <- Hp in Hq. inversion Hq; subst.
    repeat split; try done. by intros d [= <-].
Qed.

Lemma get_next_url_queue_indexed m :
  queue_indexed m → queue_indexed (fst (get_next_url m)).
Proof.
  intros Hq.
  destruct (get_next_url_cases m) as [[_ ->]|(e & rest & Hp & ->)]; simpl.
  - done.
  - unfold queue_indexed in *. rewrite <- Hp in Hq. by inversion Hq.
Qed.

Lemma mark_visited_size m url :
  (size (visited_urls (mark_visited m url)) <= S (size (visited_urls m)))%nat
  ∧ url_queue (mark_visited m url) = url_queue m
  ∧ url_hashes (mark_visited m url) = url_hashes m
  ∧ max_depth (mark_visited m url) = max_depth m.
Proof.
  unfold mark_visited.
  destruct (normalize_url url None) as [n|]; [|by auto with lia].
  destruct (truthy n); [|by auto with lia]. simpl. repeat split; try done.
  destruct (decide (n ∈ visited_urls m)) as [Hin|Hin].
  - rewrite (subseteq_union_1_L {[n]} (visited_urls m))
      by (by apply singleton_subseteq_l).
    lia.
  - rewrite size_union by set_solver. rewrite size_singleton. lia.
Qed.

Lemma mark_failed_frame m url error :
  visited_urls (mark_failed m url error) = visited_urls m
  ∧ url_queue (mark_failed m url error) = url_queue m
  ∧ url_hashes (mark_failed m url error) = url_hashes m
  ∧ max_depth (mark_failed m url error) = max_depth m.
Proof.
  unfold mark_failed.
  destruct (normalize_url url None) as [n|]; [|done].
  by destruct (truthy n).
Qed.

(** The frontiers a program reaches from [URLManager(...)] with the methods
    of the class, a checkpoint being a dict that [save_state] made of such a
    frontier.  [save_state] copies the sets and the queue but returns the
    [failed_urls] and [stats] dicts of the manager themselves, so when the
    checkpoint is loaded these two hold what the calls since have put in
    them: the failed map and the counters of some frontier reached ([mf] and
    [ms]; [m] itself when the checkpoint is loaded at once, or went through
    the progress file, which copies). *)
Inductive reachable : URLManager → Prop :=
  | reach_init base max_depth max_pages m :
      init base max_depth max_pages = Some m → reachable m
  | reach_add_url m url depth parent prio :
      reachable m → reachable (fst (add_url m url depth parent prio))
  | reach_get_next_url m :
      reachable m → reachable (fst (get_next_url m))
  | reach_mark_visited m url :
      reachable m → reachable (mark_visited m url)
  | reach_mark_failed m url error :
      reachable m → reachable (mark_failed m url error)
  | reach_load_state m mf ms m0 :
      reachable m → reachable mf → reachable ms → reachable m0 →
      reachable (load_state m0 (aged_snapshot m mf ms)).

(** In a reachable frontier every pending URL is in the dedup index. *)
Lemma reachable_queue_indexed m : reachable m → queue_indexed m.
Proof.
  induction 1 as [base d p m Hi|m url depth parent prio _ IH|m _ IH
                 |m url _ IH|m url error _ IH|m mf ms m0 _ IH _ _ _ _ _ _].
  - revert Hi. unfold init. destruct (_normalize_domain base); [|done].
    intros [= <-]. apply Forall_nil_2.
  - by apply add_url_queue_indexed.
  - by apply get_next_url_queue_indexed.
  - destruct (mark_visited_size m url) as (_ & Hq & Hh & _).
    unfold queue_indexed. by rewrite Hq, Hh.
  - destruct (mark_failed_frame m url error) as (_ & Hq & Hh & _).
    unfold queue_indexed. by rewrite Hq, Hh.
  - destruct m. unfold queue_indexed, load_state, aged_snapshot in *.
    simpl in *. by rewrite list_to_set_elements_L.
Qed.

End Generic.
End Invariants.

(** ** The crawl loop *)

Module CrawlProps.
Import PyStr Urllib Frontier Scraper Invariants.

(** The scope property of one run of [scrape_ngo]: in the state the run
    reaches against any answers of the collaborators, the visited set is
    within the page limit of the run, and no tuple [get_next_url] returned on
    the way has a depth above its depth limit.  The limits are the ones the
    run computes: the argument, or the configured default. *)
Definition scope_invariant `{HostSyntax} {case_mapping : CaseMapping}
    (cfg : Config) (s : Scraper)
    (seed_urls : list string) (max_depth max_pages : option Z) (resume : bool)
    (answers : list fetched) : Prop :=
  ∀ s' trace,
    scrape_ngo cfg s seed_urls max_depth max_pages resume answers
    = Some (s', trace) →
    Z.of_nat (size (visited_urls (url_manager s')))
    <= int_or max_pages (max_pages_per_site cfg)
    ∧ Forall (fun d => depth_of d <= int_or max_depth (crawl_max_depth cfg))
        trace.

Section Generic.
Context `{HostSyntax} {case_mapping : CaseMapping}.
Variable cfg : Config.
Variables depth_limit page_budget : Z.

Local Abbreviation inv := (within_scope depth_limit page_budget).

Lemma fold_add_url_within_scope {A} (f : A → string * Z * option string * option Z)
    (l : list A) (m : URLManager) :
  inv m →
  inv (fold_left
         (fun m x =>
            let '(url, depth, parent, prio) := f x in
            fst (add_url m url depth parent prio)) l m).
Proof.
  revert m. induction l as [|x l IH]; intros m Hm; simpl; [done|].
  apply IH. destruct (f x) as [[[url depth] parent] prio].
  by apply add_url_within_scope.
Qed.

Lemma enqueue_documents_within_scope m url depth documents :
  inv m → inv (enqueue_documents m url depth documents).
Proof.
  intros Hm. unfold enqueue_documents.
  by apply (fold_add_url_within_scope
              (fun doc => (doc, depth, Some url, Some 0))).
Qed.

Lemma enqueue_links_within_scope m url depth links :
  inv m → inv (enqueue_links cfg m url depth links).
Proof.
  unfold enqueue_links.
  generalize (if negb (follow_external_links cfg)
              then List.filter link_internal links else links).
  intros l. revert m. induction l as [|x l IH]; intros m Hm; simpl; [done|].
  apply IH. destruct (should_exclude_url _ _); [done|].
  by apply add_url_within_scope.
Qed.

Lemma process_html_page_within_scope m url depth html_len links documents :
  inv m → inv (_process_html_page cfg m url depth html_len links documents).
Proof.
  intros Hm. unfold _process_html_page.
  destruct (html_len <? min_content_length cfg); [done|].
  apply enqueue_documents_within_scope.
  destruct (extract_links cfg); [|done].
  by apply enqueue_links_within_scope.
Qed.

Lemma mark_visited_within_scope m url :
  Z.of_nat (size (visited_urls m)) < page_budget →
  inv m → inv (mark_visited m url).
Proof.
  intros Hlt (Hv & Hq & Hd). unfold within_scope.
  destruct (mark_visited_size m url) as (Hs & -> & _ & ->).
  repeat split; try done. lia.
Qed.

Lemma mark_failed_within_scope m url error :
  inv m → inv (mark_failed m url error).
Proof.
  intros (Hv & Hq & Hd). unfold within_scope.
  destruct (mark_failed_frame m url error) as (-> & -> & _ & ->).
  done.
Qed.

(** The manager of either result of a turn of the loop. *)
Definition either (r : Scraper + Scraper) : Scraper :=
  match r with inl s => s | inr s => s end.

Lemma loop_body_within_scope answer s :
  inv (url_manager s) →
  inv (url_manager (either (fst (loop_body cfg page_budget answer s))))
  ∧ ∀ d, snd (loop_body cfg page_budget answer s) = Some d →
         depth_of d <= depth_limit.
Proof.
  intros Hs. unfold loop_body.
  destruct (get_next_url_within_scope depth_limit page_budget
              (url_manager s) Hs) as [Hm Hd].
  destruct (get_next_url (url_manager s)) as [m [[[depth url] parent]|]];
    simpl in *; [|done].
  destruct (Z.of_nat (size (visited_urls m)) >=? page_budget) eqn:Hge;
    simpl; [by split|].
  assert (Hlt : Z.of_nat (size (visited_urls m)) < page_budget) by lia.
  destruct (is_visited m url); simpl; [by split|].
  destruct answer as [|error|c]; simpl.
  - split; [|done]. by apply mark_visited_within_scope.
  - split; [|done]. apply mark_visited_within_scope.
    + by destruct (mark_failed_frame m url error) as (-> & _).
    + by apply mark_failed_within_scope.
  - split; [|done].
    assert (Hp : inv (match c with
                      | Html html_len links documents =>
                          _process_html_page cfg (mark_visited m url) url depth
                            html_len links documents
                      | _ => mark_visited m url
                      end)).
    { destruct c; try by apply mark_visited_within_scope.
      apply process_html_page_within_scope.
      by apply mark_visited_within_scope. }
    by destruct (save_progress cfg && _).
Qed.

Lemma loop_within_scope answers s :
  inv (url_manager s) →
  inv (url_manager (fst (loop cfg page_budget answers s)))
  ∧ Forall (fun d => depth_of d <= depth_limit)
      (snd (loop cfg page_budget answers s)).
Proof.
  revert s. induction answers as [|answer answers IH]; intros s Hs; simpl.
  { by split. }
  destruct (loop_body_within_scope answer s Hs) as [Hb Hd].
  destruct (loop_body cfg page_budget answer s) as [[s'|s'] d]; simpl in *.
  - destruct (IH s' Hb) as [Hl Ht].
    destruct (loop cfg page_budget answers s') as [s'' ds]. simpl in *.
    split; [done|]. apply Forall_app. split; [|done].
    destruct d as [d|]; simpl; [|done]. repeat constructor. by apply Hd.
  - split; [done|]. destruct d as [d|]; simpl; [|done].
    repeat constructor. by apply Hd.
Qed.

Lemma init_within_scope base m :
  0 <= page_budget →
  init base depth_limit page_budget = Some m → inv m.
Proof.
  intros Hp. unfold init. destruct (_normalize_domain base); [|done].
  intros [= <-]. repeat split; simpl; try done; lia.
Qed.

Lemma load_state_within_scope m state :
  max_depth m = depth_limit →
  snapshot_within_scope depth_limit page_budget state →
  inv (load_state m state).
Proof. intros Hm (Hv & Hq & Hd). unfold load_state. by rewrite Hm. Qed.

Lemma start_within_scope s seed_urls resume s0 :
  0 <= page_budget →
  (resume = true →
   ∀ state, progress_file s = Some state →
            snapshot_within_scope depth_limit page_budget state) →
  start cfg s seed_urls depth_limit page_budget resume = Some s0 →
  inv (url_manager s0).
Proof.
  intros Hp Hr. unfold start.
  destruct (head seed_urls) as [base_url|]; [|done]. simpl.
  destruct (urlparse base_url) as [parsed|]; [|done]. simpl.
  destruct (init (netloc parsed) depth_limit page_budget) as [m|] eqn:Hi;
    [|done].
  simpl. intros [= <-]. simpl.
  pose proof (init_within_scope _ _ Hp Hi) as Hm.
  assert (Hmd : max_depth m = depth_limit).
  { revert Hi. unfold init. destruct (_normalize_domain _); [|done].
    by intros [= <-]. }
  set (s1 := if resume && save_progress cfg then _ else _).
  assert (Hs1 : inv (url_manager s1)).
  { subst s1. destruct resume; simpl; [|done].
    destruct (save_progress cfg); simpl; [|done].
    unfold _load_checkpoint. simpl.
    destruct (progress_file s) as [state|] eqn:Hpf; simpl; [|done].
    apply load_state_within_scope; [done|]. by apply Hr. }
  destruct (queue_size (url_manager s1) =? 0); [|done].
  by apply (fold_add_url_within_scope (fun seed => (seed, 0, None, Some 0))).
Qed.

(** The start and the loop together. *)
Lemma run_within_scope (s s0 : Scraper) (seed_urls : list string)
    (resume : bool) (answers : list fetched) :
  0 <= page_budget →
  (resume = true →
   ∀ state, progress_file s = Some state →
            snapshot_within_scope depth_limit page_budget state) →
  start cfg s seed_urls depth_limit page_budget resume = Some s0 →
  Z.of_nat
    (size (visited_urls (url_manager (loop cfg page_budget answers s0).1)))
  <= page_budget
  ∧ Forall (fun d => depth_of d <= depth_limit)
      (loop cfg page_budget answers s0).2.
Proof.
  intros Hp Hr Hs0.
  pose proof (start_within_scope _ _ _ _ Hp Hr Hs0) as H0.
  destruct (loop_within_scope answers s0 H0) as [(Hv & _) Ht]. by split.
Qed.

(** The snapshot of a frontier that is within the limits is within them. *)
Lemma save_state_within_scope m :
  inv m → max_depth m = depth_limit →
  snapshot_within_scope depth_limit page_budget (save_state m).
Proof.
  intros (Hv & Hq & Hd) Hm. unfold snapshot_within_scope, save_state. simpl.
  rewrite list_to_set_elements_L. repeat split; try done.
Qed.

End Generic.

(** C2, as amended: in a run of [scrape_ngo] with a page limit that is not
    negative, which starts fresh or resumes from a checkpoint whose visited
    set, pending entries and stored depth limit are within the limits of the
    run (as is a checkpoint saved by a run with the same limits), the visited
    set never exceeds [max_pages] and [get_next_url] never returns an entry
    deeper than [max_depth], whatever the collaborators answer. *)
Theorem crawl_within_scope `{HostSyntax} {case_mapping : CaseMapping}
    (cfg : Config) (s : Scraper)
    (seed_urls : list string) (max_depth max_pages : option Z)
    (resume : bool) (answers : list fetched) :
  0 <= int_or max_pages (max_pages_per_site cfg) →
  (resume = true →
   ∀ state, progress_file s = Some state →
            snapshot_within_scope
              (int_or max_depth (crawl_max_depth cfg))
              (int_or max_pages (max_pages_per_site cfg)) state) →
  scope_invariant cfg s seed_urls max_depth max_pages resume answers.
Proof.
  intros Hp Hr s' trace. unfold scrape_ngo.
  destruct (start cfg s seed_urls _ _ resume) as [s0|] eqn:Hs0; [|done].
  simpl. intros [= Heq].
  destruct (run_within_scope cfg _ _ s s0 seed_urls resume answers Hp Hr Hs0)
    as [Hv Ht].
  rewrite Heq in Hv, Ht. by split.
Qed.

(** *** Runs on example.org *)

(** The size of the visited set a run ends with, and the depths of the
    tuples [get_next_url] returned. *)
Definition observed (r : option (Scraper * list (Z * string * option string)))
  : option (nat * list Z) :=
  (λ r, (size (visited_urls (url_manager (fst r))), map depth_of (snd r)))
    <$> r.

Lemma scope_invariant_observed `{HostSyntax} {case_mapping : CaseMapping}
    cfg s seed_urls max_depth max_pages resume answers n depths :
  scope_invariant cfg s seed_urls max_depth max_pages resume answers →
  observed (scrape_ngo cfg s seed_urls max_depth max_pages resume answers)
  = Some (n, depths) →
  Z.of_nat n <= int_or max_pages (max_pages_per_site cfg)
  ∧ Forall (fun d => d <= int_or max_depth (crawl_max_depth cfg)) depths.
Proof.
  intros Hs. unfold observed, scope_invariant in *.
  destruct (scrape_ngo cfg s seed_urls max_depth max_pages resume answers)
    as [[s' t]|]; [|done].
  simpl. intros [= <- <-]. destruct (Hs s' t eq_refl) as [Hv Ht].
  split; [done|]. by apply Forall_fmap.
Qed.

Definition example_config : Config :=
  mkConfig 3 500 true false [] (mkPatterns [] [] []) 0 true 1.

Definition seed_page : content :=
  Html 500
    [mkLink "https://example.org/a" true; mkLink "/b" true;
     mkLink "https://example.org/c/" true;
     mkLink "https://elsewhere.example/" false]%string
    [].

Definition page_a : content :=
  Html 500 [mkLink "/a/x" true]%string [].

Definition new_scraper : Scraper :=
  mkScraper (EnqueueProps.example_manager 0 0) 0 None.

(** A first run with [max_depth = 2] and [max_pages = 10], stopped after two
    pages: the seed page and one of its links are fetched, and a checkpoint
    is saved after each. *)
Definition first_run : option (Scraper * list (Z * string * option string)) :=
  @scrape_ngo no_bracketed_host ascii_case example_config new_scraper
    ["https://example.org/"]%string (Some 2) (Some 10) false
    [Fetched seed_page; Fetched page_a].

Example first_run_result :
  (λ r, (visited_urls (url_manager (fst r)),
         url_queue (url_manager (fst r)), snd r)) <$> first_run
  = Some ({["https://example.org/"; "https://example.org/a"]},
          [mkEntry 3 1 "https://example.org/b" (Some "https://example.org/");
           mkEntry 3 1 "https://example.org/c" (Some "https://example.org/");
           mkEntry 3 2 "https://example.org/a/x"
             (Some "https://example.org/a")],
          [(0, "https://example.org/", None);
           (1, "https://example.org/a", Some "https://example.org/")])%string.
Proof. vm_compute. reflexivity. Qed.

(** The seed page of the end-to-end scenario: with [max_depth = 1], [max_pages
    = 10] and external links not followed, its three internal links are
    enqueued at depth 1 and its external link is not. *)
Example seed_page_links :
  (λ r, map (λ e, (e_depth e, e_url e)) (url_queue (url_manager (fst r))))
    <$> @scrape_ngo no_bracketed_host ascii_case example_config new_scraper
          ["https://example.org/"]%string (Some 1) (Some 10) false [Fetched seed_page]
  = Some [(1, "https://example.org/a"); (1, "https://example.org/b");
          (1, "https://example.org/c")]%string.
Proof. vm_compute. reflexivity. Qed.

Definition after_first_run : Scraper := from_option fst new_scraper first_run.

(** C2, counterexample: resumed from the checkpoint of the first run with
    [max_pages = 1], the run starts with two visited pages; resumed with
    [max_depth = 1], [get_next_url] returns the pending entry of depth 2. *)
Lemma resumed_run_outside_scope :
  observed (@scrape_ngo no_bracketed_host ascii_case example_config
                after_first_run
              ["https://example.org/"]%string (Some 2) (Some 1) true [])
  = Some (2%nat, [])
  ∧ ¬ @scope_invariant no_bracketed_host ascii_case example_config
        after_first_run
        ["https://example.org/"]%string (Some 2) (Some 1) true []
  ∧ observed (@scrape_ngo no_bracketed_host ascii_case example_config
                after_first_run
                ["https://example.org/"]%string (Some 1) (Some 10) true
                [Blocked; Blocked; Blocked])
    = Some (5%nat, [1; 1; 2])
  ∧ ¬ @scope_invariant no_bracketed_host ascii_case example_config
        after_first_run
        ["https://example.org/"]%string (Some 1) (Some 10) true [Blocked; Blocked; Blocked].
Proof.
  assert (H1 : observed
                 (@scrape_ngo no_bracketed_host ascii_case example_config
                after_first_run
                    ["https://example.org/"]%string (Some 2) (Some 1) true [])
               = Some (2%nat, [])) by (vm_compute; reflexivity).
  assert (H2 : observed
                 (@scrape_ngo no_bracketed_host ascii_case example_config
                after_first_run
                    ["https://example.org/"]%string (Some 1) (Some 10) true
                    [Blocked; Blocked; Blocked])
               = Some (5%nat, [1; 1; 2])) by (vm_compute; reflexivity).
  split; [exact H1|]. split; [|split; [exact H2|]].
  - intros Hs.
    destruct (scope_invariant_observed _ _ _ _ _ _ _ _ _ Hs H1) as [Hv _].
    simpl in Hv. lia.
  - intros Hs.
    destruct (scope_invariant_observed _ _ _ _ _ _ _ _ _ Hs H2) as [_ Hd].
    inversion Hd as [|? ? _ Hd']. inversion Hd' as [|? ? _ Hd''].
    inversion Hd'' as [|? ? Hle _]. simpl in Hle. lia.
Qed.

Lemma Forall_depths (queue : list entry) (limit : Z) :
  Forall (fun d => d <= limit) (e_depth <$> queue) →
  Forall (fun e => e_depth e <= limit) queue.
Proof.
  induction queue as [|e queue IH]; intros Hd; [constructor|].
  inversion Hd as [|? ? He Hq]. constructor; [exact He|exact (IH Hq)].
Qed.

Example checkpoint_of_first_run :
  progress_file after_first_run
  = Some (save_state (url_manager after_first_run)).
Proof. vm_compute. reflexivity. Qed.

(** The checkpoint of the first run is within the limits of that run. *)
Lemma checkpoint_of_first_run_within_scope (state : Snapshot) :
  progress_file after_first_run = Some state →
  snapshot_within_scope 2 10 state.
Proof.
  intros Hp. rewrite checkpoint_of_first_run in Hp.
  injection Hp as <-.
  apply save_state_within_scope; [|reflexivity].
  assert (Hv : size (visited_urls (url_manager after_first_run)) = 2%nat)
    by (vm_compute; reflexivity).
  unfold within_scope. rewrite Hv.
  repeat split; [lia| |vm_compute; discriminate].
  assert (Hq : e_depth <$> url_queue (url_manager after_first_run)
               = [1; 1; 2]) by (vm_compute; reflexivity).
  assert (Hd : Forall (fun d => d <= 2)
                 (e_depth <$> url_queue (url_manager after_first_run)))
    by (rewrite Hq; repeat constructor; lia).
  exact (Forall_depths _ _ Hd).
Qed.

(** The first run, and a run resumed from its checkpoint with the same
    limits. *)
Lemma crawl_within_scope_witness :
  @scope_invariant no_bracketed_host ascii_case example_config new_scraper
    ["https://example.org/"]%string (Some 2) (Some 10) false
    [Fetched seed_page; Fetched page_a]
  ∧ @scope_invariant no_bracketed_host ascii_case example_config
        after_first_run
      ["https://example.org/"]%string (Some 2) (Some 10) true
      [Blocked; Fetched Document; Failed "timeout"%string].
Proof.
  split.
  - apply (@crawl_within_scope no_bracketed_host ascii_case).
    + simpl. lia.
    + intros Hr. discriminate Hr.
  - apply (@crawl_within_scope no_bracketed_host ascii_case).
    + simpl. lia.
    + intros _ state Hp. simpl.
      exact (checkpoint_of_first_run_within_scope state Hp).
Defined.

End CrawlProps.

(** ** Percent-encoding and query strings *)

Module QueryProps.
Import PyStr Urllib StrFacts.

Local Arguments String.append : simpl nomatch.

(** What [quote_plus] writes: unreserved characters, [+] and [%]. *)
Definition quoted_char (c : ascii) : bool :=
  always_safe c || ch_eqb c "+" || ch_eqb c "%".

Ltac each_char c :=
  destruct c as [[] [] [] [] [] [] [] []]; reflexivity.

Lemma quote_plus_cons_quoted (c : ascii) (s : string) :
  all_chars quoted_char (quote_plus (String c s))
  = all_chars quoted_char (quote_plus s).
Proof. each_char c. Qed.

Lemma quote_plus_quoted (s : string) :
  all_chars quoted_char (quote_plus s) = true.
Proof.
  induction s as [|c s IH]; [done|]. by rewrite quote_plus_cons_quoted.
Qed.

Lemma unquote_plus_cons (c : ascii) (s : string) :
  unquote_plus (quote_plus (String c s)) = String c (unquote_plus (quote_plus s)).
Proof. unfold unquote_plus. each_char c. Qed.

(** Decoding what [quote_plus] wrote gives the string back. *)
Lemma unquote_plus_quote_plus (s : string) : unquote_plus (quote_plus s) = s.
Proof.
  induction s as [|c s IH]; [done|]. by rewrite unquote_plus_cons, IH.
Qed.

End QueryProps.

(** ** Query strings *)

Module SortQueryProps.
Import PyStr Urllib StrFacts QueryProps.

(** The pairs of a dict, each key with each of its values, in order. *)
Definition flat_pairs (d : qdict) : list (string * string) :=
  flat_map (fun kv => map (pair (fst kv)) (snd kv)) d.

(** One [key=value] piece of an encoded query. *)
Definition encode_pair (kv : string * string) : string :=
  quote_plus (fst kv) +:+ "=" +:+ quote_plus (snd kv).

(** A dict as [parse_qs] builds it: distinct keys, no empty list of values. *)
Definition well_formed (d : qdict) : Prop :=
  NoDup (map fst d) ∧ Forall (fun kv => snd kv ≠ []) d.

(** Every character is one [urlencode] writes. *)
Definition encoded_char (c : ascii) : bool :=
  quoted_char c || ch_eqb c "=" || ch_eqb c "&".

Lemma urlencode_pairs (d : qdict) :
  urlencode d = join "&" (map encode_pair (flat_pairs d)).
Proof.
  unfold urlencode, flat_pairs. f_equal.
  induction d as [|[k vs] d IH]; [done|]. simpl.
  rewrite List.map_app, <- IH. f_equal.
  by rewrite List.map_map.
Qed.

Lemma split_free (c : ascii) (a : string) :
  contains c a = false → split c a = [a].
Proof.
  unfold contains. induction a as [|x a IH]; [done|]. simpl.
  intros [Hx Ha]%orb_false_iff.
  rewrite ch_eqb_sym in Hx. by rewrite Hx, (IH Ha).
Qed.

Lemma split_app (c : ascii) (a b : string) :
  contains c a = false → split c (a +:+ String c b) = a :: split c b.
Proof.
  unfold contains. induction a as [|x a IH].
  - intros _. rewrite str_app_nil_l. simpl. by rewrite ch_eqb_refl.
  - rewrite str_app_cons. simpl.
    intros [Hx Ha]%orb_false_iff.
    rewrite ch_eqb_sym in Hx. by rewrite Hx, (IH Ha).
Qed.

Lemma split_join (c : ascii) (pieces : list string) :
  pieces ≠ [] →
  Forall (fun p => contains c p = false) pieces →
  split c (join (String c "") pieces) = pieces.
Proof.
  intros Hne Hf. induction Hf as [|p ps Hp Hps IH]; [done|].
  destruct ps as [|p' ps].
  - simpl. by apply split_free.
  - change (join (String c "") (p :: p' :: ps))
      with (p +:+ String c "" +:+ join (String c "") (p' :: ps)).
    rewrite str_app_cons, str_app_nil_l, split_app by done.
    by rewrite IH.
Qed.

Lemma join_truthy (sep : string) (pieces : list string) :
  pieces ≠ [] → Forall (fun p => truthy p = true) pieces →
  truthy (join sep pieces) = true.
Proof.
  intros Hne Hf. destruct Hf as [|p ps Hp _]; [done|].
  destruct p as [|x p]; [done|]. by destruct ps.
Qed.

Lemma quoted_free (c : ascii) (s : string) :
  quoted_char c = false → contains c (quote_plus s) = false.
Proof.
  intros Hc. apply (all_chars_has_char _ quoted_char).
  - intros x Hx. unfold ch_eqb.
    destruct (Ascii.eqb_spec c x) as [->|]; [congruence|done].
  - apply quote_plus_quoted.
Qed.

Lemma encode_pair_split (kv : string * string) :
  truthy (encode_pair kv) = true
  ∧ contains "&" (encode_pair kv) = false
  ∧ split_once "=" (encode_pair kv)
    = (quote_plus (fst kv), Some (quote_plus (snd kv))).
Proof.
  unfold encode_pair. repeat split.
  - destruct (quote_plus (fst kv)); done.
  - unfold contains. rewrite !has_char_app.
    pose proof (quoted_free "&" (fst kv) eq_refl) as H1.
    pose proof (quoted_free "&" (snd kv) eq_refl) as H2.
    unfold contains in H1, H2. by rewrite H1, H2.
  - unfold split_once.
    rewrite (break_unique (ch_eqb "=") (quote_plus (fst kv))
               ("=" +:+ quote_plus (snd kv))); [done| |done].
    apply (quoted_free "=" (fst kv) eq_refl).
Qed.

(** Parsing an encoded list of pairs gives the pairs back. *)
Lemma parse_qsl_encoded (ps : list (string * string)) :
  parse_qsl (join "&" (map encode_pair ps)) = ps.
Proof.
  unfold parse_qsl. destruct (decide (ps = [])) as [->|Hne]; [done|].
  assert (Hne' : map encode_pair ps ≠ []) by by destruct ps.
  rewrite join_truthy; [|done|].
  2:{ apply Forall_forall. intros p [kv [<- _]]%list_elem_of_In%in_map_iff.
      apply encode_pair_split. }
  rewrite split_join; [|done|].
  2:{ apply Forall_forall. intros p [kv [<- _]]%list_elem_of_In%in_map_iff.
      apply encode_pair_split. }
  clear Hne Hne'. induction ps as [|[k v] ps IH]; [done|]. simpl.
  destruct (encode_pair_split (k, v)) as (Ht & _ & Hs).
  rewrite Ht, Hs. simpl. by rewrite !unquote_plus_quote_plus, IH.
Qed.

Lemma dict_add_new (k v : string) (d : qdict) :
  k ∉ map fst d → dict_add k v d = d ++ [(k, [v])].
Proof.
  induction d as [|[k' vs] d IH]; [done|]. simpl.
  intros Hk. apply not_elem_of_cons in Hk as [Hne Hk].
  destruct (String.eqb_spec k' k) as [->|]; [done|]. by rewrite IH.
Qed.

Lemma dict_add_last (k v : string) (vs : list string) (d : qdict) :
  k ∉ map fst d → dict_add k v (d ++ [(k, vs)]) = d ++ [(k, vs ++ [v])].
Proof.
  induction d as [|[k' vs'] d IH]; simpl.
  - intros _. by rewrite String.eqb_refl.
  - intros Hk. apply not_elem_of_cons in Hk as [Hne Hk].
    destruct (String.eqb_spec k' k) as [->|]; [done|]. by rewrite IH.
Qed.

Definition add_pair (d : qdict) (nv : string * string) : qdict :=
  dict_add (fst nv) (snd nv) d.

Lemma fold_values (k : string) (vs vs' : list string) (d : qdict) :
  k ∉ map fst d →
  fold_left add_pair (map (pair k) vs') (d ++ [(k, vs)])
  = d ++ [(k, vs ++ vs')].
Proof.
  intros Hk. revert vs. induction vs' as [|v vs' IH]; intros vs; simpl.
  - by rewrite List.app_nil_r.
  - change (add_pair (d ++ [(k, vs)]) (k, v))
      with (dict_add k v (d ++ [(k, vs)])).
    rewrite dict_add_last by done.
    rewrite IH. by rewrite <- List.app_assoc.
Qed.

(** Grouping the pairs of a well-formed dict gives the dict back. *)
Lemma fold_flat_pairs (d1 d2 : qdict) :
  well_formed (d1 ++ d2) →
  fold_left add_pair (flat_pairs d2) d1 = d1 ++ d2.
Proof.
  revert d1. induction d2 as [|[k vs] d2 IH]; intros d1 [Hnd Hne]; simpl.
  - by rewrite List.app_nil_r.
  - unfold flat_pairs. simpl. rewrite fold_left_app.
    assert (Hk : k ∉ map fst d1).
    { rewrite map_app in Hnd. simpl in Hnd.
      apply NoDup_app in Hnd as (_ & Hd & _).
      intros Hin. apply (Hd k Hin). left. }
    assert (Hvs : vs ≠ []).
    { rewrite Forall_app in Hne. destruct Hne as [_ Hne].
      by inversion Hne. }
    destruct vs as [|v vs]; [done|]. simpl.
    change (add_pair d1 (k, v)) with (dict_add k v d1).
    rewrite dict_add_new by done.
    rewrite fold_values by done. simpl.
    change (flat_map _ d2) with (flat_pairs d2).
    rewrite IH.
    + by rewrite <- List.app_assoc.
    + rewrite <- List.app_assoc. by split.
Qed.

Lemma parse_qs_urlencode (d : qdict) :
  well_formed d → parse_qs (urlencode d) = d.
Proof.
  intros Hd. unfold parse_qs. rewrite urlencode_pairs, parse_qsl_encoded.
  by apply (fold_flat_pairs [] d).
Qed.

Lemma dict_add_keys (k v x : string) (d : qdict) :
  x ∈ map fst (dict_add k v d) → x = k ∨ x ∈ map fst d.
Proof.
  induction d as [|[k' vs] d IH]; simpl.
  - intros ->%list_elem_of_singleton. by left.
  - destruct (String.eqb_spec k' k) as [->|]; simpl; [by right|].
    intros [->|Hx]%elem_of_cons.
    + right. left.
    + destruct (IH Hx) as [->|Hd]; [by left|]. right. by right.
Qed.

Lemma dict_add_well_formed (k v : string) (d : qdict) :
  well_formed d → well_formed (dict_add k v d).
Proof.
  induction d as [|[k' vs] d IH]; intros [Hnd Hne]; simpl.
  - split; repeat constructor; [by apply not_elem_of_nil|done].
  - simpl in Hnd. apply NoDup_cons in Hnd as [Hk' Hnd].
    inversion Hne as [|? ? Hvs Hne']; subst.
    destruct (String.eqb_spec k' k) as [->|Hkk].
    + split; simpl.
      * by apply NoDup_cons.
      * constructor; [|done]. simpl. by destruct vs.
    + destruct (IH (conj Hnd Hne')) as [Hnd' Hne''].
      split; simpl.
      * apply NoDup_cons. split; [|done].
        intros [->|Hin]%dict_add_keys; done.
      * by constructor.
Qed.

Lemma parse_qs_well_formed (q : string) : well_formed (parse_qs q).
Proof.
  unfold parse_qs.
  assert (Hg : ∀ ps d, well_formed d →
                 well_formed
                   (fold_left (fun d nv => dict_add (fst nv) (snd nv) d) ps d)).
  { induction ps as [|[k v] ps IH]; intros d Hd; simpl; [done|].
    apply IH. by apply dict_add_well_formed. }
  apply Hg. split; constructor.
Qed.

Lemma insert_item_perm (x : string * list string) (l : qdict) :
  insert_item x l ≡ₚ x :: l.
Proof.
  induction l as [|y l IH]; simpl; [done|].
  destruct (String.leb (fst x) (fst y)); [done|].
  rewrite IH. apply Permutation_swap.
Qed.

Lemma sorted_items_perm (d : qdict) : sorted_items d ≡ₚ d.
Proof.
  induction d as [|x d IH]; simpl; [done|].
  by rewrite insert_item_perm, IH.
Qed.

Lemma sorted_items_well_formed (d : qdict) :
  well_formed d → well_formed (sorted_items d).
Proof.
  intros [Hnd Hne]. pose proof (sorted_items_perm d) as Hp. split.
  - change (map fst ?l) with (fst <$> l) in *. by rewrite Hp.
  - by rewrite Hp.
Qed.

(** Sorted by key, each item against the next. *)
Fixpoint item_sorted (l : qdict) : Prop :=
  match l with
  | x :: (y :: _) as l' => String.leb (fst x) (fst y) = true ∧ item_sorted l'
  | _ => True
  end.

Lemma insert_item_sorted (x : string * list string) (l : qdict) :
  item_sorted l → item_sorted (insert_item x l).
Proof.
  induction l as [|y l IH]; [done|]. intros Hs.
  change (insert_item x (y :: l))
    with (if String.leb (fst x) (fst y) then x :: y :: l
          else y :: insert_item x l).
  destruct (String.leb (fst x) (fst y)) eqn:Hxy; [done|].
  assert (Hyx : String.leb (fst y) (fst x) = true).
  { destruct (String.leb_total (fst x) (fst y)); congruence. }
  destruct l as [|z l]; [done|].
  destruct Hs as [Hyz Hs]. specialize (IH Hs).
  change (insert_item x (z :: l))
    with (if String.leb (fst x) (fst z) then x :: z :: l
          else z :: insert_item x l) in *.
  destruct (String.leb (fst x) (fst z)); by split.
Qed.

Lemma sorted_items_sorted (d : qdict) : item_sorted (sorted_items d).
Proof.
  induction d as [|x d IH]; [done|]. by apply insert_item_sorted.
Qed.


Lemma not_truthy (s : string) : truthy s = false → s = EmptyString.
Proof. by destruct s. Qed.


Lemma all_chars_join (p : ascii → bool) (sep : string) (pieces : list string) :
  all_chars p sep = true →
  Forall (fun s => all_chars p s = true) pieces →
  all_chars p (join sep pieces) = true.
Proof.
  intros Hsep Hf. induction Hf as [|s ss Hs Hss IH]; [done|].
  destruct ss as [|s' ss]; [done|].
  change (join sep (s :: s' :: ss)) with (s +:+ sep +:+ join sep (s' :: ss)).
  by rewrite !all_chars_app, Hs, Hsep, IH.
Qed.

Lemma all_chars_weaken (p q : ascii → bool) (s : string) :
  (∀ c, p c = true → q c = true) →
  all_chars p s = true → all_chars q s = true.
Proof.
  intros Hpq. induction s as [|c s IH]; [done|]. simpl.
  intros [Hc Hs]%andb_true_iff. by rewrite (Hpq c Hc), IH.
Qed.

(** A sorted query is made of the characters [urlencode] writes. *)
Lemma sort_query_encoded (q : string) :
  all_chars encoded_char (Frontier.sort_query q) = true.
Proof.
  unfold Frontier.sort_query. destruct (truthy q); [|done].
  rewrite urlencode_pairs. apply all_chars_join; [done|].
  apply Forall_forall. intros p [kv [<- _]]%list_elem_of_In%in_map_iff.
  unfold encode_pair. rewrite !all_chars_app.
  assert (Hq : ∀ s, all_chars encoded_char (quote_plus s) = true).
  { intros s. apply (all_chars_weaken quoted_char); [|apply quote_plus_quoted].
    intros c Hc. unfold encoded_char. by rewrite Hc. }
  by rewrite !Hq.
Qed.

End SortQueryProps.

(** ** Canonicalization *)

Module NormalizeProps.
Import PyStr Urllib Frontier StrFacts.

Local Arguments String.append : simpl nomatch.
Local Arguments ch_eqb : simpl never.

Ltac each_char c :=
  destruct c as [[] [] [] [] [] [] [] []]; reflexivity.

Lemma has_char_tail (p : ascii → bool) (s : string) :
  has_char p s = false → has_char p (tail s) = false.
Proof. destruct s as [|c s]; [done|]. simpl. by intros [_ ?]%orb_false_iff. Qed.

(** The parts of a cut have no character the whole string has not. *)
Lemma break_parts (p q : ascii → bool) (s : string) :
  has_char q s = false →
  has_char q (fst (break p s)) = false
  ∧ has_char q (tail (snd (break p s))) = false.
Proof.
  intros Hs. rewrite <- (break_app p s), has_char_app in Hs.
  apply orb_false_iff in Hs as [H1 H2]. split; [done|by apply has_char_tail].
Qed.

Lemma starts_with_class_weaken (p q : ascii → bool) (s : string) :
  (∀ c, p c = true → q c = true) →
  starts_with_class p s = true → starts_with_class q s = true.
Proof. intros Hpq. destruct s as [|c s]; [done|]. apply Hpq. Qed.

(** When [s] is empty or starts in class [p] or [r], what comes before the
    first character of class [p] is empty or starts in class [r]. *)
Lemma break_fst_head (p r : ascii → bool) (s : string) :
  starts_with_class (fun c => p c || r c) s = true →
  starts_with_class r (fst (break p s)) = true.
Proof.
  destruct s as [|c s]; [done|]. simpl.
  destruct (p c); [done|]. simpl. by destruct (break p s).
Qed.

(** The conditional [s.split(c, 1)] of [urlsplit], as a cut. *)
Lemma split_once_break (c : ascii) (s : string) :
  match split_once c s with
  | (a, Some b) => (a, b)
  | (_, None) => (s, EmptyString)
  end
  = (fst (break (ch_eqb c) s), tail (snd (break (ch_eqb c) s))).
Proof.
  unfold split_once. pose proof (break_app (ch_eqb c) s) as Happ.
  destruct (break (ch_eqb c) s) as [a [|x b]]; simpl in *; [|done].
  by rewrite str_app_nil_r in Happ; subst.
Qed.

Lemma split_fragment_query_parts (sch nl url : string) :
  split_fragment_query sch nl url
  = let a := fst (break (ch_eqb "#") url) in
    mkSplit sch nl (fst (break (ch_eqb "?") a))
      (tail (snd (break (ch_eqb "?") a)))
      (tail (snd (break (ch_eqb "#") url))).
Proof.
  unfold split_fragment_query. rewrite split_once_break.
  cbv zeta. by rewrite split_once_break.
Qed.

(** What [urlsplit] guarantees of the parts it returns. *)
Record clean_parts (nl path qry : string) : Prop := mkClean {
  nl_safe : has_char unsafe_byte nl = false;
  nl_delim : has_char netloc_delim nl = false;
  path_safe : has_char unsafe_byte path = false;
  path_fragment : contains "#" path = false;
  path_query : contains "?" path = false;
  path_rooted : truthy nl = true → starts_with_class (ch_eqb "/") path = true;
  qry_safe : has_char unsafe_byte qry = false;
  qry_fragment : contains "#" qry = false }.

Lemma netloc_delim_cases (c : ascii) :
  netloc_delim c = ch_eqb "#" c || (ch_eqb "?" c || ch_eqb "/" c).
Proof. each_char c. Qed.

Lemma split_fragment_query_clean (sch nl url : string) :
  has_char unsafe_byte nl = false →
  has_char netloc_delim nl = false →
  has_char unsafe_byte url = false →
  (truthy nl = true → starts_with_class netloc_delim url = true) →
  let r := split_fragment_query sch nl url in
  s_scheme r = sch ∧ s_netloc r = nl
  ∧ clean_parts nl (s_path r) (s_query r).
Proof.
  intros Hn1 Hn2 Hu Hr. rewrite split_fragment_query_parts. simpl.
  set (a := fst (break (ch_eqb "#") url)).
  destruct (break_parts (ch_eqb "#") unsafe_byte url Hu) as [Ha _].
  fold a in Ha.
  destruct (break_parts (ch_eqb "?") unsafe_byte a Ha) as [Hp Hq].
  pose proof (break_fst (ch_eqb "#") url) as Haf. fold a in Haf.
  destruct (break_parts (ch_eqb "?") (ch_eqb "#") a Haf) as [Hpf Hqf].
  pose proof (break_fst (ch_eqb "?") a) as Hpq.
  repeat split; try done.
  intros Ht. specialize (Hr Ht).
  apply break_fst_head. subst a. apply break_fst_head.
  eapply starts_with_class_weaken; [|exact Hr].
  intros c. by rewrite netloc_delim_cases.
Qed.

Lemma break_snd_free (p q : ascii → bool) (s : string) :
  has_char q s = false → has_char q (snd (break p s)) = false.
Proof.
  intros Hs. rewrite <- (break_app p s), has_char_app in Hs.
  by apply orb_false_iff in Hs as [_ ?].
Qed.

Lemma split_scheme_safe (url scheme0 : string) :
  has_char unsafe_byte url = false →
  has_char unsafe_byte (snd (split_scheme url scheme0)) = false.
Proof.
  intros Hu. unfold split_scheme.
  destruct (break_parts (ch_eqb ":") unsafe_byte url Hu) as [_ Ht].
  destruct (break (ch_eqb ":") url) as [[|c0 pre] [|x rest]]; try done.
  by destruct (is_alpha c0 && all_chars scheme_char (String c0 pre)).
Qed.

(** [a] is the beginning of [s]. *)
Definition prefix_of (a s : string) : Prop := ∃ t, s = a +:+ t.

Lemma prefix_of_refl (s : string) : prefix_of s s.
Proof. exists EmptyString. by rewrite str_app_nil_r. Qed.

Lemma prefix_of_free (p : ascii → bool) (a s : string) :
  prefix_of a s → has_char p s = false → has_char p a = false.
Proof.
  intros [t ->]. rewrite has_char_app. by intros [? _]%orb_false_iff.
Qed.

Lemma prefix_of_all (p : ascii → bool) (a s : string) :
  prefix_of a s → all_chars p s = true → all_chars p a = true.
Proof.
  intros [t ->]. rewrite all_chars_app. by intros [? _]%andb_true_iff.
Qed.

Lemma prefix_of_head (p : ascii → bool) (a s : string) :
  prefix_of a s → starts_with_class p s = true → starts_with_class p a = true.
Proof. intros [t ->]. by destruct a. Qed.

Lemma prefix_of_cons (c : ascii) (a s : string) :
  prefix_of a s → prefix_of (String c a) (String c s).
Proof. intros [t ->]. by exists t. Qed.

Lemma prefix_of_nil (s : string) : prefix_of EmptyString s.
Proof. by exists s. Qed.

Lemma rstrip_prefix (p : ascii → bool) (s : string) : prefix_of (rstrip p s) s.
Proof.
  induction s as [|c s IH]; [apply prefix_of_refl|]. simpl.
  destruct (rstrip p s) as [|x r].
  - destruct (p c); [apply prefix_of_nil|].
    apply prefix_of_cons, prefix_of_nil.
  - by apply prefix_of_cons.
Qed.

Lemma strip_suffix_prefix (suf s r : string) :
  strip_suffix suf s = Some r → prefix_of r s.
Proof. intros Hs. exists suf. by apply strip_suffix_app. Qed.

Lemma rcut_app (c : ascii) (s dir last : string) :
  rcut c s = Some (dir, last) → s = dir +:+ last.
Proof.
  revert dir last. induction s as [|x s IH]; intros dir last; [done|]. simpl.
  destruct (rcut c s) as [[a b]|].
  - intros [= <- <-]. by rewrite str_app_cons, <- (IH a b).
  - destruct (ch_eqb x c); [|done]. by intros [= <- <-].
Qed.

Lemma drop_last_prefix (s : string) : prefix_of (drop_last s) s.
Proof.
  induction s as [|c s IH]; [apply prefix_of_refl|].
  destruct s as [|c' s]; [apply prefix_of_nil|].
  change (drop_last (String c (String c' s)))
    with (String c (drop_last (String c' s))).
  by apply prefix_of_cons.
Qed.

Lemma splitparams_prefix (s : string) : prefix_of (fst (_splitparams s)) s.
Proof.
  unfold _splitparams.
  destruct (rcut "/" s) as [[dir last]|] eqn:Hr.
  - apply rcut_app in Hr as ->.
    pose proof (break_app (ch_eqb ";") last) as Hb.
    destruct (break (ch_eqb ";") last) as [a [|x b]]; simpl in *.
    + apply prefix_of_refl.
    + exists (String x b). by rewrite str_app_assoc, Hb.
  - pose proof (break_app (ch_eqb ";") s) as Hb.
    destruct (break (ch_eqb ";") s) as [a [|x b]]; simpl in *.
    + apply drop_last_prefix.
    + by exists (String x b).
Qed.

Lemma break_free (p : ascii → bool) (s : string) :
  has_char p s = false → break p s = (s, EmptyString).
Proof.
  intros Hs. rewrite <- (str_app_nil_r s) at 1. by apply break_unique.
Qed.

Lemma startswith_app (p s : string) : startswith p (p +:+ s) = true.
Proof.
  induction p as [|c p IH]; [done|]. rewrite str_app_cons. simpl.
  by rewrite ch_eqb_refl, IH.
Qed.

Lemma rcut_none (c : ascii) (s : string) :
  contains c s = false → rcut c s = None.
Proof.
  unfold contains. induction s as [|x s IH]; [done|]. simpl.
  intros [Hx Hs]%orb_false_iff. rewrite (IH Hs).
  rewrite ch_eqb_sym in Hx. by rewrite Hx.
Qed.

Lemma rcut_none_inv (c : ascii) (s : string) :
  rcut c s = None → contains c s = false.
Proof.
  unfold contains. induction s as [|x s IH]; [done|]. simpl.
  destruct (rcut c s) as [[a b]|]; [done|].
  destruct (ch_eqb x c) eqn:Hx; [done|]. intros _.
  rewrite ch_eqb_sym, Hx. by apply IH.
Qed.

Lemma rcut_last_free (c : ascii) (s dir last : string) :
  rcut c s = Some (dir, last) → contains c last = false.
Proof.
  revert dir last. induction s as [|x s IH]; intros dir last; [done|]. simpl.
  destruct (rcut c s) as [[a b]|] eqn:Hr.
  - intros [= <- <-]. by apply (IH a b).
  - destruct (ch_eqb x c); [|done]. intros [= <- <-]. by apply rcut_none_inv.
Qed.

Lemma rcut_app_free (c : ascii) (a b dir last : string) :
  rcut c a = Some (dir, last) → contains c b = false →
  rcut c (a +:+ b) = Some (dir, last +:+ b).
Proof.
  intros Ha Hb. revert dir last Ha.
  induction a as [|x a IH]; intros dir last; [done|].
  rewrite str_app_cons. simpl.
  destruct (rcut c a) as [[a' b']|] eqn:Hr.
  - intros [= <- <-]. by rewrite (IH a' b' eq_refl).
  - destruct (ch_eqb x c); [|done]. intros [= <- <-].
    rewrite rcut_none; [done|].
    unfold contains in *. rewrite has_char_app, Hb.
    apply rcut_none_inv in Hr. unfold contains in Hr. by rewrite Hr.
Qed.

(** The part of a path after its last slash, the whole path when it has
    none. *)
Definition last_segment (s : string) : string :=
  match rcut "/" s with Some (_, l) => l | None => s end.

(** [_splitparams] undoes the joining of a path and its parameters. *)
Lemma splitparams_unsplit (pa prm : string) :
  contains ";" (last_segment pa) = false →
  contains "/" prm = false →
  _splitparams (pa +:+ String ";" prm) = (pa, prm).
Proof.
  unfold last_segment, _splitparams. intros Hl Hp.
  assert (Hsp : contains "/" (String ";" prm) = false) by done.
  destruct (rcut "/" pa) as [[dir last]|] eqn:Hr.
  - rewrite (rcut_app_free "/" pa (String ";" prm) dir last Hr Hsp).
    rewrite (break_unique (ch_eqb ";") last (String ";" prm) Hl eq_refl).
    by rewrite <- (rcut_app "/" pa dir last Hr).
  - rewrite rcut_none.
    + by rewrite (break_unique (ch_eqb ";") pa (String ";" prm) Hl eq_refl).
    + apply rcut_none_inv in Hr. unfold contains in *.
      by rewrite has_char_app, Hr, Hsp.
Qed.

Lemma splitparams_none (pa : string) :
  contains ";" (last_segment pa) = false →
  contains ";" pa = true →
  _splitparams pa = (pa, EmptyString).
Proof.
  unfold last_segment, _splitparams. intros Hl Hp.
  destruct (rcut "/" pa) as [[dir last]|] eqn:Hr.
  - by rewrite (break_free (ch_eqb ";") last Hl).
  - congruence.
Qed.

(** What [urlparse] guarantees of the parameters it returns. *)
Record clean_params (prm : string) : Prop := mkCleanParams {
  prm_safe : has_char unsafe_byte prm = false;
  prm_fragment : contains "#" prm = false;
  prm_query : contains "?" prm = false;
  prm_slash : contains "/" prm = false }.

Lemma splitparams_snd_free (q : ascii → bool) (s : string) :
  contains ";" s = true → has_char q s = false →
  has_char q (snd (_splitparams s)) = false.
Proof.
  unfold _splitparams. intros Hs Hq.
  destruct (rcut "/" s) as [[dir last]|] eqn:Hr.
  - apply rcut_app in Hr. subst s. rewrite has_char_app in Hq.
    apply orb_false_iff in Hq as [_ Hq].
    pose proof (break_snd_free (ch_eqb ";") q last Hq) as Hb.
    destruct (break (ch_eqb ";") last) as [a [|x b]]; [done|].
    simpl in *. by apply orb_false_iff in Hb as [_ ?].
  - pose proof (break_snd_free (ch_eqb ";") q s Hq) as Hb.
    pose proof (break_app (ch_eqb ";") s) as Happ.
    pose proof (break_fst (ch_eqb ";") s) as Hf.
    destruct (break (ch_eqb ";") s) as [a [|x b]]; simpl in *.
    + rewrite str_app_nil_r in Happ. subst a. unfold contains in Hs.
      congruence.
    + by apply orb_false_iff in Hb as [_ ?].
Qed.

Lemma splitparams_snd_slash (s : string) :
  contains ";" s = true → contains "/" (snd (_splitparams s)) = false.
Proof.
  unfold _splitparams. intros Hs.
  destruct (rcut "/" s) as [[dir last]|] eqn:Hr.
  - apply rcut_last_free in Hr.
    pose proof (break_snd_free (ch_eqb ";") (ch_eqb "/") last Hr) as Hb.
    destruct (break (ch_eqb ";") last) as [a [|x b]]; [done|].
    simpl in *. by apply orb_false_iff in Hb as [_ ?].
  - apply rcut_none_inv in Hr.
    pose proof (break_snd_free (ch_eqb ";") (ch_eqb "/") s Hr) as Hb.
    pose proof (break_app (ch_eqb ";") s) as Happ.
    pose proof (break_fst (ch_eqb ";") s) as Hf.
    destruct (break (ch_eqb ";") s) as [a [|x b]]; simpl in *.
    + rewrite str_app_nil_r in Happ. subst a. unfold contains in Hs.
      congruence.
    + by apply orb_false_iff in Hb as [_ ?].
Qed.

(** [endswith "/"] looks at the last character. *)
Lemma endswith_slash_cons (x : ascii) (s : string) :
  endswith "/" (String x s)
  = match s with
    | EmptyString => ch_eqb x "/"
    | String _ _ => endswith "/" s
    end.
Proof.
  unfold endswith. rewrite strip_suffix_unfold.
  destruct s as [|y s].
  - simpl. unfold ch_eqb. by destruct (Ascii.eqb x "/").
  - assert (String.eqb (String x (String y s)) "/" = false) as ->.
    { simpl. by destruct (Ascii.eqb x "/"). }
    by destruct (strip_suffix "/" (String y s)).
Qed.

Lemma rstrip_slash_end (s : string) :
  endswith "/" (rstrip (ch_eqb "/") s) = false.
Proof.
  induction s as [|c s IH]; [done|]. simpl.
  destruct (rstrip (ch_eqb "/") s) as [|x r] eqn:Hr.
  - destruct (ch_eqb "/" c) eqn:Hc; [done|].
    rewrite endswith_slash_cons. by rewrite ch_eqb_sym.
  - by rewrite endswith_slash_cons.
Qed.

Lemma clean_path_prefix (p : string) : prefix_of (clean_path p) p.
Proof.
  unfold clean_path. destruct (_ && _); [apply rstrip_prefix|].
  apply prefix_of_refl.
Qed.

(** Cleaning a cleaned path changes nothing. *)
Lemma clean_path_idem (p : string) : clean_path (clean_path p) = clean_path p.
Proof.
  unfold clean_path at 2 3.
  destruct (negb (String.eqb p "/") && endswith "/" p) eqn:Hc.
  - unfold clean_path. by rewrite rstrip_slash_end, andb_false_r.
  - unfold clean_path. by rewrite Hc.
Qed.

Definition lowered_char (c : ascii) : bool := ch_eqb (lower_char c) c.

Lemma lower_char_lowered (c : ascii) : lowered_char (lower_char c) = true.
Proof. each_char c. Qed.

Lemma lower_lowered (s : string) : all_chars lowered_char (lower s) = true.
Proof.
  induction s as [|c s IH]; [done|]. simpl. by rewrite lower_char_lowered.
Qed.

Lemma lowered_fixed (s : string) :
  all_chars lowered_char s = true → lower s = s.
Proof.
  induction s as [|c s IH]; [done|]. simpl.
  intros [Hc Hs]%andb_true_iff. apply ch_eqb_eq in Hc. by rewrite Hc, IH.
Qed.

Lemma strip_default_port_prefix (sch nl : string) :
  prefix_of (strip_default_port sch nl) nl.
Proof.
  unfold strip_default_port.
  destruct (String.eqb sch "http").
  - destruct (strip_suffix ":80" nl) eqn:H80;
      [by eapply strip_suffix_prefix|].
    destruct (String.eqb sch "https"); [|apply prefix_of_refl].
    destruct (strip_suffix ":443" nl) eqn:H443;
      [by eapply strip_suffix_prefix|apply prefix_of_refl].
  - destruct (String.eqb sch "https"); [|apply prefix_of_refl].
    destruct (strip_suffix ":443" nl) eqn:H443;
      [by eapply strip_suffix_prefix|apply prefix_of_refl].
Qed.

Section WithHostSyntax.
Context `{HostSyntax} {case_mapping : CaseMapping}.


Lemma urlsplit_clean (u : string) (r : SplitResult) :
  urlsplit u "" = Some r → clean_parts (s_netloc r) (s_path r) (s_query r).
Proof.
  unfold urlsplit.
  set (url2 := remove_chars unsafe_byte (lstrip c0_or_space u)).
  set (sc := remove_chars unsafe_byte _).
  pose proof (split_scheme_safe url2 sc (remove_chars_free _ _)) as Hs.
  destruct (split_scheme url2 sc) as [sch url3]. simpl in Hs.
  destruct (startswith "//" url3).
  - unfold _splitnetloc2.
    pose proof (has_char_drop unsafe_byte 2 url3 Hs) as Hd.
    destruct (break_parts netloc_delim unsafe_byte _ Hd) as [Hn _].
    pose proof (break_snd_free netloc_delim unsafe_byte _ Hd) as Hr.
    pose proof (break_fst netloc_delim (drop 2 url3)) as Hnd.
    pose proof (break_snd netloc_delim (drop 2 url3)) as Hrd.
    destruct (break netloc_delim (drop 2 url3)) as [nl rest]. simpl in *.
    destruct (brackets_ok nl); [|done]. intros [= <-].
    by destruct (split_fragment_query_clean sch nl rest Hn Hnd Hr (fun _ => Hrd))
      as (_ & -> & ?).
  - intros [= <-].
    by destruct (split_fragment_query_clean sch "" url3 eq_refl eq_refl Hs
                   (fun Hf => False_ind _ (Bool.diff_false_true Hf)))
      as (_ & -> & ?).
Qed.

Lemma urlparse_clean (u : string) (p : ParseResult) :
  urlparse u = Some p →
  clean_parts (netloc p) (path p) (query p) ∧ clean_params (params p).
Proof.
  unfold urlparse, urlparse_with.
  destruct (urlsplit u "") as [[sch nl spath qry frag]|] eqn:Hs; [|done].
  apply urlsplit_clean in Hs. simpl in Hs.
  assert (Hp : prefix_of
                 (fst (if mem sch uses_params && contains ";" spath
                       then _splitparams spath else (spath, EmptyString)))
                 spath).
  { destruct (_ && _); [apply splitparams_prefix|apply prefix_of_refl]. }
  assert (Hq : clean_params
                 (snd (if mem sch uses_params && contains ";" spath
                       then _splitparams spath else (spath, EmptyString)))).
  { destruct (mem sch uses_params); [|done]. simpl.
    destruct (contains ";" spath) eqn:Hsemi; [|done]. destruct Hs.
    constructor.
    - by apply splitparams_snd_free.
    - by apply (splitparams_snd_free (ch_eqb "#")).
    - by apply (splitparams_snd_free (ch_eqb "?")).
    - by apply splitparams_snd_slash. }
  destruct (if mem sch uses_params && contains ";" spath
            then _splitparams spath else (spath, EmptyString)) as [pa prm].
  intros [= <-]. simpl in *. split; [|done]. destruct Hs.
  constructor; try done.
  - by eapply prefix_of_free.
  - by eapply (prefix_of_free (ch_eqb "#")).
  - by eapply (prefix_of_free (ch_eqb "?")).
  - intros Ht. eapply prefix_of_head; [done|]. by apply path_rooted0.
Qed.

(** The text [urlunsplit] makes of a scheme, a non-empty authority, a path
    that is empty or starts with a slash, and a query. *)
Lemma urlunsplit_text (sch nl pa qry : string) :
  truthy sch = true → truthy nl = true →
  starts_with_class (ch_eqb "/") pa = true →
  urlunsplit (mkSplit sch nl pa qry "")
  = sch +:+ ":" +:+ "//" +:+ nl +:+ pa
    +:+ (if truthy qry then String "?" qry else EmptyString).
Proof.
  intros Hs Hn Hp.
  assert (Hsw : truthy pa && negb (startswith "/" pa) = false).
  { destruct pa as [|c pa]; [done|]. simpl in *. by rewrite Hp. }
  unfold urlunsplit.
  cbn [s_path s_netloc s_scheme s_query s_fragment].
  rewrite Hn, Hs. cbn [truthy orb]. rewrite Hsw.
  destruct (truthy qry).
  - by rewrite !str_app_assoc.
  - by rewrite !str_app_nil_r.
Qed.

(** Splitting the text [urlunsplit] makes of clean parts, with a non-empty
    authority without brackets, gives the parts back. *)
Lemma urlsplit_urlunsplit (sch nl pa qry : string) :
  sch = "http"%string ∨ sch = "https"%string →
  truthy nl = true →
  clean_parts nl pa qry →
  contains "[" nl = false → contains "]" nl = false →
  urlsplit (urlunsplit (mkSplit sch nl pa qry "")) ""
  = Some (mkSplit sch nl pa qry "").
Proof.
  intros Hsch Hn [Hn1 Hn2 Hp1 Hp2 Hp3 Hp4 Hq1 Hq2] Hb1 Hb2.
  specialize (Hp4 Hn).
  rewrite urlunsplit_text; [|by destruct Hsch as [-> | ->]|done|done].
  set (tailq := if truthy qry then String "?" qry else EmptyString).
  assert (Htq1 : has_char unsafe_byte tailq = false).
  { subst tailq. destruct (truthy qry); [|done]. simpl. by rewrite Hq1. }
  assert (Htq2 : contains "#" tailq = false).
  { subst tailq. destruct (truthy qry); [|done]. unfold contains in *. simpl.
    by rewrite Hq2. }
  assert (Hrest : starts_with_class netloc_delim (pa +:+ tailq) = true).
  { destruct pa as [|c pa].
    - subst tailq. by destruct (truthy qry).
    - simpl in *. apply ch_eqb_eq in Hp4 as <-. done. }
  unfold urlsplit.
  assert (Hl : lstrip c0_or_space
                 (sch +:+ ":" +:+ "//" +:+ nl +:+ pa +:+ tailq)
               = sch +:+ ":" +:+ "//" +:+ nl +:+ pa +:+ tailq)
    by by destruct Hsch as [-> | ->].
  rewrite Hl. clear Hl.
  rewrite remove_chars_id.
  2:{ rewrite !has_char_app, Hn1, Hp1, Htq1. by destruct Hsch as [-> | ->]. }
  assert (Hs : split_scheme (sch +:+ ":" +:+ "//" +:+ nl +:+ pa +:+ tailq)
                 (remove_chars unsafe_byte
                    (rstrip c0_or_space (lstrip c0_or_space "")))
               = (sch, "//" +:+ nl +:+ pa +:+ tailq)).
  { unfold split_scheme.
    rewrite (break_unique (ch_eqb ":") sch
               (":" +:+ "//" +:+ nl +:+ pa +:+ tailq));
      [|by destruct Hsch as [-> | ->]|done].
    by destruct Hsch as [-> | ->]. }
  rewrite Hs. clear Hs.
  rewrite startswith_app. unfold _splitnetloc2.
  change (drop 2 ("//" +:+ nl +:+ pa +:+ tailq)) with (nl +:+ pa +:+ tailq).
  rewrite (break_unique netloc_delim nl (pa +:+ tailq) Hn2 Hrest).
  assert (brackets_ok nl = true) as ->.
  { unfold brackets_ok. by rewrite Hb1, Hb2. }
  rewrite split_fragment_query_parts. cbv zeta.
  rewrite (break_free (ch_eqb "#") (pa +:+ tailq)).
  2:{ rewrite has_char_app. unfold contains in *. by rewrite Hp2, Htq2. }
  simpl fst. simpl snd. simpl tail.
  assert (Hq : break (ch_eqb "?") (pa +:+ tailq) = (pa, tailq)).
  { subst tailq. destruct (truthy qry).
    - by apply break_unique.
    - rewrite str_app_nil_r. by apply break_free. }
  rewrite Hq. simpl fst. simpl snd.
  assert (tail tailq = qry) as ->.
  { subst tailq. by destruct qry. }
  done.
Qed.

(** Parsing the text [urlunparse] makes of clean parts gives the parts back,
    when the authority is not empty and has no bracket, the last segment of
    the path has no [;], and the path is not empty if there are
    parameters. *)
Lemma urlparse_urlunparse (sch nl pa prm qry : string) :
  sch = "http"%string ∨ sch = "https"%string →
  truthy nl = true →
  clean_parts nl pa qry →
  clean_params prm →
  contains "[" nl = false → contains "]" nl = false →
  contains ";" (last_segment pa) = false →
  (truthy prm = true → truthy pa = true) →
  urlparse (urlunparse (mkParse sch nl pa prm qry ""))
  = Some (mkParse sch nl pa prm qry "").
Proof.
  intros Hsch Hn Hc [Hm1 Hm2 Hm3 Hm4] Hb1 Hb2 Hsemi Hne.
  unfold urlunparse. cbn [params path scheme netloc query fragment].
  set (url0 := if truthy prm then pa +:+ ";" +:+ prm else pa).
  assert (Hc0 : clean_parts nl url0 qry).
  { destruct Hc as [Hn1 Hn2 Hp1 Hp2 Hp3 Hp4 Hq1 Hq2]. subst url0.
    destruct (truthy prm) eqn:Ht; [|by constructor].
    constructor; try done; unfold contains in *.
    - rewrite !has_char_app, Hp1. simpl. by rewrite Hm1.
    - rewrite !has_char_app, Hp2. simpl. by rewrite Hm2.
    - rewrite !has_char_app, Hp3. simpl. by rewrite Hm3.
    - intros _. specialize (Hp4 Hn). specialize (Hne eq_refl).
      by destruct pa. }
  unfold urlparse, urlparse_with.
  rewrite (urlsplit_urlunsplit sch nl url0 qry Hsch Hn Hc0 Hb1 Hb2).
  assert (mem sch uses_params = true) as -> by by destruct Hsch as [-> | ->].
  cbn [andb]. subst url0.
  destruct (truthy prm) eqn:Ht.
  - assert (contains ";" (pa +:+ ";" +:+ prm) = true) as ->.
    { unfold contains. rewrite has_char_app.
      change (";" +:+ prm)%string with (String ";" prm). cbn [has_char].
      by rewrite ch_eqb_refl, orb_true_r. }
    change (pa +:+ ";" +:+ prm)%string with (pa +:+ String ";" prm).
    by rewrite (splitparams_unsplit pa prm Hsemi Hm4).
  - apply SortQueryProps.not_truthy in Ht as ->.
    destruct (contains ";" pa) eqn:Hp; [|done].
    by rewrite (splitparams_none pa Hsemi Hp).
Qed.

(** A URL as the idempotence of [normalize_url] needs it: its authority is
    not empty once the default port is removed, does not end in the default
    port a second time and has no bracketed host; the last segment of its
    cleaned path has no [;]. *)
Definition plain_url (p : ParseResult) : bool :=
  let nl := strip_default_port (scheme p) (lower (netloc p)) in
  truthy nl
  && String.eqb (strip_default_port (scheme p) nl) nl
  && negb (contains "[" (netloc p)) && negb (contains "]" (netloc p))
  && negb (contains ";" (last_segment (clean_path (path p)))).

Lemma unsafe_byte_lower (c : ascii) :
  unsafe_byte (lower_char c) = unsafe_byte c.
Proof. each_char c. Qed.

Lemma netloc_delim_lower (c : ascii) :
  netloc_delim (lower_char c) = netloc_delim c.
Proof. each_char c. Qed.

Lemma open_bracket_lower (c : ascii) :
  ch_eqb "[" (lower_char c) = ch_eqb "[" c.
Proof. each_char c. Qed.

Lemma close_bracket_lower (c : ascii) :
  ch_eqb "]" (lower_char c) = ch_eqb "]" c.
Proof. each_char c. Qed.

Lemma encoded_not_unsafe (c : ascii) :
  SortQueryProps.encoded_char c && unsafe_byte c = false.
Proof. each_char c. Qed.

Lemma encoded_not_hash (c : ascii) :
  SortQueryProps.encoded_char c && ch_eqb "#" c = false.
Proof. each_char c. Qed.

Lemma sort_query_clean (q : string) :
  has_char unsafe_byte (sort_query q) = false
  ∧ contains "#" (sort_query q) = false.
Proof.
  pose proof (SortQueryProps.sort_query_encoded q) as He. split.
  - apply (all_chars_has_char _ SortQueryProps.encoded_char); [|done].
    intros c Hc. pose proof (encoded_not_unsafe c) as Hu.
    by rewrite Hc in Hu.
  - apply (all_chars_has_char _ SortQueryProps.encoded_char); [|done].
    intros c Hc. pose proof (encoded_not_hash c) as Hu.
    by rewrite Hc in Hu.
Qed.

(** The parts [normalize_url] hands to [urlunparse] are clean, lowered and
    stable under the cleaning steps. *)
Lemma normalized_parts_clean (sch nl pa qry : string) :
  clean_parts nl pa qry →
  clean_parts (strip_default_port sch (lower nl)) (clean_path pa)
    (sort_query qry).
Proof.
  intros [Hn1 Hn2 Hp1 Hp2 Hp3 Hp4 Hq1 Hq2].
  pose proof (strip_default_port_prefix sch (lower nl)) as Hpre.
  pose proof (clean_path_prefix pa) as Hcp.
  destruct (sort_query_clean qry) as [Hs1 Hs2].
  constructor; try done.
  - eapply prefix_of_free; [done|].
    by rewrite has_char_lower by apply unsafe_byte_lower.
  - eapply prefix_of_free; [done|].
    by rewrite has_char_lower by apply netloc_delim_lower.
  - by eapply prefix_of_free.
  - by eapply (prefix_of_free (ch_eqb "#")).
  - by eapply (prefix_of_free (ch_eqb "?")).
  - intros Ht. eapply prefix_of_head; [done|]. apply Hp4.
    destruct nl as [|x nl]; [|done].
    destruct Hpre as [t Ht']. change (lower "") with EmptyString in *.
    by destruct (strip_default_port sch "").
Qed.

Lemma normalize_url_parsed (url : string) (parent_url : option string)
    (u : string) (p : ParseResult) :
  resolve_relative url parent_url = Some u →
  urlparse u = Some p →
  normalize_url url parent_url
  = if negb (mem (scheme p) ["http"; "https"]%string) then None
    else Some (urlunparse
                 (mkParse (lower (scheme p))
                    (strip_default_port (lower (scheme p)) (lower (netloc p)))
                    (clean_path (path p)) (params p) (sort_query (query p))
                    "")).
Proof. intros Hr Hp. unfold normalize_url. by rewrite Hr; simpl; rewrite Hp. Qed.

End WithHostSyntax.

(** [n] slashes. *)
Fixpoint slashes (n : nat) : string :=
  match n with O => EmptyString | S n' => String "/" (slashes n') end.

Lemma rstrip_slashes (s : string) :
  ∃ n, s = rstrip (ch_eqb "/") s +:+ slashes n.
Proof.
  induction s as [|c s [n IH]]; [by exists 0%nat|]. simpl.
  destruct (rstrip (ch_eqb "/") s) as [|x r] eqn:Hr.
  - destruct (ch_eqb "/" c) eqn:Hc.
    + apply ch_eqb_eq in Hc as <-. exists (S n). simpl. by rewrite IH at 1.
    + exists n. by rewrite str_app_cons, <- IH.
  - exists n. by rewrite str_app_cons, <- IH.
Qed.

Lemma rstrip_drop_last (s : string) :
  endswith "/" s = true → endswith "/" (drop_last s) = false →
  rstrip (ch_eqb "/") s = drop_last s.
Proof.
  induction s as [|c s IH]; [done|].
  destruct s as [|c' s].
  - rewrite endswith_slash_cons. intros Hc _. simpl.
    rewrite ch_eqb_sym in Hc. by rewrite Hc.
  - rewrite endswith_slash_cons.
    change (drop_last (String c (String c' s)))
      with (String c (drop_last (String c' s))).
    intros He Hd.
    assert (Hd' : endswith "/" (drop_last (String c' s)) = false
                  ∨ drop_last (String c' s) = EmptyString).
    { rewrite endswith_slash_cons in Hd.
      destruct (drop_last (String c' s)); [by right|by left]. }
    change (rstrip (ch_eqb "/") (String c (String c' s)))
      with (match rstrip (ch_eqb "/") (String c' s) with
            | EmptyString =>
                if ch_eqb "/" c then EmptyString else String c EmptyString
            | r => String c r
            end).
    destruct Hd' as [Hd'|Hd'].
    + rewrite (IH He Hd').
      destruct (drop_last (String c' s)) eqn:Hdl; [|done].
      rewrite endswith_slash_cons in Hd. rewrite ch_eqb_sym. by rewrite Hd.
    + rewrite Hd' in *. rewrite endswith_slash_cons in Hd.
      destruct s as [|c'' s]; [|done].
      rewrite endswith_slash_cons in He. simpl.
      rewrite (ch_eqb_sym "/" c'), He. rewrite ch_eqb_sym. by rewrite Hd.
Qed.

Section TrailingSlash.
Context `{HostSyntax} {case_mapping : CaseMapping}.

(** The canonical form [normalize_url] builds when the path it hands to
    [urlunparse] is [pa]. *)
Definition canonical_with_path (p : ParseResult) (pa : string) : string :=
  urlunparse
    (mkParse (lower (scheme p))
       (strip_default_port (lower (scheme p)) (lower (netloc p)))
       pa (params p) (sort_query (query p)) "").

(** Stripping one trailing slash: the canonical form of [url] has the path of
    [url] without its last character. *)
Definition strips_one_slash (url : string) : Prop :=
  ∃ p, urlparse url = Some p
       ∧ normalize_url url None
         = Some (canonical_with_path p (drop_last (path p))).

(** C9, as amended: for a URL with scheme http or https whose path ends in a
    slash and is not [/], the canonical form is built with the path stripped
    of all its trailing slashes: the path is the stripped path followed by
    one slash or more, and the stripped path does not end in a slash.  When
    the path ends in exactly one slash, this is the path without its last
    character.  For a plain URL, the stripped path is the path of the
    canonical form. *)
Theorem normalize_url_strips_slashes (url : string) (parent_url : option string)
    (u : string) (p : ParseResult) :
  resolve_relative url parent_url = Some u →
  urlparse u = Some p →
  mem (scheme p) ["http"; "https"]%string = true →
  path p ≠ "/"%string →
  endswith "/" (path p) = true →
  let stripped := rstrip (ch_eqb "/") (path p) in
  normalize_url url parent_url = Some (canonical_with_path p stripped)
  ∧ endswith "/" stripped = false
  ∧ (∃ n, (0 < n)%nat ∧ path p = stripped +:+ slashes n)
  ∧ (endswith "/" (drop_last (path p)) = false → stripped = drop_last (path p))
  ∧ (plain_url p = true → truthy stripped = true →
     ∃ p', urlparse (canonical_with_path p stripped) = Some p'
           ∧ path p' = stripped).
Proof.
  intros Hres Hparse Hmem Hroot Hend. cbv zeta.
  assert (Hcp : clean_path (path p) = rstrip (ch_eqb "/") (path p)).
  { unfold clean_path. rewrite Hend.
    by destruct (String.eqb_spec (path p) "/"). }
  repeat split.
  - rewrite (normalize_url_parsed url parent_url u p Hres Hparse).
    rewrite Hmem. cbn [negb]. unfold canonical_with_path. by rewrite Hcp.
  - apply rstrip_slash_end.
  - destruct (rstrip_slashes (path p)) as [n Hn]. exists n. split; [|done].
    destruct n as [|n]; [|lia]. simpl in Hn. rewrite str_app_nil_r in Hn.
    rewrite Hn, rstrip_slash_end in Hend. done.
  - by apply rstrip_drop_last.
  - intros Hplain Hne.
    assert (Hsch : scheme p = "http"%string ∨ scheme p = "https"%string).
    { unfold mem in Hmem. simpl in Hmem.
      destruct (String.eqb_spec (scheme p) "http"); [by left|].
      destruct (String.eqb_spec (scheme p) "https"); [by right|done]. }
    assert (Hlow : lower (scheme p) = scheme p)
      by by destruct Hsch as [-> | ->].
    unfold plain_url in Hplain.
    repeat (apply andb_true_iff in Hplain as [Hplain ?]).
    destruct (urlparse_clean u p Hparse) as [Hclean0 Hprm].
    pose proof (normalized_parts_clean (scheme p) _ _ _ Hclean0) as Hclean.
    pose proof (strip_default_port_prefix (scheme p) (lower (netloc p)))
      as Hpre.
    exists (mkParse (scheme p)
              (strip_default_port (scheme p) (lower (netloc p)))
              (clean_path (path p)) (params p) (sort_query (query p)) "").
    split; [|exact Hcp].
    unfold canonical_with_path. rewrite Hlow, <- Hcp.
    apply urlparse_urlunparse; try done.
    + eapply (prefix_of_free (ch_eqb "[")); [done|].
      rewrite has_char_lower by apply open_bracket_lower.
      by apply negb_true_iff.
    + eapply (prefix_of_free (ch_eqb "]")); [done|].
      rewrite has_char_lower by apply close_bracket_lower.
      by apply negb_true_iff.
    + by apply negb_true_iff.
    + intros _. by rewrite Hcp.
Qed.

End TrailingSlash.

(** C9, counterexample: of the two trailing slashes of [/a//] none is left
    in the canonical form. *)
Lemma normalize_url_strips_two_slashes :
  @normalize_url no_bracketed_host "http://example.com/a//" None
  = Some "http://example.com/a"%string
  ∧ ¬ @strips_one_slash no_bracketed_host "http://example.com/a//".
Proof.
  split; [vm_compute; reflexivity|].
  intros (p & Hp & Hn). vm_compute in Hp. injection Hp as <-.
  vm_compute in Hn. discriminate Hn.
Qed.

Lemma normalize_url_strips_slashes_witness :
  @normalize_url no_bracketed_host "http://example.com/a//" None
  = Some (@canonical_with_path
            (mkParse "http" "example.com" "/a//" "" "" "") "/a")
  ∧ @normalize_url no_bracketed_host "dir/" (Some "http://example.com/"%string)
    = Some (@canonical_with_path
              (mkParse "http" "example.com" "/dir/" "" "" "")
              (drop_last "/dir/")).
Proof.
  split.
  - apply (@normalize_url_strips_slashes no_bracketed_host
             "http://example.com/a//" None "http://example.com/a//"
             (mkParse "http" "example.com" "/a//" "" "" ""));
      try (vm_compute; reflexivity). discriminate.
  - assert (Hne : "/dir/"%string ≠ "/"%string) by discriminate.
    destruct (@normalize_url_strips_slashes no_bracketed_host
                "dir/" (Some "http://example.com/"%string)
                "http://example.com/dir/"
                (mkParse "http" "example.com" "/dir/" "" "" "")
                eq_refl eq_refl eq_refl Hne eq_refl)
      as (Hn & _ & _ & Hd & _).
    rewrite Hn, Hd; reflexivity.
Defined.

End NormalizeProps.

(** ** Substrings, prefixes and suffixes *)

Module TextFacts.
Import PyStr StrFacts.
Local Arguments String.append : simpl nomatch.

(** [sub in s]: [s] is some text, then [sub], then some text. *)
Lemma startswith_spec (p s : string) :
  startswith p s = true ↔ ∃ b, s = p +:+ b.
Proof.
  revert s. induction p as [|a p IH]; intros s; simpl.
  - split; [by exists s|done].
  - destruct s as [|c s]; simpl.
    + split; [done|]. by intros [b Hb].
    + rewrite andb_true_iff, IH. unfold ch_eqb. rewrite Ascii.eqb_eq. split.
      * intros [-> [b ->]]. by exists b.
      * intros [b Hb]. injection Hb as -> ->. split; [done|by exists b].
Qed.

Lemma has_substring_spec (sub s : string) :
  has_substring sub s = true ↔ ∃ a b, s = a +:+ sub +:+ b.
Proof.
  induction s as [|c s IH].
  - simpl. rewrite orb_false_r, startswith_spec. split.
    + intros [b Hb]. by exists EmptyString, b.
    + intros (a & b & Hab). destruct a as [|x a]; [by exists b|done].
  - change (has_substring sub (String c s))
      with (startswith sub (String c s) || has_substring sub s).
    rewrite orb_true_iff, startswith_spec, IH. split.
    + intros [[b Hb]|(a & b & ->)].
      * by exists EmptyString, b.
      * by exists (String c a), b.
    + intros (a & b & Hab). destruct a as [|x a].
      * left. by exists b.
      * right. rewrite str_app_cons in Hab. injection Hab as -> ->.
        by exists a, b.
Qed.

Lemma endswith_spec (suf s : string) :
  endswith suf s = true ↔ ∃ a, s = a +:+ suf.
Proof.
  unfold endswith. split.
  - destruct (strip_suffix suf s) as [r|] eqn:Hr; [|done].
    intros _. exists r. by apply strip_suffix_app.
  - intros [a ->]. induction a as [|c a IH].
    + rewrite str_app_nil_l, strip_suffix_unfold. by rewrite String.eqb_refl.
    + rewrite str_app_cons, strip_suffix_unfold.
      destruct (String.eqb _ suf); [done|].
      by destruct (strip_suffix suf (a +:+ suf)).
Qed.

Lemma str_length_app (a b : string) :
  String.length (a +:+ b) = (String.length a + String.length b)%nat.
Proof.
  induction a as [|x a IH]; [done|]. rewrite str_app_cons. simpl. by rewrite IH.
Qed.

End TextFacts.

(** ** When the canonical form is canonical *)

Module IdempotenceProps.
Import PyStr Urllib Frontier StrFacts NormalizeProps TextFacts.
Local Arguments String.append : simpl nomatch.
Local Arguments ch_eqb : simpl never.









Section WithHostSyntax.
Context `{HostSyntax} {case_mapping : CaseMapping}.



End WithHostSyntax.













Section Again.
Context `{HostSyntax} {case_mapping : CaseMapping}.








End Again.




End IdempotenceProps.

(** ** The order of the query parameters *)

Module QueryOrderProps.
Import PyStr Urllib Frontier StrFacts QueryProps SortQueryProps.
Local Arguments String.append : simpl nomatch.

(** The order of two items of a dict: the order of their keys. *)
Definition item_le (x y : string * list string) : Prop :=
  String.le (fst x) (fst y).

#[local] Instance item_le_trans : Transitive item_le.
Proof. intros x y z. unfold item_le. apply transitivity. Qed.

Lemma item_sorted_Sorted (l : qdict) : item_sorted l → Sorted item_le l.
Proof.
  induction l as [|x l IH]; [constructor|]. intros Hs.
  destruct l as [|y l]; [by repeat constructor|]. destruct Hs as [Hxy Hs].
  constructor; [by apply IH|]. constructor. unfold item_le, String.le.
  by rewrite Hxy.
Qed.

(** Two dicts with the same items have the same sorted items. *)
Lemma sorted_items_unique (d1 d2 : qdict) :
  NoDup (map fst d1) → d1 ≡ₚ d2 → sorted_items d1 = sorted_items d2.
Proof.
  intros Hnd Hp.
  apply (sorting.Sorted_unique_strong item_le).
  - intros x1 x2 H1 H2 H12 H21.
    assert (Hk : fst x1 = fst x2) by by apply (anti_symm String.le).
    rewrite sorted_items_perm in H1. rewrite sorted_items_perm, <- Hp in H2.
    clear -Hnd Hk H1 H2. induction d1 as [|y d1 IH]; [by inversion H1|].
    simpl in Hnd. apply NoDup_cons in Hnd as [Hy Hnd].
    apply elem_of_cons in H1 as [->|H1]; apply elem_of_cons in H2 as [->|H2].
    + done.
    + exfalso. apply Hy. rewrite Hk. by apply list_elem_of_fmap_2.
    + exfalso. apply Hy. rewrite <- Hk. by apply list_elem_of_fmap_2.
    + by apply IH.
  - apply item_sorted_Sorted, sorted_items_sorted.
  - apply item_sorted_Sorted, sorted_items_sorted.
  - by rewrite !sorted_items_perm.
Qed.

(** The canonical query denotes the parameters of the query: parsed, it gives
    the dict of the query with the keys in sorted order. *)
Lemma parse_qs_sort_query (q : string) :
  parse_qs (sort_query q) = sorted_items (parse_qs q).
Proof.
  unfold sort_query. destruct (truthy q) eqn:Ht.
  - apply parse_qs_urlencode, sorted_items_well_formed, parse_qs_well_formed.
  - by apply not_truthy in Ht as ->.
Qed.

Lemma item_sorted_tail (x : string * list string) (l : qdict) :
  item_sorted (x :: l) → item_sorted l.
Proof. destruct l; [done|]. by intros [_ ?]. Qed.

Lemma flat_pairs_dict_add (k v : string) (d : qdict) :
  flat_pairs (dict_add k v d) ≡ₚ flat_pairs d ++ [(k, v)].
Proof.
  induction d as [|[k' vs] d IH]; [done|]. simpl.
  destruct (String.eqb_spec k' k) as [->|Hne].
  - unfold flat_pairs. simpl. rewrite map_app. simpl.
    rewrite <- !List.app_assoc. apply Permutation_app_head.
    apply Permutation_app_comm.
  - unfold flat_pairs in *. simpl. rewrite IH. by rewrite List.app_assoc.
Qed.

Lemma flat_pairs_parse_qs (q : string) : flat_pairs (parse_qs q) ≡ₚ parse_qsl q.
Proof.
  unfold parse_qs.
  assert (Hg : ∀ ps d,
             flat_pairs
               (fold_left (fun d nv => dict_add (fst nv) (snd nv) d) ps d)
             ≡ₚ flat_pairs d ++ ps).
  { induction ps as [|[k v] ps IH]; intros d; simpl.
    - by rewrite List.app_nil_r.
    - rewrite IH, flat_pairs_dict_add. by rewrite <- List.app_assoc. }
  apply (Hg (parse_qsl q) []).
Qed.

(** No parameter is lost or added by sorting: the canonical query has the
    keys of the query, each with its values in the order they have in the
    query, its keys are in sorted order, and its name-value pairs are those
    of the query. *)
Theorem sort_query_parameters (q : string) :
  let d := parse_qs (sort_query q) in
  d ≡ₚ parse_qs q
  ∧ item_sorted d
  ∧ (∀ k vs, (k, vs) ∈ d ↔ (k, vs) ∈ parse_qs q)
  ∧ parse_qsl (sort_query q) ≡ₚ parse_qsl q.
Proof.
  cbv zeta. rewrite parse_qs_sort_query.
  pose proof (sorted_items_perm (parse_qs q)) as Hp.
  split; [done|]. split; [apply sorted_items_sorted|]. split.
  - intros k vs. by rewrite Hp.
  - rewrite <- (flat_pairs_parse_qs q), <- (flat_pairs_parse_qs (sort_query q)).
    rewrite parse_qs_sort_query. unfold flat_pairs.
    by apply Permutation_flat_map.
Qed.

(** Two queries with the same parameters, in whatever order of the keys, have
    the same canonical query. *)
Lemma sort_query_order (q1 q2 : string) :
  parse_qs q1 ≡ₚ parse_qs q2 → sort_query q1 = sort_query q2.
Proof.
  intros Hp.
  assert (Hs : sorted_items (parse_qs q1) = sorted_items (parse_qs q2)).
  { apply sorted_items_unique; [|done]. apply parse_qs_well_formed. }
  assert (He : ∀ q, truthy q = false → sorted_items (parse_qs q) = []).
  { intros q Hq. by apply not_truthy in Hq as ->. }
  unfold sort_query.
  destruct (truthy q1) eqn:H1, (truthy q2) eqn:H2.
  - by rewrite Hs.
  - by rewrite Hs, (He q2 H2).
  - by rewrite <- Hs, (He q1 H1).
  - done.
Qed.

Lemma split_not_nil (c : ascii) (s : string) : split c s ≠ [].
Proof.
  induction s as [|x s IH]; [done|]. simpl.
  destruct (ch_eqb x c); [done|]. by destruct (split c s).
Qed.

Lemma split_app_gen (c : ascii) (a b : string) :
  split c (a +:+ String c b) = split c a ++ split c b.
Proof.
  induction a as [|x a IH].
  - rewrite str_app_nil_l. simpl. by rewrite ch_eqb_refl.
  - rewrite str_app_cons. simpl. rewrite IH.
    destruct (ch_eqb x c); [done|].
    pose proof (split_not_nil c a). by destruct (split c a).
Qed.

(** The pairs of one [name=value] field. *)
Definition field_pairs (name_value : string) : list (string * string) :=
  if negb (truthy name_value) then []
  else
    let '(n, v) :=
      match split_once "=" name_value with
      | (n, Some v) => (n, v)
      | (n, None) => (n, EmptyString)
      end in
    [(unquote_plus n, unquote_plus v)].

Lemma parse_qsl_fields (q : string) :
  parse_qsl q = flat_map field_pairs (split "&" q).
Proof. unfold parse_qsl. by destruct q. Qed.

Lemma parse_qsl_app (q1 q2 : string) :
  parse_qsl (q1 +:+ "&" +:+ q2) = parse_qsl q1 ++ parse_qsl q2.
Proof.
  rewrite !parse_qsl_fields.
  change ("&" +:+ q2)%string with (String "&" q2).
  by rewrite split_app_gen, flat_map_app.
Qed.

Lemma dict_add_app (k v : string) (d0 d : qdict) :
  k ∉ map fst d0 → dict_add k v (d0 ++ d) = d0 ++ dict_add k v d.
Proof.
  induction d0 as [|[k' vs] d0 IH]; [done|]. simpl.
  intros Hk. apply not_elem_of_cons in Hk as [Hne Hk].
  destruct (String.eqb_spec k' k) as [->|]; [done|]. by rewrite IH.
Qed.

Lemma fold_add_pair_app (ps : list (string * string)) (d0 d : qdict) :
  (∀ k, k ∈ map fst ps → k ∉ map fst d0) →
  fold_left add_pair ps (d0 ++ d) = d0 ++ fold_left add_pair ps d.
Proof.
  revert d. induction ps as [|[k v] ps IH]; intros d Hk; [done|]. simpl.
  unfold add_pair at 2 4. simpl.
  rewrite dict_add_app by (apply Hk; left).
  apply IH. intros k' Hk'. apply Hk. by right.
Qed.

Lemma fold_add_pair_keys (ps : list (string * string)) (d : qdict) (x : string) :
  x ∈ map fst (fold_left add_pair ps d) → x ∈ map fst ps ∨ x ∈ map fst d.
Proof.
  revert d. induction ps as [|[k v] ps IH]; intros d; simpl; [by right|].
  intros [Hx|Hx]%IH.
  - left. by right.
  - apply dict_add_keys in Hx as [->|Hx]; [left; left|by right].
Qed.

Lemma parse_qs_app (q1 q2 : string) :
  (∀ k, k ∈ map fst (parse_qsl q1) → k ∉ map fst (parse_qsl q2)) →
  parse_qs (q1 +:+ "&" +:+ q2) = parse_qs q1 ++ parse_qs q2.
Proof.
  intros Hd. unfold parse_qs. fold add_pair.
  change (fun d nv => dict_add (fst nv) (snd nv) d) with add_pair.
  rewrite parse_qsl_app, fold_left_app.
  rewrite <- (List.app_nil_r (fold_left add_pair (parse_qsl q1) [])) at 1.
  apply fold_add_pair_app. intros k Hk2 Hk1.
  apply fold_add_pair_keys in Hk1 as [Hk1|Hk1]; [|by inversion Hk1].
  by apply (Hd k).
Qed.

(** Two parts of a query that share no parameter name can be swapped: the
    canonical query is the same. *)
Theorem sort_query_swap (q1 q2 : string) :
  (∀ k, k ∈ map fst (parse_qsl q1) → k ∉ map fst (parse_qsl q2)) →
  sort_query (q1 +:+ "&" +:+ q2) = sort_query (q2 +:+ "&" +:+ q1).
Proof.
  intros Hd. apply sort_query_order.
  rewrite (parse_qs_app q1 q2 Hd).
  rewrite (parse_qs_app q2 q1) by (intros k H2 H1; by apply (Hd k)).
  apply Permutation_app_comm.
Qed.

Lemma sort_query_swap_witness :
  sort_query "tag=b&tag=a&page=2" = sort_query "page=2&tag=b&tag=a".
Proof.
  apply (sort_query_swap "tag=b&tag=a" "page=2").
  intros k Hk Hp.
  change (map fst (parse_qsl "tag=b&tag=a")) with ["tag"; "tag"]%string in Hk.
  change (map fst (parse_qsl "page=2")) with ["page"]%string in Hp.
  apply list_elem_of_singleton in Hp. subst k.
  by repeat (apply elem_of_cons in Hk as [Hk|Hk]; [done|]);
    apply not_elem_of_nil in Hk.
Defined.

End QueryOrderProps.

(** ** The shape of a canonical form *)

Module CanonicalProps.
Import PyStr Urllib Frontier StrFacts NormalizeProps TextFacts.
Import IdempotenceProps.
Local Arguments String.append : simpl nomatch.
Local Arguments ch_eqb : simpl never.

Ltac rewrite_orb_false :=
  match goal with
  | Hf : ?x = false |- context [?x] => rewrite Hf
  end.

Section Generic.
Context `{HostSyntax} {case_mapping : CaseMapping}.

(** The parts of a canonical form. *)
Lemma normalize_url_cases (url : string) (parent_url : option string)
    (c : string) :
  normalize_url url parent_url = Some c →
  ∃ u p,
    resolve_relative url parent_url = Some u
    ∧ urlparse u = Some p
    ∧ (scheme p = "http"%string ∨ scheme p = "https"%string)
    ∧ c = urlunparse
            (mkParse (scheme p)
               (strip_default_port (scheme p) (lower (netloc p)))
               (clean_path (path p)) (params p) (sort_query (query p)) "").
Proof.
  destruct (resolve_relative url parent_url) as [u|] eqn:Hu;
    [|by unfold normalize_url; rewrite Hu].
  destruct (urlparse u) as [p|] eqn:Hp;
    [|by unfold normalize_url; rewrite Hu; simpl; rewrite Hp].
  rewrite (normalize_url_parsed url parent_url u p Hu Hp).
  destruct (mem (scheme p) ["http"; "https"]%string) eqn:Hm; [|done].
  cbn [negb]. intros [= <-].
  assert (Hsch : scheme p = "http"%string ∨ scheme p = "https"%string).
  { unfold mem in Hm. simpl in Hm.
    destruct (String.eqb_spec (scheme p) "http"); [by left|].
    destruct (String.eqb_spec (scheme p) "https"); [by right|done]. }
  exists u, p. repeat split; try done.
  by destruct Hsch as [-> | ->].
Qed.

(** The text of [urlunparse] for the scheme http or https: the scheme, [://]
    and the rest. *)
Lemma urlunparse_text (sch nl pa prm qry : string) :
  sch = "http"%string ∨ sch = "https"%string →
  ∃ rest,
    urlunparse (mkParse sch nl pa prm qry "")
    = sch +:+ "://" +:+ rest
      +:+ (if truthy qry then String "?" qry else EmptyString)
    ∧ ∀ q : ascii → bool,
        has_char q nl = false → has_char q pa = false →
        has_char q prm = false → q "/"%char = false → q ";"%char = false →
        has_char q rest = false.
Proof.
  intros Hsch. unfold urlunparse, urlunsplit.
  cbn [params path scheme netloc query fragment
       s_path s_netloc s_scheme s_query s_fragment].
  set (url := if truthy prm then pa +:+ ";" +:+ prm else pa).
  assert (Hurl : ∀ q : ascii → bool,
             has_char q pa = false → has_char q prm = false →
             q ";"%char = false → has_char q url = false).
  { intros q Hpa Hprm Hsemi. subst url. destruct (truthy prm); [|done].
    rewrite !has_char_app, Hpa, Hprm. simpl. by rewrite Hsemi. }
  assert (Hs : truthy sch = true) by by destruct Hsch as [-> | ->].
  assert (Hn : mem sch uses_netloc = true) by by destruct Hsch as [-> | ->].
  rewrite Hs, Hn. cbn [truthy andb].
  assert (Htail : ∀ body,
             (if truthy qry then (sch +:+ ":" +:+ body) +:+ "?" +:+ qry
              else sch +:+ ":" +:+ body)
             = sch +:+ ":" +:+ body
               +:+ (if truthy qry then String "?" qry else EmptyString)).
  { intros body. destruct (truthy qry).
    - by rewrite !str_app_assoc.
    - by rewrite str_app_nil_r. }
  destruct (truthy nl || negb (startswith "//" url)) eqn:Hc.
  - exists (nl +:+ (if truthy url && negb (startswith "/" url)
                    then "/" +:+ url else url)).
    split.
    + rewrite Htail. by rewrite !str_app_assoc.
    + intros q Hqn Hqpa Hqprm Hqs Hqsemi. rewrite has_char_app, Hqn.
      cbn [orb]. specialize (Hurl q Hqpa Hqprm Hqsemi).
      destruct (truthy url && negb (startswith "/" url)); [|done].
      rewrite has_char_app, Hurl. simpl. by rewrite Hqs.
  - apply orb_false_iff in Hc as [Hnl Hsw].
    apply negb_false_iff in Hsw.
    apply startswith_spec in Hsw as [rest Hrest].
    exists rest. split.
    + rewrite Htail, Hrest. by rewrite !str_app_assoc.
    + intros q Hqn Hqpa Hqprm Hqs Hqsemi.
      specialize (Hurl q Hqpa Hqprm Hqsemi). rewrite Hrest in Hurl.
      rewrite has_char_app in Hurl. by apply orb_false_iff in Hurl as [_ ?].
Qed.

(** A class of characters that occurs in no part of a canonical form and is
    not among the characters [normalize_url] writes itself does not occur in
    the canonical form. *)
Lemma canonical_free (q : ascii → bool) (url : string)
    (parent_url : option string) (c : string) :
  normalize_url url parent_url = Some c →
  has_char q "https://?;" = false →
  (∀ nl pa qry, clean_parts nl pa qry →
                has_char q nl = false ∧ has_char q pa = false
                ∧ has_char q qry = false) →
  (∀ prm, clean_params prm → has_char q prm = false) →
  has_char q c = false.
Proof.
  intros Hn Hq Hparts Hparams.
  destruct (normalize_url_cases url parent_url c Hn)
    as (u & p & _ & Hp & Hsch & ->).
  destruct (urlparse_clean u p Hp) as [Hc Hprm].
  pose proof (normalized_parts_clean (scheme p) _ _ _ Hc) as Hc'.
  destruct (Hparts _ _ _ Hc') as (Hq1 & Hq2 & Hq3).
  specialize (Hparams _ Hprm).
  simpl in Hq. repeat (apply orb_false_iff in Hq as [? Hq]).
  destruct (urlunparse_text (scheme p)
              (strip_default_port (scheme p) (lower (netloc p)))
              (clean_path (path p)) (params p) (sort_query (query p)) Hsch)
    as (rest & -> & Hrest).
  rewrite !has_char_app, (Hrest q) by done.
  assert (has_char q (scheme p) = false) as ->.
  { clear Hq. destruct Hsch as [-> | ->]; simpl; by repeat rewrite_orb_false. }
  clear Hq. simpl. repeat rewrite_orb_false.
  destruct (truthy (sort_query (query p))); simpl; by repeat rewrite_orb_false.
Qed.

Lemma normalize_url_truthy (url : string) (parent_url : option string)
    (c : string) :
  normalize_url url parent_url = Some c → truthy c = true.
Proof.
  intros Hn.
  destruct (normalize_url_cases url parent_url c Hn)
    as (u & p & _ & _ & Hsch & ->).
  destruct (urlunparse_text (scheme p)
              (strip_default_port (scheme p) (lower (netloc p)))
              (clean_path (path p)) (params p) (sort_query (query p)) Hsch)
    as (rest & -> & _).
  by destruct Hsch as [-> | ->].
Qed.

(** A canonical form starts with [http://] or [https://], in lower case,
    whatever the case of the scheme in the URL given; it is never the empty
    string. *)
Theorem normalize_url_scheme_prefix (url : string)
    (parent_url : option string) (c : string) :
  normalize_url url parent_url = Some c →
  (startswith "http://" c = true ∨ startswith "https://" c = true)
  ∧ truthy c = true.
Proof.
  intros Hn. split; [|by eapply normalize_url_truthy].
  destruct (normalize_url_cases url parent_url c Hn)
    as (u & p & _ & _ & Hsch & ->).
  destruct (urlunparse_text (scheme p)
              (strip_default_port (scheme p) (lower (netloc p)))
              (clean_path (path p)) (params p) (sort_query (query p)) Hsch)
    as (rest & -> & _).
  destruct Hsch as [-> | ->]; [left|right];
    apply startswith_spec; eexists; reflexivity.
Qed.

(** A canonical form has no fragment: it holds no [#]; and it holds no tab,
    carriage return or newline. *)
Theorem normalize_url_no_fragment (url : string)
    (parent_url : option string) (c : string) :
  normalize_url url parent_url = Some c →
  contains "#" c = false ∧ has_char unsafe_byte c = false.
Proof.
  intros Hn. split.
  - apply (canonical_free (ch_eqb "#") url parent_url c Hn); [done| |].
    + intros nl pa qry [_ Hd _ Hp _ _ _ Hq]. repeat split; try done.
      apply (all_chars_has_char _ (fun c => negb (netloc_delim c))).
      * intros ch. rewrite netloc_delim_cases. by destruct (ch_eqb "#" ch).
      * clear -Hd. induction nl as [|x nl IH]; [done|]. simpl in *.
        apply orb_false_iff in Hd as [-> Hd]. by rewrite IH.
    + by intros prm [].
  - apply (canonical_free unsafe_byte url parent_url c Hn); [done| |].
    + by intros nl pa qry [].
    + by intros prm [].
Qed.


(** What [normalize_url] identifies: two URLs with the same scheme, the same
    authority up to letter case and a default port, the same path up to
    trailing slashes, the same parameters and the same query parameters in
    whatever order of the keys have the same canonical form; their fragments
    play no part. *)
Theorem normalize_url_equivalent (u1 u2 : string) (p1 p2 : ParseResult) :
  urlparse u1 = Some p1 →
  urlparse u2 = Some p2 →
  scheme p1 = scheme p2 →
  strip_default_port (lower (scheme p1)) (lower (netloc p1))
  = strip_default_port (lower (scheme p2)) (lower (netloc p2)) →
  clean_path (path p1) = clean_path (path p2) →
  params p1 = params p2 →
  parse_qs (query p1) ≡ₚ parse_qs (query p2) →
  normalize_url u1 None = normalize_url u2 None.
Proof.
  intros H1 H2 Hs Hn Hp Hprm Hq.
  rewrite (normalize_url_parsed u1 None u1 p1 eq_refl H1).
  rewrite (normalize_url_parsed u2 None u2 p2 eq_refl H2).
  by rewrite Hn, Hp, Hprm, (QueryOrderProps.sort_query_order _ _ Hq), Hs.
Qed.

Lemma has_char_lstrip (q r : ascii → bool) (s : string) :
  has_char q s = false → has_char q (lstrip r s) = false.
Proof.
  induction s as [|c s IH]; [done|]. simpl.
  intros [Hc Hs]%orb_false_iff. destruct (r c); [by apply IH|].
  simpl. by rewrite Hc, Hs.
Qed.

Lemma has_char_remove_chars (q r : ascii → bool) (s : string) :
  has_char q s = false → has_char q (remove_chars r s) = false.
Proof.
  induction s as [|c s IH]; [done|]. simpl.
  intros [Hc Hs]%orb_false_iff. destruct (r c); [by apply IH|].
  simpl. by rewrite Hc, IH.
Qed.

Lemma break_none (q : ascii → bool) (s : string) :
  has_char q s = false → break q s = (s, EmptyString).
Proof.
  intros Hs. pose proof (break_unique q s "" Hs eq_refl) as Hb.
  by rewrite str_app_nil_r in Hb.
Qed.

(** The scheme [urlparse] finds in a URL without a colon, and in a URL that
    starts with a slash, is the empty one. *)
Lemma urlparse_no_scheme (url : string) (p : ParseResult) :
  contains ":" url = false ∨ startswith "/" url = true →
  urlparse url = Some p → scheme p = EmptyString.
Proof.
  intros Hu. unfold urlparse, urlparse_with, urlsplit.
  change (remove_chars unsafe_byte (rstrip c0_or_space (lstrip c0_or_space "")))
    with EmptyString.
  set (url2 := remove_chars unsafe_byte (lstrip c0_or_space url)).
  assert (Hs : split_scheme url2 "" = (EmptyString, url2)).
  { unfold split_scheme. destruct Hu as [Hc|Hsl].
    - assert (Hc2 : has_char (ch_eqb ":") url2 = false)
        by by apply has_char_remove_chars, has_char_lstrip.
      rewrite (break_none _ _ Hc2). by destruct url2.
    - assert (H2 : ∃ t, url2 = String "/" t).
      { subst url2. destruct url as [|c t]; [done|]. simpl in Hsl.
        apply andb_true_iff in Hsl as [Hc _]. apply ch_eqb_eq in Hc as <-.
        by eexists. }
      destruct H2 as [t ->]. simpl.
      destruct (break (ch_eqb ":") t) as [a [|x b]]; done. }
  rewrite Hs.
  destruct (startswith "//" url2).
  - destruct (_splitnetloc2 url2) as [nl rest].
    destruct (brackets_ok nl); [|done].
    rewrite split_fragment_query_parts. cbv zeta. cbv iota beta.
    destruct (if _ && _ then _ else _). by intros [= <-].
  - rewrite split_fragment_query_parts. cbv zeta. cbv iota beta.
    destruct (if _ && _ then _ else _). by intros [= <-].
Qed.

(** What [normalize_url] rejects whatever the host: a URL that starts with
    [//] (a scheme-relative reference is not resolved against the parent and
    has no scheme of its own), and, without a parent URL, a URL without a
    colon or starting with a slash (a relative reference). *)
Theorem normalize_url_rejects (url : string) (parent_url : option string) :
  (startswith "//" url = true → normalize_url url parent_url = None)
  ∧ (contains ":" url = false ∨ startswith "/" url = true →
     normalize_url url None = None).
Proof.
  assert (Hrel : contains ":" url = false ∨ startswith "/" url = true →
                 ∀ par, resolve_relative url par = Some url →
                        normalize_url url par = None).
  { intros Hu par Hres. unfold normalize_url. rewrite Hres. simpl.
    destruct (urlparse url) as [p|] eqn:Hp; [|done]. simpl.
    by rewrite (urlparse_no_scheme url p Hu Hp). }
  split.
  - intros Hs. apply Hrel.
    + right. destruct url as [|c t]; [done|]. simpl in *.
      apply andb_true_iff in Hs as [-> _]. by destruct t.
    + unfold resolve_relative. destruct parent_url as [par|]; [|done].
      rewrite Hs, !orb_true_r. simpl. by rewrite andb_false_r.
  - intros Hu. by apply Hrel.
Qed.

End Generic.
Lemma normalize_url_scheme_prefix_witness :
  (startswith "http://" "http://example.com/a?a=2&b=1" = true
   ∨ startswith "https://" "http://example.com/a?a=2&b=1" = true)
  ∧ truthy "http://example.com/a?a=2&b=1" = true.
Proof.
  apply (@normalize_url_scheme_prefix no_bracketed_host
           "HTTP://Example.com:80/a?b=1&a=2#top" None).
  vm_compute. reflexivity.
Defined.

Lemma normalize_url_no_fragment_witness :
  contains "#" "http://example.com/a?a=2&b=1" = false
  ∧ has_char unsafe_byte "http://example.com/a?a=2&b=1" = false.
Proof.
  apply (@normalize_url_no_fragment no_bracketed_host
           "HTTP://Example.com:80/a?b=1&a=2#top" None).
  vm_compute. reflexivity.
Defined.


Lemma normalize_url_equivalent_witness :
  @normalize_url no_bracketed_host "HTTP://Example.COM:80/a/?b=1&a=2#top" None
  = @normalize_url no_bracketed_host "http://example.com/a?a=2&b=1" None.
Proof.
  apply (@normalize_url_equivalent no_bracketed_host
           "HTTP://Example.COM:80/a/?b=1&a=2#top"
           "http://example.com/a?a=2&b=1"
           (mkParse "http" "Example.COM:80" "/a/" "" "b=1&a=2" "top")
           (mkParse "http" "example.com" "/a" "" "a=2&b=1" "")).
  - vm_compute. reflexivity.
  - vm_compute. reflexivity.
  - reflexivity.
  - vm_compute. reflexivity.
  - vm_compute. reflexivity.
  - reflexivity.
  - change (parse_qs "b=1&a=2")
      with [("b"%string, ["1"%string]); ("a"%string, ["2"%string])].
    change (parse_qs "a=2&b=1")
      with [("a"%string, ["2"%string]); ("b"%string, ["1"%string])].
    apply Permutation_swap.
Defined.

Lemma normalize_url_rejects_witness :
  @normalize_url no_bracketed_host "//cdn.example.com/lib.js"
    (Some "https://example.org/"%string) = None
  ∧ @normalize_url no_bracketed_host "/about" None = None.
Proof.
  split.
  - apply (proj1 (@normalize_url_rejects no_bracketed_host
                    "//cdn.example.com/lib.js"
                    (Some "https://example.org/"%string))).
    reflexivity.
  - apply (proj2 (@normalize_url_rejects no_bracketed_host "/about" None)).
    right. reflexivity.
Defined.

End CanonicalProps.

(** ** Patterns, marking and the bookkeeping of the frontier *)

Module FrontierProps.
Import PyStr Urllib Frontier Invariants StrFacts TextFacts.
Local Arguments String.append : simpl nomatch.

Section Generic.
Context `{HostSyntax} {case_mapping : CaseMapping}.

(** A pattern occurs in a URL, letter case ignored: the URL in lower case is
    some text, the pattern in lower case, and some more text. *)
Definition occurs_in (pattern url : string) : Prop :=
  ∃ a b, str_lower url = a +:+ str_lower pattern +:+ b.

(** [should_exclude_url] excludes a URL exactly when one of the patterns
    occurs in it, letter case ignored on both sides, wherever the pattern
    stands in the list; and a pattern that is empty in lower case, as the
    empty pattern is where [str.lower] keeps the empty string, excludes every
    URL. *)
Theorem should_exclude_url_spec (url : string) (patterns more : list string) :
  (should_exclude_url url patterns = true
   ↔ ∃ pattern, pattern ∈ patterns ∧ occurs_in pattern url)
  ∧ should_exclude_url url (patterns ++ more)
    = should_exclude_url url patterns || should_exclude_url url more
  ∧ (∀ pattern, pattern ∈ patterns → str_lower pattern = EmptyString →
                should_exclude_url url patterns = true).
Proof.
  assert (Hspec : ∀ l, should_exclude_url url l = true
                       ↔ ∃ pattern, pattern ∈ l ∧ occurs_in pattern url).
  { intros l. unfold should_exclude_url, occurs_in. cbv zeta.
    rewrite existsb_exists. split.
    - intros (p & Hp & Hs). exists p. split; [by apply list_elem_of_In|].
      by apply has_substring_spec.
    - intros (p & Hp & Hs). exists p. split; [by apply list_elem_of_In|].
      by apply has_substring_spec. }
  split; [apply Hspec|]. split.
  - unfold should_exclude_url. cbv zeta. apply existsb_app.
  - intros p Hp He. apply Hspec. exists p. split; [done|].
    exists EmptyString, (str_lower url). by rewrite He.
Qed.

Lemma get_url_priority_range (url : string) (pp : PriorityPatterns) :
  0 <= get_url_priority url pp <= 3.
Proof. unfold get_url_priority. repeat case_match; lia. Qed.

(** A URL marked visited is reported visited under every form that has its
    canonical form, and the answer for the other URLs does not change. *)
Theorem is_visited_mark_visited (m : URLManager) (url1 url2 c : string) :
  normalize_url url1 None = Some c →
  c ∈ visited_urls (mark_visited m url1)
  ∧ (normalize_url url2 None = Some c →
     is_visited (mark_visited m url1) url2 = true)
  ∧ (normalize_url url2 None ≠ Some c →
     is_visited (mark_visited m url1) url2 = is_visited m url2).
Proof.
  intros Hn. pose proof (CanonicalProps.normalize_url_truthy _ _ _ Hn) as Ht.
  unfold mark_visited, is_visited. rewrite Hn, Ht. simpl.
  assert (Hin : c ∈ ({[c]} ∪ visited_urls m : gset string))
    by (apply elem_of_union; left; by apply elem_of_singleton).
  split; [done|]. split.
  - intros ->. rewrite Ht. by apply bool_decide_eq_true.
  - intros Hne. destruct (normalize_url url2 None) as [c2|]; [|done].
    destruct (truthy c2); [|done].
    apply bool_decide_ext. rewrite elem_of_union, elem_of_singleton.
    split; [|by right]. intros [->|Hv]; [done|done].
Qed.

(** [mark_failed] records the error under the canonical form of the URL,
    replacing an earlier error of the same URL, leaves the errors of the other
    URLs alone, and counts the call. *)
Theorem mark_failed_lookup (m : URLManager) (url error c : string) :
  normalize_url url None = Some c →
  failed_urls (mark_failed m url error) !! c = Some error
  ∧ (∀ k, k ≠ c →
          failed_urls (mark_failed m url error) !! k = failed_urls m !! k)
  ∧ (∀ error',
       failed_urls (mark_failed (mark_failed m url error') url error)
       = failed_urls (mark_failed m url error))
  ∧ total_failed (stats (mark_failed m url error))
    = total_failed (stats m) + 1
  ∧ visited_urls (mark_failed m url error) = visited_urls m
  ∧ url_queue (mark_failed m url error) = url_queue m.
Proof.
  intros Hn. pose proof (CanonicalProps.normalize_url_truthy _ _ _ Hn) as Ht.
  unfold mark_failed. rewrite Hn, Ht. simpl. repeat split.
  - apply lookup_insert_eq.
  - intros k Hk. by apply lookup_insert_ne.
  - intros error'. apply insert_insert_eq.
Qed.

(** What every call of [add_url] does. *)
Lemma add_url_outcome m url depth parent prio :
  add_url m url depth parent prio
  = match classify m url depth parent with
    | Accepted =>
        match normalize_url url parent with
        | Some c =>
            (set_stats (incr_queued (stats m))
               (set_url_hashes ({[_url_hash c]} ∪ url_hashes m)
                  (set_url_queue
                     (url_queue m ++ [mkEntry (default 3 prio) depth c parent])
                     m)), true)
        | None => (m, false)
        end
    | Duplicate => (set_stats (incr_duplicate (stats m)) m, false)
    | _ => (set_stats (incr_skipped (stats m)) m, false)
    end.
Proof.
  unfold add_url, classify.
  destruct (normalize_url url parent) as [n|]; [|done].
  destruct (truthy n); simpl; [|done].
  destruct (decide (_url_hash n ∈ url_hashes m)); [done|].
  destruct (depth >? max_depth m); [done|].
  destruct (Z.of_nat (size (visited_urls m)) >=? max_pages m); [done|].
  by destruct prio.
Qed.

Lemma classify_accepted m url depth parent :
  classify m url depth parent = Accepted →
  ∃ c, normalize_url url parent = Some c ∧ _url_hash c ∉ url_hashes m.
Proof.
  unfold classify.
  destruct (normalize_url url parent) as [n|]; [|done].
  destruct (truthy n); simpl; [|done].
  destruct (decide (_url_hash n ∈ url_hashes m)); [done|].
  intros _. by exists n.
Qed.

(** The bookkeeping of a frontier: the counter of queued URLs is the size of
    the dedup index, the pending URLs have distinct hashes that are in the
    index, and the counters of visited and failed URLs, which count calls,
    bound the sizes of the visited set and of the failed map. *)
Record consistent (m : URLManager) : Prop := mkConsistent {
  queued_is_index : total_queued (stats m) = Z.of_nat (size (url_hashes m));
  pending_distinct :
    NoDup ((fun e => _url_hash (e_url e)) <$> url_queue m);
  pending_indexed : queue_indexed m;
  visited_counted :
    Z.of_nat (size (visited_urls m)) <= total_visited (stats m);
  failed_counted :
    Z.of_nat (size (failed_urls m)) <= total_failed (stats m);
  skipped_counted : 0 <= total_skipped (stats m);
  duplicates_counted : 0 <= duplicate_count (stats m) }.

Lemma add_url_consistent m url depth parent prio :
  consistent m → consistent (fst (add_url m url depth parent prio)).
Proof.
  intros [H1 H2 H3 H4 H5 H6 H7]. rewrite add_url_outcome.
  destruct (classify m url depth parent) eqn:Hc;
    try (constructor; simpl; try done; lia).
  destruct (classify_accepted _ _ _ _ Hc) as (c & -> & Hfresh).
  constructor; simpl; try done.
  - rewrite size_union by (by apply disjoint_singleton_l).
    rewrite size_singleton. lia.
  - rewrite fmap_app. apply NoDup_app. split; [done|]. split.
    + intros h Hh Hin. apply list_elem_of_singleton in Hin.
      simpl in Hin. subst h. apply Hfresh. apply list_elem_of_fmap in Hh as (e & -> & He).
      unfold queue_indexed in H3. rewrite Forall_forall in H3. by apply H3.
    + apply NoDup_singleton.
  - unfold queue_indexed. simpl. apply Forall_app. split.
    + eapply Forall_impl; [exact H3|]. simpl. intros e He.
      apply elem_of_union. by right.
    + repeat constructor. simpl. apply elem_of_union. left.
      by apply elem_of_singleton.
Qed.

Lemma get_next_url_consistent m :
  consistent m → consistent (fst (get_next_url m)).
Proof.
  intros [H1 H2 H3 H4 H5 H6 H7].
  destruct (get_next_url_cases m) as [[_ ->]|(e & rest & Hp & ->)]; simpl.
  - by constructor.
  - constructor; simpl; try done.
    + rewrite <- Hp in H2. simpl in H2. by apply NoDup_cons in H2 as [_ ?].
    + unfold queue_indexed in *. simpl. rewrite <- Hp in H3.
      by inversion H3.
Qed.

Lemma mark_visited_consistent m url :
  consistent m → consistent (mark_visited m url).
Proof.
  intros [H1 H2 H3 H4 H5 H6 H7].
  pose proof (mark_visited_size m url) as (Hs & Hq & Hh & _).
  constructor; rewrite ?Hq, ?Hh; try done;
    unfold queue_indexed; rewrite ?Hq, ?Hh; try done;
    revert Hs; unfold mark_visited;
    destruct (normalize_url url None) as [n|]; try done;
    destruct (truthy n); try done; simpl; lia.
Qed.

Lemma mark_failed_consistent m url error :
  consistent m → consistent (mark_failed m url error).
Proof.
  intros [H1 H2 H3 H4 H5 H6 H7].
  pose proof (mark_failed_frame m url error) as (Hv & Hq & Hh & _).
  constructor; rewrite ?Hq, ?Hh, ?Hv; try done;
    unfold queue_indexed; rewrite ?Hq, ?Hh; try done;
    unfold mark_failed;
    destruct (normalize_url url None) as [n|]; try done;
    destruct (truthy n); try done; simpl; try lia.
  destruct (failed_urls m !! n) as [e|] eqn:Hl.
  - rewrite map_size_insert_Some by done. lia.
  - rewrite map_size_insert_None by done. lia.
Qed.

(** The frontiers reached when every checkpoint that is loaded is a copy of
    what [save_state] returned, made when it returned: the checkpoint the
    scraper reads back from the progress file is one. *)
Inductive reachable_by_copies : URLManager → Prop :=
  | copies_init base max_depth max_pages m :
      init base max_depth max_pages = Some m → reachable_by_copies m
  | copies_add_url m url depth parent prio :
      reachable_by_copies m →
      reachable_by_copies (fst (add_url m url depth parent prio))
  | copies_get_next_url m :
      reachable_by_copies m → reachable_by_copies (fst (get_next_url m))
  | copies_mark_visited m url :
      reachable_by_copies m → reachable_by_copies (mark_visited m url)
  | copies_mark_failed m url error :
      reachable_by_copies m → reachable_by_copies (mark_failed m url error)
  | copies_load_state m m0 :
      reachable_by_copies m → reachable_by_copies m0 →
      reachable_by_copies (load_state m0 (save_state m)).

Lemma reachable_by_copies_reachable m : reachable_by_copies m → reachable m.
Proof.
  induction 1 as [base d p m Hi|m url depth parent prio _ IH|m _ IH
                 |m url _ IH|m url error _ IH|m m0 _ IH _ IH0].
  - by eapply reach_init.
  - by apply reach_add_url.
  - by apply reach_get_next_url.
  - by apply reach_mark_visited.
  - by apply reach_mark_failed.
  - change (save_state m) with (aged_snapshot m m m).
    by apply reach_load_state.
Qed.

Lemma reachable_consistent m : reachable_by_copies m → consistent m.
Proof.
  induction 1 as [base d p m Hi|m url depth parent prio _ IH|m _ IH
                 |m url _ IH|m url error _ IH|m m0 _ IH _ _].
  - revert Hi. unfold init. destruct (_normalize_domain base); [|done].
    intros [= <-]. constructor; simpl; try done.
    + apply NoDup_nil_2.
    + apply Forall_nil_2.
  - by apply add_url_consistent.
  - by apply get_next_url_consistent.
  - by apply mark_visited_consistent.
  - by apply mark_failed_consistent.
  - by rewrite CheckpointProps.load_state_save_state.
Qed.

Lemma consistent_pending (m : URLManager) :
  consistent m →
  total_queued (stats m) = Z.of_nat (size (url_hashes m))
  ∧ NoDup (e_url <$> url_queue m)
  ∧ queue_size m <= total_queued (stats m).
Proof.
  intros [H1 H2 H3 _ _ _ _]. split; [done|]. split.
  - rewrite (list_fmap_compose e_url _url_hash) in H2.
    by apply NoDup_fmap_1 in H2.
  - rewrite H1. unfold queue_size.
    rewrite <- (length_fmap (fun e => _url_hash (e_url e))).
    rewrite <- (size_list_to_set (C:=gset string)) by done.
    apply inj_le, subseteq_size. intros h Hh.
    apply elem_of_list_to_set, list_elem_of_fmap in Hh as (e & -> & He).
    unfold queue_indexed in H3. rewrite Forall_forall in H3. by apply H3.
Qed.

(** In every frontier the methods of the class reach when the checkpoints
    loaded are copies, [total_queued] is the size of the dedup index, no URL
    is pending twice, and at most [total_queued] URLs are pending. *)
Theorem reachable_pending_distinct (m : URLManager) :
  reachable_by_copies m →
  total_queued (stats m) = Z.of_nat (size (url_hashes m))
  ∧ NoDup (e_url <$> url_queue m)
  ∧ queue_size m <= total_queued (stats m).
Proof. intros Hr. by apply consistent_pending, reachable_consistent. Qed.

(** In the statistics of a frontier the methods of the class reach when the
    checkpoints loaded are copies, the sizes [get_stats] adds are bounded by
    the counters: [visited_count] by [total_visited], [failed_count] by
    [total_failed], [queue_size] by [total_queued]; and no counter is
    negative. *)
Theorem get_stats_bounds (m : URLManager) :
  reachable_by_copies m →
  let s := get_stats m in
  0 <= visited_count s <= total_visited (counters s)
  ∧ 0 <= failed_count s <= total_failed (counters s)
  ∧ 0 <= fs_queue_size s <= total_queued (counters s)
  ∧ 0 <= total_skipped (counters s)
  ∧ 0 <= duplicate_count (counters s).
Proof.
  intros Hr%reachable_consistent.
  destruct (consistent_pending m Hr) as (_ & _ & Hq).
  destruct Hr as [_ _ _ H4 H5 H6 H7].
  simpl. unfold queue_size in *. lia.
Qed.

(** [m'] comes from [m] by calls of [add_url], [get_next_url],
    [mark_visited] and [mark_failed]. *)
Inductive evolves (m : URLManager) : URLManager → Prop :=
  | evolves_refl : evolves m m
  | evolves_add_url m' url depth parent prio :
      evolves m m' → evolves m (fst (add_url m' url depth parent prio))
  | evolves_get_next_url m' :
      evolves m m' → evolves m (fst (get_next_url m'))
  | evolves_mark_visited m' url :
      evolves m m' → evolves m (mark_visited m' url)
  | evolves_mark_failed m' url error :
      evolves m m' → evolves m (mark_failed m' url error).

(** The methods never shrink the dedup index, the visited set or the failed
    map, and never change the limits or the base domain. *)
Lemma evolves_grows m m' :
  evolves m m' →
  url_hashes m ⊆ url_hashes m'
  ∧ visited_urls m ⊆ visited_urls m'
  ∧ dom (failed_urls m) ⊆ dom (failed_urls m')
  ∧ max_depth m' = max_depth m
  ∧ max_pages m' = max_pages m
  ∧ base_domain m' = base_domain m.
Proof.
  induction 1 as [|m' url depth parent prio _ IH|m' _ IH|m' url _ IH
                 |m' url error _ IH]; [done|..];
    destruct IH as (Hh & Hv & Hf & Hd & Hp & Hb).
  - rewrite add_url_outcome.
    destruct (classify m' url depth parent); try done.
    destruct (normalize_url url parent); [|done]. simpl.
    repeat split; try done. etrans; [exact Hh|]. apply union_subseteq_r.
  - by destruct (get_next_url_cases m') as [[_ ->]|(e & rest & _ & ->)].
  - unfold mark_visited. destruct (normalize_url url None) as [n|]; [|done].
    destruct (truthy n); [|done]. simpl. repeat split; try done.
    etrans; [exact Hv|]. apply union_subseteq_r.
  - unfold mark_failed. destruct (normalize_url url None) as [n|]; [|done].
    destruct (truthy n); [|done]. simpl. repeat split; try done.
    etrans; [exact Hf|]. rewrite dom_insert. apply union_subseteq_r.
Qed.

(** Once a URL has been accepted, every later [add_url] of a URL with the
    same canonical form is skipped as a duplicate, whatever was dequeued,
    visited or failed in between, at whatever depth it is enqueued. *)
Theorem accepted_once (m m' : URLManager) (url url' : string)
    (depth depth' : Z) (parent parent' : option string) (prio : option Z) :
  classify m url depth parent = Accepted →
  evolves (fst (add_url m url depth parent prio)) m' →
  normalize_url url' parent' = normalize_url url parent →
  classify m' url' depth' parent' = Duplicate
  ∧ ∀ prio', add_url m' url' depth' parent' prio'
             = (set_stats (incr_duplicate (stats m')) m', false).
Proof.
  intros Hacc Hev Hsame.
  destruct (classify_accepted _ _ _ _ Hacc) as (c & Hc & _).
  destruct (evolves_grows _ _ Hev) as (Hh & _).
  assert (Hin : _url_hash c ∈ url_hashes m').
  { apply Hh. rewrite add_url_outcome, Hacc, Hc. simpl.
    apply elem_of_union. left. by apply elem_of_singleton. }
  assert (Hd : classify m' url' depth' parent' = Duplicate).
  { unfold classify. rewrite Hsame, Hc.
    rewrite (CanonicalProps.normalize_url_truthy _ _ _ Hc). simpl.
    by destruct (decide _). }
  split; [done|]. intros prio'. by rewrite add_url_outcome, Hd.
Qed.

End Generic.

(** The tuple [get_next_url] returns for an entry. *)
Definition returned (e : entry) : Z * string * option string :=
  (e_depth e, e_url e, e_parent e).

Lemma sorted_fixed (l : list entry) :
  DequeueProps.key_sorted l → sorted l = l.
Proof.
  induction 1 as [|a l Hlb _ IH]; [done|].
  change (sorted (a :: l)) with (insert_entry a (sorted l)). rewrite IH.
  destruct l as [|y l]; [done|]. simpl.
  inversion Hlb as [|? ? Hy _]; subst. by rewrite Hy.
Qed.

(** Draining the queue: [n] calls of [get_next_url] in a row return the
    first [n] entries of the queue sorted once, and [None] from then on.  The
    sorted queue holds the pending entries, each once; in it no entry comes
    after an entry of higher priority, or of the same priority and higher
    depth; and the sort is stable: the entries of each priority and depth are
    in the order they have in the queue. *)
Theorem dequeue_n_sorted (n : nat) (m : URLManager) :
  dequeue_n n m
  = (Some ∘ returned <$> take n (sorted (url_queue m)))
    ++ replicate (n - List.length (url_queue m)) None
  ∧ sorted (url_queue m) ≡ₚ url_queue m
  ∧ StronglySorted DequeueProps.no_later (sorted (url_queue m))
  ∧ ∀ p d, DequeueProps.ranked p d (sorted (url_queue m))
           = DequeueProps.ranked p d (url_queue m).
Proof.
  split; [|split; [apply DequeueProps.sorted_perm|split]].
  2: { apply DequeueProps.key_sorted_strongly, DequeueProps.sorted_sorted. }
  2: { intros p d. apply DequeueProps.sorted_ranked. }
  revert m. induction n as [|n IH]; intros m; [done|].
  change (dequeue_n (S n) m)
    with (let '(m', r) := get_next_url m in r :: dequeue_n n m').
  unfold get_next_url.
  destruct (url_queue m) as [|x q] eqn:Hq.
  - rewrite IH, Hq. change (sorted []) with (@nil entry).
    by rewrite !take_nil, Nat.sub_0_r.
  - pose proof (DequeueProps.sorted_sorted (x :: q)) as Hs.
    pose proof (DequeueProps.sorted_perm (x :: q)) as Hp.
    destruct (sorted (x :: q)) as [|e rest] eqn:He.
    { by apply Permutation_nil_cons in Hp. }
    rewrite IH. simpl url_queue.
    inversion Hs as [|? ? _ Hrest]; subst.
    rewrite (sorted_fixed rest Hrest).
    apply Permutation_length in Hp. simpl in Hp.
    injection Hp as Hp. simpl. by rewrite Hp.
Qed.

Lemma should_exclude_url_spec_witness :
  @should_exclude_url ascii_case "https://example.org/Files/Report.PDF"
    ["/login"; ".pdf"] = true
  ∧ @should_exclude_url ascii_case "https://example.org/about" [""] = true
  ∧ @should_exclude_url ascii_case "https://example.org/about"
      ["/login"; ".pdf"] = false.
Proof.
  destruct (@should_exclude_url_spec ascii_case
              "https://example.org/Files/Report.PDF" ["/login"; ".pdf"] [])
    as (Hiff & _ & _).
  destruct (@should_exclude_url_spec ascii_case
              "https://example.org/about" [""] []) as (_ & _ & Hempty).
  split; [|split].
  - apply (proj2 Hiff). exists ".pdf"%string. split; [set_solver|].
    by exists "https://example.org/files/report"%string, EmptyString.
  - apply (Hempty EmptyString); [set_solver|reflexivity].
  - reflexivity.
Defined.

Lemma is_visited_mark_visited_witness :
  let m := @mark_visited no_bracketed_host
             (EnqueueProps.example_manager 3 500)
             "HTTP://Example.com:80/a?b=1&a=2" in
  "http://example.com/a?a=2&b=1"%string ∈ visited_urls m
  ∧ @is_visited no_bracketed_host m "http://example.com/a?a=2&b=1#top" = true.
Proof.
  destruct (@is_visited_mark_visited no_bracketed_host
              (EnqueueProps.example_manager 3 500)
              "HTTP://Example.com:80/a?b=1&a=2"
              "http://example.com/a?a=2&b=1#top"
              "http://example.com/a?a=2&b=1")
    as (Hin & Hsame & _).
  - vm_compute. reflexivity.
  - split; [exact Hin|]. apply Hsame. vm_compute. reflexivity.
Defined.

Lemma mark_failed_lookup_witness :
  let m := @mark_failed no_bracketed_host
             (@mark_failed no_bracketed_host
                (EnqueueProps.example_manager 3 500)
                "http://example.com/x" "Timeout")
             "http://example.com/x/" "HTTP 404" in
  failed_urls m !! "http://example.com/x"%string = Some "HTTP 404"%string.
Proof.
  apply (@mark_failed_lookup no_bracketed_host).
  vm_compute. reflexivity.
Defined.

(** A frontier after two accepted URLs, one duplicate, one dequeue and one
    visit. *)
Definition busy_manager : URLManager :=
  let m0 := EnqueueProps.example_manager 3 500 in
  let m1 := fst (@add_url no_bracketed_host m0 "http://example.com/" 0 None
                   (Some 0)) in
  let m2 := fst (@add_url no_bracketed_host m1 "/a" 1
                   (Some "http://example.com/"%string) None) in
  let m3 := fst (@add_url no_bracketed_host m2 "http://EXAMPLE.com/a/" 1
                   None None) in
  let m4 := fst (get_next_url m3) in
  @mark_visited no_bracketed_host m4 "http://example.com/".

Lemma busy_manager_reachable :
  @reachable_by_copies no_bracketed_host busy_manager.
Proof.
  unfold busy_manager. cbv zeta.
  apply copies_mark_visited, copies_get_next_url.
  do 3 apply copies_add_url.
  apply (copies_init "example.com" 3 500). vm_compute. reflexivity.
Qed.

(** A checkpoint that is not a copy: the dict [save_state] returns for a new
    frontier, loaded again after one [add_url].  The dedup index is the empty
    one of the checkpoint, the counters are the live ones. *)
Example aged_checkpoint_counters :
  let m0 := EnqueueProps.example_manager 3 500 in
  let m1 := fst (@add_url no_bracketed_host m0 "http://example.com/a" 0 None
                   None) in
  let m2 := load_state m1 (aged_snapshot m0 m1 m1) in
  @reachable no_bracketed_host m2
  ∧ total_queued (stats m2) = 1
  ∧ url_hashes m2 = ∅.
Proof.
  intros m0 m1 m2.
  assert (H0 : @reachable no_bracketed_host m0)
    by (apply (reach_init "example.com" 3 500); vm_compute; reflexivity).
  assert (H1 : @reachable no_bracketed_host m1) by by apply reach_add_url.
  split; [by apply reach_load_state|]. split; [vm_compute; reflexivity|].
  subst m2 m0. unfold load_state, aged_snapshot. simpl.
  by rewrite elements_empty.
Qed.


Lemma reachable_pending_distinct_witness :
  total_queued (stats busy_manager)
  = Z.of_nat (size (url_hashes busy_manager))
  ∧ NoDup (e_url <$> url_queue busy_manager)
  ∧ queue_size busy_manager <= total_queued (stats busy_manager).
Proof.
  apply (@reachable_pending_distinct no_bracketed_host).
  apply busy_manager_reachable.
Defined.

Lemma get_stats_bounds_witness :
  let s := get_stats busy_manager in
  0 <= visited_count s <= total_visited (counters s)
  ∧ 0 <= failed_count s <= total_failed (counters s)
  ∧ 0 <= fs_queue_size s <= total_queued (counters s)
  ∧ 0 <= total_skipped (counters s)
  ∧ 0 <= duplicate_count (counters s).
Proof.
  apply (@get_stats_bounds no_bracketed_host).
  apply busy_manager_reachable.
Defined.

Lemma accepted_once_witness :
  let m0 := EnqueueProps.example_manager 3 500 in
  let m1 := fst (@add_url no_bracketed_host m0 "http://example.com/a" 1 None
                   None) in
  let m2 := @mark_visited no_bracketed_host (fst (get_next_url m1))
              "http://example.com/a" in
  @classify no_bracketed_host m2 "HTTP://example.com:80/a/" 0 None = Duplicate.
Proof.
  cbv zeta.
  apply (@accepted_once no_bracketed_host (EnqueueProps.example_manager 3 500) _
           "http://example.com/a" "HTTP://example.com:80/a/" 1 0 None None None).
  - vm_compute. reflexivity.
  - apply evolves_mark_visited, evolves_get_next_url, evolves_refl.
  - vm_compute. reflexivity.
Defined.

End FrontierProps.

(** ** The format of the URL hash *)

Module HashProps.
Import PyStr Frontier StrFacts TextFacts.
Local Arguments String.append : simpl nomatch.

(** A lowercase hexadecimal digit. *)
Definition lower_hex (c : ascii) : bool := is_digit c || in_range 97 102 c.

Lemma hexdig_lower_hex (n : N) : (n < 16)%N → lower_hex (Md5.hexdig n) = true.
Proof.
  intros Hn. destruct n as [|p]; [done|].
  do 4 (try destruct p as [p|p|]); try done; lia.
Qed.

Lemma hex_byte_format (b : N) :
  (b < 256)%N →
  String.length (Md5.hex_byte b) = 2%nat
  ∧ all_chars lower_hex (Md5.hex_byte b) = true.
Proof.
  intros Hb. split; [done|]. unfold Md5.hex_byte. simpl.
  rewrite !hexdig_lower_hex; [done| |].
  - apply N.mod_lt. lia.
  - apply N.Div0.div_lt_upper_bound. lia.
Qed.

Lemma le_bytes_bound (n : nat) (x : N) :
  Forall (fun b => (b < 256)%N) (Md5.le_bytes n x)
  ∧ List.length (Md5.le_bytes n x) = n.
Proof.
  revert x. induction n as [|n IH]; intros x; simpl; [by split|].
  destruct (IH (x / 256)%N) as [Hf Hl]. split; [|by rewrite Hl].
  constructor; [|done]. apply N.mod_lt. lia.
Qed.

Lemma concat_hex_bytes (bs : list N) :
  Forall (fun b => (b < 256)%N) bs →
  String.length (String.concat "" (map Md5.hex_byte bs))
  = (2 * List.length bs)%nat
  ∧ all_chars lower_hex (String.concat "" (map Md5.hex_byte bs)) = true.
Proof.
  induction 1 as [|b bs Hb _ IH]; [done|].
  destruct (hex_byte_format b Hb) as [Hl Ha].
  destruct IH as [IHl IHa].
  assert (Hc : String.concat "" (map Md5.hex_byte (b :: bs))
               = Md5.hex_byte b +:+ String.concat "" (map Md5.hex_byte bs)).
  { simpl. by destruct (map Md5.hex_byte bs). }
  rewrite Hc. split.
  - rewrite str_length_app, Hl, IHl. simpl. lia.
  - by rewrite all_chars_app, Ha, IHa.
Qed.

Lemma md5_hexdigest_format (data : string) :
  String.length (Md5.md5_hexdigest data) = 32%nat
  ∧ all_chars lower_hex (Md5.md5_hexdigest data) = true.
Proof.
  unfold Md5.md5_hexdigest. cbv zeta.
  set (r := Md5.process _ _ _).
  destruct (le_bytes_bound 4 (Md5.ra r)) as [Ha La].
  destruct (le_bytes_bound 4 (Md5.rb r)) as [Hb Lb].
  destruct (le_bytes_bound 4 (Md5.rc r)) as [Hc Lc].
  destruct (le_bytes_bound 4 (Md5.rd r)) as [Hd Ld].
  destruct (concat_hex_bytes
              (Md5.le_bytes 4 (Md5.ra r) ++ Md5.le_bytes 4 (Md5.rb r)
               ++ Md5.le_bytes 4 (Md5.rc r) ++ Md5.le_bytes 4 (Md5.rd r)))
    as [Hl Hx].
  { by repeat (apply Forall_app; split). }
  split; [|done]. rewrite Hl, !List.length_app, La, Lb, Lc, Ld. done.
Qed.

(** [_url_hash] returns 32 lowercase hexadecimal digits, for every URL. *)
Theorem url_hash_format (url : string) :
  String.length (_url_hash url) = 32%nat
  ∧ all_chars lower_hex (_url_hash url) = true.
Proof. apply md5_hexdigest_format. Qed.

End HashProps.

(** ** The base domain *)

Module DomainProps.
Import PyStr Urllib Frontier StrFacts NormalizeProps TextFacts.
Local Arguments String.append : simpl nomatch.

Section Generic.
Context `{HostSyntax} {case_mapping : CaseMapping}.

(** The authority [urlsplit] returns passed its checks on brackets. *)
Lemma urlsplit_brackets (u sch0 : string) (r : SplitResult) :
  urlsplit u sch0 = Some r → brackets_ok (s_netloc r) = true.
Proof.
  unfold urlsplit.
  destruct (split_scheme _ _) as [sch url3].
  destruct (startswith "//" url3).
  - destruct (_splitnetloc2 url3) as [nl rest].
    destruct (brackets_ok nl) eqn:Hb; [|done].
    intros [= <-]. by rewrite split_fragment_query_parts.
  - intros [= <-]. by rewrite split_fragment_query_parts.
Qed.

Lemma urlparse_brackets (u : string) (p : ParseResult) :
  urlparse u = Some p → brackets_ok (netloc p) = true.
Proof.
  unfold urlparse, urlparse_with.
  destruct (urlsplit u "") as [[sch nl spath qry frag]|] eqn:Hs; [|done].
  apply urlsplit_brackets in Hs. simpl in Hs.
  destruct (if mem sch uses_params && contains ";" spath
            then _splitparams spath else (spath, EmptyString)).
  by intros [= <-].
Qed.

(** [_normalize_domain] of the authority of a parsed URL never fails: it is
    the authority in lower case. *)
Lemma normalize_domain_netloc (u : string) (p : ParseResult) :
  urlparse u = Some p → _normalize_domain (netloc p) = Some (lower (netloc p)).
Proof.
  intros Hp. pose proof (urlparse_brackets u p Hp) as Hb.
  destruct (urlparse_clean u p Hp) as [[Hn1 Hn2 _ _ _ _ _ _] _].
  set (nl := netloc p) in *.
  assert (Hsub : has_substring "://" nl = false).
  { apply not_true_is_false. intros Hs.
    apply has_substring_spec in Hs as (a & b & Hab).
    rewrite Hab, !has_char_app in Hn2. simpl in Hn2.
    by rewrite !orb_true_r in Hn2. }
  unfold _normalize_domain. rewrite Hsub.
  assert (Hparse : urlparse ("http://" +:+ nl)
                   = Some (mkParse "http" nl "" "" "" "")).
  { unfold urlparse, urlparse_with, urlsplit.
    change (lstrip c0_or_space ("http://" +:+ nl)) with ("http://" +:+ nl)%string.
    rewrite remove_chars_id by (by rewrite has_char_app, Hn1).
    change (split_scheme ("http://" +:+ nl) _)
      with ("http"%string, ("//" +:+ nl)%string).
    change (startswith "//" ("//" +:+ nl)) with true. cbv iota beta.
    unfold _splitnetloc2. change (drop 2 ("//" +:+ nl)) with nl.
    pose proof (break_unique netloc_delim nl "" Hn2 eq_refl) as Hbk.
    rewrite str_app_nil_r in Hbk. rewrite Hbk, Hb. done. }
  by rewrite Hparse.
Qed.

(** The frontier [scrape_ngo] builds from the first seed URL: [URLManager]
    of the authority of a parsed URL is always constructed, with that
    authority in lower case as its base domain, and it takes the URL for an
    internal one. *)
Theorem init_of_netloc (url : string) (p : ParseResult)
    (max_depth max_pages : Z) :
  urlparse url = Some p →
  ∃ m, init (netloc p) max_depth max_pages = Some m
       ∧ base_domain m = lower (netloc p)
       ∧ is_internal_url m url = true
       ∧ url_queue m = [] ∧ visited_urls m = ∅ ∧ url_hashes m = ∅
       ∧ failed_urls m = ∅ ∧ stats m = zero_stats.
Proof.
  intros Hp. unfold init. rewrite (normalize_domain_netloc url p Hp). simpl.
  eexists. split; [done|]. simpl. repeat split.
  unfold is_internal_url. rewrite Hp. simpl. by rewrite String.eqb_refl.
Qed.

End Generic.
Lemma init_of_netloc_witness :
  ∃ m, @init no_bracketed_host "Example.org:8080" 2 10 = Some m
       ∧ base_domain m = "example.org:8080"%string
       ∧ @is_internal_url no_bracketed_host m
           "https://Example.org:8080/start?x=1" = true.
Proof.
  destruct (@init_of_netloc no_bracketed_host
              "https://Example.org:8080/start?x=1"
              (mkParse "https" "Example.org:8080" "/start" "" "x=1" "") 2 10)
    as (m & Hi & Hb & Hin & _).
  - vm_compute. reflexivity.
  - exists m. split; [exact Hi|]. split; [exact Hb|exact Hin].
Defined.

End DomainProps.

(** ** Pages, checkpoints and resuming *)

Module ScraperProps.
Import PyStr Urllib Frontier Scraper StrFacts Invariants FrontierProps.

(** An entry a page at [depth] puts in the queue: its parent is the page; a
    link is one level deeper, with a priority from 0 to 3; a document is at
    the depth of the page, with priority 0. *)
Definition child_of (url : string) (depth : Z) (e : entry) : Prop :=
  e_parent e = Some url
  ∧ ((e_depth e = depth + 1 ∧ 0 <= e_priority e <= 3)
     ∨ (e_depth e = depth ∧ e_priority e = 0)).

(** [m'] is [m] with children of the page appended to the queue, and with
    nothing else changed but the dedup index, which grew, and the counters. *)
Definition extended_by (url : string) (depth : Z) (m m' : URLManager) : Prop :=
  (∃ new, url_queue m' = url_queue m ++ new ∧ Forall (child_of url depth) new)
  ∧ visited_urls m' = visited_urls m
  ∧ failed_urls m' = failed_urls m
  ∧ url_hashes m ⊆ url_hashes m'
  ∧ max_depth m' = max_depth m ∧ max_pages m' = max_pages m
  ∧ base_domain m' = base_domain m.

Lemma extended_by_refl url depth m : extended_by url depth m m.
Proof.
  split; [exists []; by rewrite List.app_nil_r|]. by repeat split.
Qed.

Lemma extended_by_stats url depth m st :
  extended_by url depth m (set_stats st m).
Proof.
  split; [exists []; simpl; by rewrite List.app_nil_r|]. by repeat split.
Qed.

Lemma extended_by_trans url depth m1 m2 m3 :
  extended_by url depth m1 m2 → extended_by url depth m2 m3 →
  extended_by url depth m1 m3.
Proof.
  intros ((n1 & Hq1 & Hc1) & Hv1 & Hf1 & Hh1 & Hd1 & Hp1 & Hb1)
         ((n2 & Hq2 & Hc2) & Hv2 & Hf2 & Hh2 & Hd2 & Hp2 & Hb2).
  split.
  - exists (n1 ++ n2). rewrite Hq2, Hq1, List.app_assoc. split; [done|].
    by apply Forall_app.
  - repeat split; try congruence. by etrans.
Qed.

Section Generic.
Context `{HostSyntax} {case_mapping : CaseMapping}.
Variable cfg : Config.

Lemma add_url_extended url depth m link d prio :
  (d = depth + 1 ∧ 0 <= default 3 prio <= 3) ∨ (d = depth ∧ default 3 prio = 0) →
  extended_by url depth m (fst (add_url m link d (Some url) prio)).
Proof.
  intros Hc. rewrite add_url_outcome.
  destruct (classify m link d (Some url)); simpl;
    try apply extended_by_stats.
  destruct (normalize_url link (Some url)) as [c|];
    [|apply extended_by_refl].
  split; [|repeat split; try done; apply union_subseteq_r].
  exists [mkEntry (default 3 prio) d c (Some url)]. split; [done|].
  constructor; [|constructor]. split; [done|]. exact Hc.
Qed.

Lemma enqueue_links_extended m url depth links :
  extended_by url depth m (enqueue_links cfg m url depth links).
Proof.
  unfold enqueue_links.
  generalize (if negb (follow_external_links cfg)
              then List.filter link_internal links else links).
  intros l. revert m. induction l as [|link l IH]; intros m; simpl.
  { apply extended_by_refl. }
  eapply extended_by_trans; [|apply IH].
  destruct (should_exclude_url _ _); [apply extended_by_refl|].
  apply add_url_extended. left. split; [done|]. simpl.
  apply get_url_priority_range.
Qed.

Lemma enqueue_documents_extended m url depth documents :
  extended_by url depth m (enqueue_documents m url depth documents).
Proof.
  unfold enqueue_documents. revert m.
  induction documents as [|doc l IH]; intros m; simpl.
  { apply extended_by_refl. }
  eapply extended_by_trans; [|apply IH].
  apply add_url_extended. by right.
Qed.

(** What processing a page does to the frontier: it appends entries to the
    queue, each with the page as parent, the links one level below the page
    and the documents at its level with priority 0; it keeps the pending
    entries in their order, the visited set and the failed map; a page shorter
    than [min_content_length] changes nothing at all. *)
Theorem process_html_page_appends (m : URLManager) (url : string) (depth : Z)
    (html_len : Z) (links : list Link) (documents : list string) :
  let m' := _process_html_page cfg m url depth html_len links documents in
  extended_by url depth m m'
  ∧ (html_len < min_content_length cfg → m' = m).
Proof.
  cbv zeta. unfold _process_html_page. split.
  - destruct (html_len <? min_content_length cfg); [apply extended_by_refl|].
    eapply extended_by_trans; [|apply enqueue_documents_extended].
    destruct (extract_links cfg);
      [apply enqueue_links_extended|apply extended_by_refl].
  - intros Hlt. destruct (Z.ltb_spec html_len (min_content_length cfg)); [done|lia].
Qed.



Lemma classify_set_stats st m url depth parent :
  classify (set_stats st m) url depth parent = classify m url depth parent.
Proof. done. Qed.

(** Seeds that are not accepted leave the frontier as it is, counters
    apart. *)
Lemma fold_seeds_skipped (seeds : list string) (m : URLManager) :
  (∀ seed, seed ∈ seeds → classify m seed 0 None ≠ Accepted) →
  ∃ st,
    fold_left (fun m seed => fst (add_url m seed 0 None (Some 0))) seeds m
    = set_stats st m.
Proof.
  revert m. induction seeds as [|seed seeds IH]; intros m Hs; simpl.
  { exists (stats m). by destruct m. }
  assert (Hseed : classify m seed 0 None ≠ Accepted) by (apply Hs; left).
  rewrite (EnqueueProps.add_url_skipped m seed 0 None (Some 0) Hseed). simpl.
  destruct (IH (set_stats
                  ((if decide (classify m seed 0 None = Duplicate)
                    then incr_duplicate else incr_skipped) (stats m)) m))
    as [st Hst].
  { intros x Hx. rewrite classify_set_stats. apply Hs. by right. }
  exists st. by rewrite Hst.
Qed.

Lemma loop_empty_queue (mp : Z) (answers : list fetched) (s : Scraper) :
  url_queue (url_manager s) = [] → loop cfg mp answers s = (s, []).
Proof.
  intros Hq. destruct answers as [|answer answers]; [done|]. simpl.
  unfold loop_body, get_next_url. rewrite Hq. simpl. by destruct s.
Qed.

(** Resuming from the checkpoint [save_state] made of a frontier: when
    entries are pending, the run starts from that very frontier (its limits
    and base domain included) and no seed is added; when none is pending, as
    after a finished crawl, and the seeds are URLs [add_url] does not accept
    (they are in the dedup index of the checkpoint), the run fetches nothing
    and ends at once with the visited set of the checkpoint. *)
Theorem resume_restores (s s' : Scraper) (m : URLManager)
    (seed_urls : list string) (max_depth max_pages : Z) :
  save_progress cfg = true →
  progress_file s = Some (save_state m) →
  start cfg s seed_urls max_depth max_pages true = Some s' →
  (url_queue m ≠ [] → url_manager s' = m)
  ∧ (url_queue m = [] →
     (∀ seed, seed ∈ seed_urls → classify m seed 0 None ≠ Accepted) →
     (∃ st, url_manager s' = set_stats st m)
     ∧ ∀ budget answers, loop cfg budget answers s' = (s', [])).
Proof.
  intros Hsave Hpf. unfold start.
  destruct (head seed_urls) as [base_url|]; [|done]. simpl.
  destruct (urlparse base_url) as [parsed|]; [|done]. simpl.
  destruct (init (netloc parsed) max_depth max_pages) as [m0|]; [|done].
  simpl. rewrite Hsave. simpl. unfold _load_checkpoint. simpl.
  rewrite Hpf. simpl. rewrite CheckpointProps.load_state_save_state.
  intros [= <-]. simpl. unfold queue_size. split.
  - intros Hne. destruct (url_queue m) as [|e q] eqn:Hq; [done|]. done.
  - intros Hq Hseeds. rewrite Hq. simpl.
    destruct (fold_seeds_skipped seed_urls m Hseeds) as [st Hst].
    split; [by exists st|].
    intros budget answers. apply loop_empty_queue. simpl.
    by rewrite Hst.
Qed.

End Generic.

Lemma resume_restores_witness :
  url_manager <$> @start no_bracketed_host CrawlProps.example_config
                    CrawlProps.after_first_run
                    ["https://example.org/"]%string 2 10 true
  = Some (url_manager CrawlProps.after_first_run).
Proof.
  destruct (@start no_bracketed_host CrawlProps.example_config
              CrawlProps.after_first_run ["https://example.org/"]%string
              2 10 true) as [s'|] eqn:Hs; [|by vm_compute in Hs].
  simpl. f_equal.
  apply (@resume_restores no_bracketed_host ascii_case CrawlProps.example_config
           CrawlProps.after_first_run s'
           (url_manager CrawlProps.after_first_run)
           ["https://example.org/"]%string 2 10).
  - reflexivity.
  - apply CrawlProps.checkpoint_of_first_run.
  - exact Hs.
  - intros Hq. vm_compute in Hq. discriminate Hq.
Defined.

End ScraperProps.

(** ** No URL is taken from the queue twice *)

Module RefetchProps.
Import PyStr Urllib Frontier Scraper StrFacts Invariants FrontierProps.

(** The URL of a tuple [get_next_url] returned. *)
Definition url_of (d : Z * string * option string) : string := snd (fst d).

(** The hashes in [seen] are in the dedup index and belong to no pending
    entry, in a frontier whose bookkeeping is consistent. *)
Definition unseen (seen : gset string) (m : URLManager) : Prop :=
  consistent m
  ∧ seen ⊆ url_hashes m
  ∧ Forall (fun e => _url_hash (e_url e) ∉ seen) (url_queue m).

Section Generic.
Context `{HostSyntax} {case_mapping : CaseMapping}.
Variable cfg : Config.

Lemma add_url_unseen seen m url depth parent prio :
  unseen seen m → unseen seen (fst (add_url m url depth parent prio)).
Proof.
  intros (Hc & Hs & Hq). split; [by apply add_url_consistent|].
  destruct (add_url_cases m url depth parent prio)
    as [[st ->]|(c & _ & Hfresh & ->)]; simpl; [done|].
  split.
  - etrans; [exact Hs|]. apply union_subseteq_r.
  - apply Forall_app. split; [done|]. repeat constructor. simpl.
    intros Hin. apply Hfresh. by apply Hs.
Qed.

Lemma mark_visited_unseen seen m url :
  unseen seen m → unseen seen (mark_visited m url).
Proof.
  intros (Hc & Hs & Hq). split; [by apply mark_visited_consistent|].
  destruct (mark_visited_size m url) as (_ & -> & -> & _). done.
Qed.

Lemma mark_failed_unseen seen m url error :
  unseen seen m → unseen seen (mark_failed m url error).
Proof.
  intros (Hc & Hs & Hq). split; [by apply mark_failed_consistent|].
  destruct (mark_failed_frame m url error) as (_ & -> & -> & _). done.
Qed.

Lemma process_html_page_unseen seen m url depth html_len links documents :
  unseen seen m →
  unseen seen (_process_html_page cfg m url depth html_len links documents).
Proof.
  intros Hm. unfold _process_html_page.
  destruct (html_len <? min_content_length cfg); [done|].
  assert (Hl : unseen seen (if extract_links cfg
                            then enqueue_links cfg m url depth links else m)).
  { destruct (extract_links cfg); [|done]. unfold enqueue_links.
    generalize (if negb (follow_external_links cfg)
                then List.filter link_internal links else links).
    intros l. revert m Hm. induction l as [|link l IH]; intros m Hm; [done|].
    simpl. apply IH. destruct (should_exclude_url _ _); [done|].
    by apply add_url_unseen. }
  unfold enqueue_documents.
  revert Hl. generalize (if extract_links cfg
                         then enqueue_links cfg m url depth links else m).
  induction documents as [|doc l IH]; intros m' Hm'; [done|].
  simpl. apply IH. by apply add_url_unseen.
Qed.

Lemma get_next_url_unseen seen m m' d :
  unseen seen m →
  get_next_url m = (m', Some d) →
  (_url_hash (url_of d) ∉ seen)
  ∧ unseen ({[_url_hash (url_of d)]} ∪ seen) m'.
Proof.
  intros ([H1 H2 H3 H4 H5 H6 H7] & Hs & Hq) Hg.
  pose proof (get_next_url_consistent m (mkConsistent _ H1 H2 H3 H4 H5 H6 H7))
    as Hc'.
  destruct (get_next_url_cases m) as [[_ Hn]|(e & rest & Hp & Hn)];
    rewrite Hn in Hg; [done|].
  injection Hg as <- <-. rewrite Hn in Hc'. simpl in Hc'.
  unfold url_of. simpl.
  unfold queue_indexed in H3.
  rewrite <- Hp in Hq, H2, H3. simpl in H2.
  apply NoDup_cons in H2 as [He Hnd].
  inversion Hq as [|? ? Hqe Hqr]; subst.
  inversion H3 as [|? ? Hie Hir]; subst.
  split; [done|]. split; [done|]. simpl. split.
  - apply union_least; [by apply singleton_subseteq_l|done].
  - apply Forall_forall. intros x Hx Hin.
    apply elem_of_union in Hin as [Hin%elem_of_singleton|Hin].
    + apply He. rewrite <- Hin.
      by apply (list_elem_of_fmap_2 (fun e => _url_hash (e_url e)) rest x).
    + rewrite Forall_forall in Hqr. by apply (Hqr x).
Qed.

Lemma loop_body_unseen seen budget answer s :
  unseen seen (url_manager s) →
  match snd (loop_body cfg budget answer s) with
  | Some d =>
      (_url_hash (url_of d) ∉ seen)
      ∧ unseen ({[_url_hash (url_of d)]} ∪ seen)
          (url_manager
             (CrawlProps.either (fst (loop_body cfg budget answer s))))
  | None =>
      unseen seen
        (url_manager (CrawlProps.either (fst (loop_body cfg budget answer s))))
  end.
Proof.
  intros Hs. unfold loop_body.
  destruct (get_next_url (url_manager s)) as [m [d|]] eqn:Hg.
  2:{ simpl.
      destruct (get_next_url_cases (url_manager s))
        as [[_ Hn]|(e & rest & _ & Hn)]; rewrite Hn in Hg; [|done].
      by injection Hg as <-. }
  destruct (get_next_url_unseen seen _ _ _ Hs Hg) as [Hd Hm].
  destruct d as [[depth url] parent]. unfold url_of in *. simpl in *.
  destruct (Z.of_nat (size (visited_urls m)) >=? budget); simpl; [done|].
  destruct (is_visited m url); simpl; [done|].
  destruct answer as [|error|c]; simpl.
  - split; [done|]. by apply mark_visited_unseen.
  - split; [done|]. by apply mark_visited_unseen, mark_failed_unseen.
  - split; [done|].
    assert (Hp : unseen ({[_url_hash url]} ∪ seen)
                   (match c with
                    | Html html_len links documents =>
                        _process_html_page cfg (mark_visited m url) url depth
                          html_len links documents
                    | _ => mark_visited m url
                    end)).
    { destruct c; [|by apply mark_visited_unseen..].
      by apply process_html_page_unseen, mark_visited_unseen. }
    by destruct (save_progress cfg
                 && (requests_since_checkpoint s + 1 >=? checkpoint_interval cfg)).
Qed.

Lemma loop_unseen seen budget answers s :
  unseen seen (url_manager s) →
  NoDup (_url_hash ∘ url_of <$> snd (loop cfg budget answers s))
  ∧ Forall (fun d => _url_hash (url_of d) ∉ seen)
      (snd (loop cfg budget answers s))
  ∧ consistent (url_manager (fst (loop cfg budget answers s))).
Proof.
  revert seen s. induction answers as [|answer answers IH]; intros seen s Hs.
  { simpl. split; [apply NoDup_nil_2|]. split; [done|]. apply Hs. }
  simpl. pose proof (loop_body_unseen seen budget answer s Hs) as Hb.
  destruct (loop_body cfg budget answer s) as [[s'|s'] [d|]]; simpl in *.
  - destruct Hb as [Hd Hm].
    destruct (IH _ s' Hm) as (Hnd & Hf & Hc).
    destruct (loop cfg budget answers s') as [s'' ds]. simpl in *.
    split; [|split; [|done]].
    + apply NoDup_cons. split; [|done].
      intros Hin. apply list_elem_of_fmap in Hin as (x & Hx & Hin).
      rewrite Forall_forall in Hf. apply (Hf x Hin).
      apply elem_of_union. left. apply elem_of_singleton. symmetry.
      exact Hx.
    + constructor; [done|]. eapply Forall_impl; [exact Hf|].
      simpl. intros x Hx Hin. apply Hx. apply elem_of_union. by right.
  - destruct (IH _ s' Hb) as (Hnd & Hf & Hc).
    by destruct (loop cfg budget answers s') as [s'' ds].
  - destruct Hb as [Hd (Hc & _)]. split; [|split; [|done]].
    + apply NoDup_singleton.
    + by repeat constructor.
  - split; [apply NoDup_nil_2|]. split; [done|]. apply Hb.
Qed.

Lemma fold_seeds_consistent (seeds : list string) (m : URLManager) :
  consistent m →
  consistent
    (fold_left (fun m seed => fst (add_url m seed 0 None (Some 0))) seeds m).
Proof.
  revert m. induction seeds as [|seed seeds IH]; intros m Hm; [done|].
  simpl. by apply IH, add_url_consistent.
Qed.

Lemma start_consistent s seed_urls max_depth max_pages resume s0 :
  (resume = true →
   ∀ state, progress_file s = Some state →
            ∃ m, state = save_state m ∧ consistent m) →
  start cfg s seed_urls max_depth max_pages resume = Some s0 →
  consistent (url_manager s0).
Proof.
  intros Hr. unfold start.
  destruct (head seed_urls) as [base_url|]; [|done]. simpl.
  destruct (urlparse base_url) as [parsed|]; [|done]. simpl.
  destruct (init (netloc parsed) max_depth max_pages) as [m0|] eqn:Hi;
    [|done].
  simpl. intros [= <-]. simpl.
  assert (H0 : consistent m0).
  { apply reachable_consistent. by eapply copies_init. }
  set (s1 := if resume && save_progress cfg then _ else _).
  assert (Hs1 : consistent (url_manager s1)).
  { subst s1. destruct resume; simpl; [|done].
    destruct (save_progress cfg); simpl; [|done].
    unfold _load_checkpoint. simpl.
    destruct (progress_file s) as [state|] eqn:Hpf; simpl; [|done].
    destruct (Hr eq_refl state eq_refl) as (m & -> & Hm).
    by rewrite CheckpointProps.load_state_save_state. }
  destruct (queue_size (url_manager s1) =? 0); [|done].
  by apply fold_seeds_consistent.
Qed.

(** A run never takes the same URL from the queue twice: the URLs
    [get_next_url] returns during a run of [scrape_ngo], started fresh or
    resumed from the checkpoint of a frontier with consistent bookkeeping,
    are pairwise distinct, whatever the collaborators answer; and the
    bookkeeping of the frontier is consistent at the end. *)
Theorem crawl_no_refetch (s s' : Scraper) (seed_urls : list string)
    (max_depth max_pages : option Z) (resume : bool) (answers : list fetched)
    (trace : list (Z * string * option string)) :
  (resume = true →
   ∀ state, progress_file s = Some state →
            ∃ m, state = save_state m ∧ consistent m) →
  scrape_ngo cfg s seed_urls max_depth max_pages resume answers
  = Some (s', trace) →
  NoDup (url_of <$> trace) ∧ consistent (url_manager s').
Proof.
  intros Hr. unfold scrape_ngo.
  destruct (start cfg s seed_urls _ _ resume) as [s0|] eqn:Hs0; [|done].
  simpl. intros [= Heq].
  pose proof (start_consistent _ _ _ _ _ _ Hr Hs0) as Hc.
  destruct (loop_unseen ∅ (int_or max_pages (max_pages_per_site cfg))
              answers s0) as (Hnd & _ & Hc').
  { split; [done|]. split; [apply empty_subseteq|].
    apply Forall_forall. intros e _. apply not_elem_of_empty. }
  rewrite Heq in Hnd, Hc'. simpl in *. split; [|done].
  rewrite (list_fmap_compose url_of _url_hash) in Hnd.
  by apply NoDup_fmap_1 in Hnd.
Qed.

End Generic.

Example first_run_urls :
  (fun r : Scraper * list (Z * string * option string) =>
     map url_of (snd r)) <$> CrawlProps.first_run
  = Some ["https://example.org/"; "https://example.org/a"]%string.
Proof. vm_compute. reflexivity. Qed.

Lemma crawl_no_refetch_witness :
  NoDup ["https://example.org/"; "https://example.org/a"]%string.
Proof.
  pose proof first_run_urls as Hf.
  destruct CrawlProps.first_run as [[s' trace]|] eqn:Hrun; [|discriminate Hf].
  simpl in Hf. injection Hf as Ht. rewrite <- Ht.
  apply (@crawl_no_refetch no_bracketed_host ascii_case CrawlProps.example_config
           CrawlProps.new_scraper s' ["https://example.org/"]%string
           (Some 2) (Some 10) false
           [Fetched CrawlProps.seed_page; Fetched CrawlProps.page_a] trace).
  - intros Hr. discriminate Hr.
  - exact Hrun.
Defined.

End RefetchProps.

(** ** File names and duplicate content *)

Module StorageProps.
Import PyStr Urllib StrFacts NormalizeProps TextFacts Storage HashProps.
Local Arguments String.append : simpl nomatch.

Lemma replace_class_free (p : ascii → bool) (b : ascii) (s : string) :
  p b = false → has_char p (replace_class p b s) = false.
Proof.
  intros Hb. induction s as [|c s IH]; [done|]. simpl. rewrite IH.
  destruct (p c) eqn:Hc; by rewrite ?Hb, ?Hc.
Qed.

Lemma replace_class_id (p : ascii → bool) (b : ascii) (s : string) :
  has_char p s = false → replace_class p b s = s.
Proof.
  induction s as [|c s IH]; [done|]. simpl.
  intros [Hc Hs]%orb_false_iff. by rewrite Hc, IH.
Qed.

Lemma take_chars_prefix (n : nat) (s : string) : prefix_of (take_chars n s) s.
Proof.
  revert n. induction s as [|c s IH]; intros n; simpl;
    [apply prefix_of_nil|].
  destruct (continuation c).
  - destruct (IH n) as [t Ht]. exists t. by rewrite str_app_cons, <- Ht.
  - destruct n as [|n]; [apply prefix_of_nil|].
    destruct (IH n) as [t Ht]. exists t. by rewrite str_app_cons, <- Ht.
Qed.

Lemma take_chars_length (n : nat) (s : string) :
  (char_length (take_chars n s) <= n)%nat.
Proof.
  revert n. induction s as [|c s IH]; intros n; simpl; [lia|].
  destruct (continuation c) eqn:Hc; simpl.
  - rewrite Hc. apply IH.
  - destruct n as [|n]; simpl; [lia|]. rewrite Hc. specialize (IH n). lia.
Qed.

Lemma take_chars_all (n : nat) (s : string) :
  (char_length s <= n)%nat → take_chars n s = s.
Proof.
  revert n. induction s as [|c s IH]; intros n; simpl; [done|].
  destruct (continuation c).
  - intros Hl. by rewrite IH.
  - destruct n as [|n]; [lia|]. intros Hl. rewrite IH; [done|lia].
Qed.

Lemma char_length_app (a b : string) :
  char_length (a +:+ b) = (char_length a + char_length b)%nat.
Proof.
  induction a as [|c a IH]; [done|]. rewrite str_app_cons. simpl.
  rewrite IH. by destruct (continuation c).
Qed.

Lemma lstrip_suffix (p : ascii → bool) (s : string) :
  ∃ t, s = t +:+ lstrip p s.
Proof.
  induction s as [|c s IH]; [by exists EmptyString|]. simpl.
  destruct (p c); [|by exists EmptyString].
  destruct IH as [t Ht]. exists (String c t). by rewrite str_app_cons, <- Ht.
Qed.

Lemma lstrip_free (p q : ascii → bool) (s : string) :
  has_char q s = false → has_char q (lstrip p s) = false.
Proof.
  intros Hs. destruct (lstrip_suffix p s) as [t Ht].
  rewrite Ht, has_char_app in Hs. by apply orb_false_iff in Hs as [_ ?].
Qed.

(** The first character of a string, if any, is not in the class. *)
Definition head_outside (p : ascii → bool) (s : string) : Prop :=
  match s with EmptyString => True | String c _ => p c = false end.

Lemma lstrip_head (p : ascii → bool) (s : string) :
  head_outside p (lstrip p s).
Proof.
  induction s as [|c s IH]; [done|]. simpl.
  by destruct (p c) eqn:Hc.
Qed.

Lemma prefix_head (p : ascii → bool) (a s : string) :
  prefix_of a s → head_outside p s → head_outside p a.
Proof.
  intros [t ->]. destruct a as [|c a]; [done|]. by rewrite str_app_cons.
Qed.

Lemma lstrip_id (p : ascii → bool) (s : string) :
  head_outside p s → lstrip p s = s.
Proof. destruct s as [|c s]; [done|]. simpl. by intros ->. Qed.

Lemma rstrip_idem (p : ascii → bool) (s : string) :
  rstrip p (rstrip p s) = rstrip p s.
Proof.
  induction s as [|c s IH]; [done|]. simpl.
  destruct (rstrip p s) as [|x r] eqn:Hr.
  - destruct (p c) eqn:Hc; [done|]. simpl. by rewrite Hc.
  - simpl. simpl in IH. by rewrite IH.
Qed.

Lemma strip_idem (p : ascii → bool) (s : string) :
  strip p (strip p s) = strip p s.
Proof.
  unfold strip.
  rewrite (lstrip_id p (rstrip p (lstrip p s))).
  - apply rstrip_idem.
  - eapply prefix_head; [apply rstrip_prefix|apply lstrip_head].
Qed.

Lemma prefix_length (a s : string) :
  prefix_of a s → (char_length a <= char_length s)%nat.
Proof. intros [t ->]. rewrite char_length_app. lia. Qed.

Lemma lstrip_length (p : ascii → bool) (s : string) :
  (char_length (lstrip p s) <= char_length s)%nat.
Proof.
  destruct (lstrip_suffix p s) as [t Ht]. rewrite Ht at 2.
  rewrite char_length_app. lia.
Qed.

(** A replacement of ASCII characters by an ASCII character keeps the
    number of characters. *)
Lemma replace_class_length (p : ascii → bool) (b : ascii) (s : string) :
  (∀ c, p c = true → continuation c = false) → continuation b = false →
  char_length (replace_class p b s) = char_length s.
Proof.
  intros Hp Hb. induction s as [|c s IH]; [done|]. simpl. rewrite IH.
  destruct (p c) eqn:Hc; [|done]. by rewrite Hb, (Hp c Hc).
Qed.

Lemma invalid_char_ascii (c : ascii) :
  invalid_char c = true → continuation c = false.
Proof. destruct c as [[] [] [] [] [] [] [] []]; done. Qed.

Lemma strip_free (p q : ascii → bool) (s : string) :
  has_char q s = false → has_char q (strip p s) = false.
Proof.
  intros Hs. unfold strip. eapply prefix_of_free; [apply rstrip_prefix|].
  by apply lstrip_free.
Qed.

Lemma strip_length (p : ascii → bool) (s : string) :
  (char_length (strip p s) <= char_length s)%nat.
Proof.
  unfold strip. pose proof (prefix_length _ _ (rstrip_prefix p (lstrip p s))).
  pose proof (lstrip_length p s). lia.
Qed.

Lemma sanitize_filename_facts (filename : string) :
  let name := _sanitize_filename filename in
  truthy name = true
  ∧ (char_length name <= 200)%nat
  ∧ has_char invalid_char name = false
  ∧ head_outside dot_or_space name.
Proof.
  cbv zeta. unfold _sanitize_filename.
  set (a := strip dot_or_space (replace_class invalid_char "_" filename)).
  assert (Ha : has_char invalid_char a = false)
    by (apply strip_free; by apply replace_class_free).
  assert (Hh : head_outside dot_or_space a).
  { subst a. unfold strip.
    eapply prefix_head; [apply rstrip_prefix|apply lstrip_head]. }
  set (b := if (200 <? char_length a)%nat then take_chars 200 a else a).
  assert (Hb : prefix_of b a).
  { subst b. destruct (200 <? char_length a)%nat;
      [apply take_chars_prefix|apply prefix_of_refl]. }
  assert (Hl : (char_length b <= 200)%nat).
  { subst b. destruct (Nat.ltb_spec 200 (char_length a));
      [apply take_chars_length|done]. }
  destruct (truthy b) eqn:Ht.
  - repeat split; try done.
    + by eapply prefix_of_free.
    + by eapply prefix_head.
  - repeat split; simpl; lia.
Qed.

(** The name [_sanitize_filename] returns is safe for the file system: it is
    not empty, has at most 200 characters, holds none of the characters the
    regular expression replaces (a slash and a backslash among them), and
    does not start with a dot or a space. *)
Theorem sanitize_filename_safe (filename : string) :
  let name := _sanitize_filename filename in
  truthy name = true
  ∧ (char_length name <= 200)%nat
  ∧ has_char invalid_char name = false
  ∧ head_outside dot_or_space name.
Proof. apply sanitize_filename_facts. Qed.

(** Sanitizing a name of at most 200 characters a second time changes
    nothing. *)
Theorem sanitize_filename_idem (filename : string) :
  (char_length filename <= 200)%nat →
  _sanitize_filename (_sanitize_filename filename)
  = _sanitize_filename filename.
Proof.
  intros Hlen.
  set (a := strip dot_or_space (replace_class invalid_char "_" filename)).
  assert (Hla : (char_length a <= 200)%nat).
  { subst a. pose proof (strip_length dot_or_space
                           (replace_class invalid_char "_" filename)) as Hs.
    rewrite replace_class_length in Hs by (done || apply invalid_char_ascii).
    lia. }
  assert (Hnot : (200 <? char_length a)%nat = false)
    by (apply Nat.ltb_ge; lia).
  assert (Hs : _sanitize_filename filename
               = if truthy a then a else "unnamed"%string).
  { unfold _sanitize_filename. fold a. by rewrite Hnot. }
  rewrite Hs. destruct (truthy a) eqn:Ht; [|vm_compute; reflexivity].
  assert (Ha : has_char invalid_char a = false)
    by (apply strip_free; by apply replace_class_free).
  assert (Hst : strip dot_or_space a = a) by apply strip_idem.
  unfold _sanitize_filename.
  by rewrite (replace_class_id _ _ a Ha), Hst, Hnot, Ht.
Qed.

Lemma lower_hex_valid (c : ascii) :
  lower_hex c = true → invalid_char c = false.
Proof. destruct c as [[] [] [] [] [] [] [] []]; done. Qed.

Lemma hash_prefix_valid (n : nat) (url : string) :
  has_char invalid_char (take_chars n (Md5.md5_hexdigest url)) = false
  ∧ (char_length (take_chars n (Md5.md5_hexdigest url)) <= n)%nat.
Proof.
  split; [|apply take_chars_length].
  eapply prefix_of_free; [apply take_chars_prefix|].
  apply (all_chars_has_char _ lower_hex); [apply lower_hex_valid|].
  apply (md5_hexdigest_format url).
Qed.

Section Generic.
Context `{HostSyntax} {case_mapping : CaseMapping}.

(** The file name [_url_to_filename] makes of a URL ends with the extension;
    when the extension holds no slash, backslash or other character the
    sanitizer replaces, neither does the name, so the file lies in the
    directory it is joined to; and the name is at most 209 characters longer
    than the extension (200 of the sanitized path, an underscore and the 8
    digits of the hash). *)
Theorem url_to_filename_safe (url extension name : string) :
  _url_to_filename url extension = Some name →
  endswith extension name = true
  ∧ (has_char invalid_char extension = false →
     has_char invalid_char name = false)
  ∧ (char_length name <= 209 + char_length extension)%nat
  ∧ truthy name = true.
Proof.
  unfold _url_to_filename.
  destruct (urlparse url) as [parsed|]; [|done]. cbn [mbind option_bind].
  set (p := _sanitize_filename _).
  destruct (sanitize_filename_facts
              (replace_char "/" "_"
                 (strip (ch_eqb "/")
                    (if truthy (path parsed) then path parsed else "index"))))
    as (_ & Hlen & Hvalid & _).
  fold p in Hlen, Hvalid.
  set (stem := if negb (endswith extension p) then p
               else drop_end (char_length extension) p).
  assert (Hstem : prefix_of stem p).
  { subst stem. destruct (negb _); [apply prefix_of_refl|].
    unfold drop_end. destruct (char_length extension);
      [apply prefix_of_nil|apply take_chars_prefix]. }
  destruct (hash_prefix_valid 8 url) as [Hh Hhl].
  set (h := take_chars 8 (Md5.md5_hexdigest url)) in *.
  assert (Hname : (if negb (endswith extension p)
                   then p +:+ "_" +:+ h +:+ extension
                   else drop_end (char_length extension) p
                        +:+ "_" +:+ h +:+ extension)
                  = stem +:+ "_" +:+ h +:+ extension).
  { subst stem. by destruct (negb _). }
  rewrite Hname. clear Hname. clearbody stem h. clearbody p.
  intros Heq.
  assert (name = stem +:+ "_" +:+ h +:+ extension) as -> by congruence.
  clear Heq. repeat split.
  - apply endswith_spec. exists (stem +:+ "_" +:+ h).
    by rewrite !str_app_assoc.
  - intros He.
    pose proof (prefix_of_free invalid_char stem p Hstem Hvalid) as Hs.
    rewrite (has_char_app invalid_char stem), Hs.
    simpl. by rewrite (has_char_app invalid_char h), Hh, He.
  - rewrite !char_length_app. change (char_length "_") with 1%nat.
    pose proof (prefix_length stem p Hstem). lia.
  - by destruct stem.
Qed.

End Generic.

Section Digest.
Context `{ContentDigest}.

(** Content seen once is a duplicate from then on: the first call of
    [is_duplicate_content] on a content answers whether its digest was
    known and records it, a second call answers [True] and counts one
    duplicate more; the answer for a content with another digest is not
    affected. *)
Theorem is_duplicate_content_twice (sm : StorageManager) (content : string) :
  let sm1 := fst (is_duplicate_content sm content) in
  let sm2 := fst (is_duplicate_content sm1 content) in
  (snd (is_duplicate_content sm content) = true
   ↔ _content_hash content ∈ content_hashes sm)
  ∧ snd (is_duplicate_content sm1 content) = true
  ∧ content_hashes sm2 = content_hashes sm1
  ∧ duplicate_content (storage_stats sm2)
    = duplicate_content (storage_stats sm1) + 1
  ∧ (∀ other, _content_hash other ≠ _content_hash content →
              snd (is_duplicate_content sm1 other)
              = snd (is_duplicate_content sm other)).
Proof.
  cbv zeta.
  assert (Hknown : ∀ sm0 c,
             _content_hash c ∈ content_hashes sm0 →
             is_duplicate_content sm0 c
             = (mkStorage (content_hashes sm0)
                  (mkStorageStats (pages_saved (storage_stats sm0))
                     (documents_saved (storage_stats sm0))
                     (links_extracted (storage_stats sm0))
                     (duplicate_content (storage_stats sm0) + 1)
                     (errors (storage_stats sm0))), true)).
  { intros sm0 c Hin. unfold is_duplicate_content.
    by destruct (decide _). }
  assert (Hnew : ∀ sm0 c,
             _content_hash c ∉ content_hashes sm0 →
             is_duplicate_content sm0 c
             = (mkStorage ({[_content_hash c]} ∪ content_hashes sm0)
                  (storage_stats sm0), false)).
  { intros sm0 c Hout. unfold is_duplicate_content.
    by destruct (decide _). }
  assert (Hin1 : _content_hash content
                 ∈ content_hashes (fst (is_duplicate_content sm content))).
  { destruct (decide (_content_hash content ∈ content_hashes sm)) as [Hi|Ho].
    - by rewrite (Hknown sm content Hi).
    - rewrite (Hnew sm content Ho). simpl. apply elem_of_union. left.
      by apply elem_of_singleton. }
  split.
  { destruct (decide (_content_hash content ∈ content_hashes sm)) as [Hi|Ho].
    - by rewrite (Hknown sm content Hi).
    - by rewrite (Hnew sm content Ho). }
  rewrite (Hknown _ content Hin1). simpl. repeat split; try done.
  intros other Hne.
  assert (Hflag : ∀ sm0 c,
             snd (is_duplicate_content sm0 c)
             = bool_decide (_content_hash c ∈ content_hashes sm0)).
  { intros sm0 c. unfold is_duplicate_content.
    destruct (decide _) as [Hd|Hd]; simpl.
    - by rewrite bool_decide_eq_true_2.
    - by rewrite bool_decide_eq_false_2. }
  rewrite !Hflag. apply bool_decide_ext.
  destruct (decide (_content_hash content ∈ content_hashes sm)) as [Hi|Ho].
  { by rewrite (Hknown sm content Hi). }
  rewrite (Hnew sm content Ho). simpl.
  rewrite elem_of_union, elem_of_singleton. split; [|by right].
  by intros [?|?].
Qed.

End Digest.

Lemma sanitize_filename_idem_witness :
  _sanitize_filename (_sanitize_filename " ..annual report: 2023?.pdf. ")
  = _sanitize_filename " ..annual report: 2023?.pdf. ".
Proof. apply sanitize_filename_idem. simpl. lia. Defined.

Lemma url_to_filename_safe_witness :
  endswith ".html" "a_b_b1ce6f97.html" = true
  ∧ (has_char invalid_char ".html" = false →
     has_char invalid_char "a_b_b1ce6f97.html" = false)
  ∧ (char_length "a_b_b1ce6f97.html" <= 209 + char_length ".html")%nat
  ∧ truthy "a_b_b1ce6f97.html" = true.
Proof.
  apply (@url_to_filename_safe no_bracketed_host "http://example.com/a/b.html").
  vm_compute. reflexivity.
Defined.

End StorageProps.
